(** * adguardfilter: the timer registry and the authenticated client

    A shallow embedding of the Go packages of the repository,

    - [common/timer]  (timer.go): the process-wide timer registry,
    - [adguardapi]    (auth.go):  the cookie-session client with one
      re-authentication cycle,
    - [adguardapi]    (adguardapi.go): the calls that read, update and
      reset the blocked services,
    - [model] and [common/logger],

    together with the properties of their specification, and with further
    properties of the code.

    Conventions.  A [*Timer] is an index into the list of allocated
    Timer objects; the registry [timers] is a finite map from ids to such
    indices, so two handles under one id are two different objects.  Every
    Timer owns the goroutine started for it by [createTimer]; the
    goroutine's position inside [run] is kept next to the object.  Critical
    sections guarded by [timersMu] or by a Timer's [mu] are single
    transitions; everything between two of them can be interleaved with
    other goroutines.  Calls to the logger have no effect on either package
    and are left out. *)

From stdpp Require Import gmap strings list fin_maps relations.
From Stdlib Require Import ZArith Lia Ascii.

Local Open Scope string_scope.
Local Open Scope list_scope.

(** ** Package [time] as far as timer.go uses it *)

Module time.

(** [time.Time]: an instant, in nanoseconds. *)
Definition Time := Z.

(** [time.Duration]: a signed 64-bit count of nanoseconds. *)
Definition Duration := Z.

Definition minInt64 : Z := - 2 ^ 63.
Definition maxInt64 : Z := 2 ^ 63 - 1.

(** Two's complement wrap-around of [int64] arithmetic. *)
Definition wrap64 (z : Z) : Z := ((z + 2 ^ 63) mod 2 ^ 64 - 2 ^ 63)%Z.

Definition Minute : Duration := 60000000000%Z.

(** [time.Duration(n) * time.Minute] on int64. *)
Definition Duration_mul (a b : Duration) : Duration := wrap64 (a * b).

(** [t.Add(d)]; instants are unbounded here. *)
Definition Add (t : Time) (d : Duration) : Time := (t + d)%Z.

(** [t.Before(u)]: strictly earlier. *)
Definition Before (t u : Time) : bool := (t <? u)%Z.

(** [t.Sub(u)] saturates at the bounds of [Duration]. *)
Definition Sub (t u : Time) : Duration :=
  let d := (t - u)%Z in
  if (d <? minInt64)%Z then minInt64
  else if (maxInt64 <? d)%Z then maxInt64
  else d.

(** [time.Until(t)] is [t.Sub(time.Now())]. *)
Definition Until (now t : Time) : Duration := Sub t now.

End time.

(** ** Package [common/timer] *)

Module timer.

Import time.

(** What a [func()] value does when it is called: it returns, or it
    panics with a value. *)
Inductive Callback :=
| Returns
| Panics (v : string).

(** A buffered [chan bool]: its capacity and the values in flight. *)
Record Chan := mkChan { cap : nat; buf : list bool }.

(** [make(chan bool, n)] *)
Definition make_chan (n : nat) : Chan := {| cap := n; buf := [] |}.

(** [ch <- v] as a blocking send: [None] when the send cannot proceed. *)
Definition chan_send (ch : Chan) (v : bool) : option Chan :=
  if decide (length (buf ch) < cap ch)%nat
  then Some {| cap := cap ch; buf := buf ch ++ [v] |}
  else None.

(** [<-ch]: [None] when the receive cannot proceed. *)
Definition chan_recv (ch : Chan) : option (bool * Chan) :=
  match buf ch with
  | v :: rest => Some (v, {| cap := cap ch; buf := rest |})
  | [] => None
  end.

(** [select { case ch <- v: default: }] *)
Definition select_send_default (ch : Chan) (v : bool) : Chan :=
  match chan_send ch v with
  | Some ch' => ch'
  | None => ch
  end.

(** The struct [Timer].  The field [timer] holds the instant at which
    the runtime timer made by [time.NewTimer] delivers on its channel
    [C]; [None] is the nil pointer.  The mutex [mu] has no field: its
    critical sections are single transitions. *)
Record Timer := mkTimer {
  id : string;
  timer : option Time;
  callback : option Callback;
  expireTime : Time;
  isActive : bool;
  stopChan : Chan;
}.

(** Where the goroutine executing [t.run(duration)] stands. *)
Inductive PC :=
| AtNewTimer (duration : Duration) (* about to run [time.NewTimer] *)
| AtSelect                          (* blocked in the [select] *)
| ExpMark                           (* took [<-t.timer.C] *)
| ExpCall                           (* marked inactive, callback next *)
| ExpDelete                         (* callback returned *)
| StopMark                          (* took [<-t.stopChan] *)
| StopDelete                        (* marked inactive *)
| Exited.                           (* [run] has returned *)

#[global] Instance PC_eq_dec : EqDecision PC.
Proof. solve_decision. Defined.

(** A Timer object and the goroutine it owns. *)
Record Cell := mkCell { obj : Timer; pc : PC }.

(** What the goroutines have done to the outside. *)
Inductive Event :=
| Invoked (t : nat)                 (* [t.callback()] was called *)
| Recovered (t : nat) (v : string). (* the deferred [recover] caught [v] *)

(** A caller inside [createTimer] that found the id taken and released
    [timersMu]. *)
Inductive CreateStage :=
| AtStop (existingTimer : nat)      (* about to call [existingTimer.Stop()] *)
| AtInstall.                        (* about to take [timersMu] again *)

Record Creator := mkCreator {
  c_id : string;
  c_duration : Duration;
  c_expireTime : Time;
  c_callback : option Callback;
  c_stage : CreateStage;
}.

Record State := mkState {
  now : Time;                  (* the clock read by [time.Now] *)
  heap : list Cell;            (* every Timer allocated so far *)
  timers : gmap string nat;    (* the global registry *)
  creators : list Creator;     (* calls that are inside [createTimer] *)
  events : list Event;         (* newest first *)
}.

Definition init : State :=
  {| now := 0%Z; heap := []; timers := ∅; creators := []; events := [] |}.

(** *** Field updates *)

Definition set_now (n : Time) (s : State) : State :=
  {| now := n; heap := heap s; timers := timers s;
     creators := creators s; events := events s |}.

Definition set_heap (h : list Cell) (s : State) : State :=
  {| now := now s; heap := h; timers := timers s;
     creators := creators s; events := events s |}.

Definition set_timers (m : gmap string nat) (s : State) : State :=
  {| now := now s; heap := heap s; timers := m;
     creators := creators s; events := events s |}.

Definition set_creators (cs : list Creator) (s : State) : State :=
  {| now := now s; heap := heap s; timers := timers s;
     creators := cs; events := events s |}.

Definition add_event (e : Event) (s : State) : State :=
  {| now := now s; heap := heap s; timers := timers s;
     creators := creators s; events := e :: events s |}.

Definition set_cell (l : nat) (c : Cell) (s : State) : State :=
  set_heap (<[l := c]> (heap s)) s.

Definition with_timer (v : option Time) (t : Timer) : Timer :=
  {| id := id t; timer := v; callback := callback t;
     expireTime := expireTime t; isActive := isActive t;
     stopChan := stopChan t |}.

Definition with_isActive (b : bool) (t : Timer) : Timer :=
  {| id := id t; timer := timer t; callback := callback t;
     expireTime := expireTime t; isActive := b;
     stopChan := stopChan t |}.

Definition with_stopChan (ch : Chan) (t : Timer) : Timer :=
  {| id := id t; timer := timer t; callback := callback t;
     expireTime := expireTime t; isActive := isActive t;
     stopChan := ch |}.

Definition with_stage (st : CreateStage) (c : Creator) : Creator :=
  {| c_id := c_id c; c_duration := c_duration c;
     c_expireTime := c_expireTime c; c_callback := c_callback c;
     c_stage := st |}.

(** *** Methods of a Timer handle *)

(** [func (t *Timer) Stop()].  [None]: [t] is not an allocated Timer.
    Nothing in the body can block: the only channel operation is the
    [select] with a [default] branch. *)
Definition Stop (t : nat) (s : State) : option State :=
  c ← heap s !! t;
  if negb (isActive (obj c)) then Some s
  else
    Some (set_cell t
            {| obj := with_stopChan
                        (select_send_default (stopChan (obj c)) true) (obj c);
               pc := pc c |} s).

(** [func (t *Timer) IsActive() bool] *)
Definition IsActive (t : nat) (s : State) : option bool :=
  c ← heap s !! t; Some (isActive (obj c)).

(** [func (t *Timer) GetExpireTime() time.Time] *)
Definition GetExpireTime (t : nat) (s : State) : option Time :=
  c ← heap s !! t; Some (expireTime (obj c)).

(** [func (t *Timer) GetID() string] *)
Definition GetID (t : nat) (s : State) : option string :=
  c ← heap s !! t; Some (id (obj c)).

(** *** The goroutine: [func (t *Timer) run(duration time.Duration)] *)

(** The two cases of the [select]. *)
Inductive Branch := TimerC | StopC.

(** One transition of the goroutine of Timer [t].  [b] names the case
    taken when the goroutine is at the [select]; it is ignored elsewhere.
    [None]: the goroutine cannot move (it is blocked, or it has
    returned).

    In [ExpCall] the deferred function is registered only when the
    callback is called.  A callback that panics unwinds [run]: the
    deferred function recovers, and [run] returns from there, so the
    statements after [t.callback()] are not executed.  In [StopDelete]
    the call [t.timer.Stop()] releases the runtime timer, which nothing
    reads afterwards. *)
Definition run_step (t : nat) (b : Branch) (s : State) : option State :=
  c ← heap s !! t;
  let o := obj c in
  match pc c with
  | AtNewTimer duration =>
      Some (set_cell t
              {| obj := with_timer (Some (Add (now s) duration)) o;
                 pc := AtSelect |} s)
  | AtSelect =>
      match b with
      | TimerC =>
          match timer o with
          | Some at_ =>
              if (at_ <=? now s)%Z
              then Some (set_cell t {| obj := o; pc := ExpMark |} s)
              else None
          | None => None
          end
      | StopC =>
          match chan_recv (stopChan o) with
          | Some (_, ch) =>
              Some (set_cell t
                      {| obj := with_stopChan ch o; pc := StopMark |} s)
          | None => None
          end
      end
  | ExpMark =>
      Some (set_cell t {| obj := with_isActive false o; pc := ExpCall |} s)
  | ExpCall =>
      match callback o with
      | Some Returns =>
          Some (add_event (Invoked t)
                  (set_cell t {| obj := o; pc := ExpDelete |} s))
      | Some (Panics v) =>
          Some (add_event (Recovered t v)
                  (add_event (Invoked t)
                     (set_cell t {| obj := o; pc := Exited |} s)))
      | None =>
          Some (set_cell t {| obj := o; pc := ExpDelete |} s)
      end
  | ExpDelete =>
      Some (set_timers (delete (id o) (timers s))
              (set_cell t {| obj := o; pc := Exited |} s))
  | StopMark =>
      Some (set_cell t
              {| obj := with_isActive false o; pc := StopDelete |} s)
  | StopDelete =>
      Some (set_timers (delete (id o) (timers s))
              (set_cell t {| obj := o; pc := Exited |} s))
  | Exited => None
  end.

(** *** Package-level functions *)

(** The second half of [createTimer]: allocate the Timer, register it
    under [timersMu], start its goroutine. *)
Definition createTimer_install (id_ : string) (duration : Duration)
    (expireTime_ : Time) (callback_ : option Callback) (s : State)
    : State * nat :=
  let t := length (heap s) in
  let o := {| id := id_; timer := None; callback := callback_;
              expireTime := expireTime_; isActive := true;
              stopChan := make_chan 1 |} in
  (set_timers (<[id_ := t]> (timers s))
     (set_heap (heap s ++ [ {| obj := o; pc := AtNewTimer duration |} ]) s),
   t).

(** [func createTimer(id, duration, expireTime, callback)],
    run by a caller that no other goroutine interrupts. *)
Definition createTimer (id_ : string) (duration : Duration)
    (expireTime_ : Time) (callback_ : option Callback) (s : State)
    : option (State * (option nat * option string)) :=
  s1 ← match timers s !! id_ with
       | Some existingTimer => Stop existingTimer s
       | None => Some s
       end;
  let '(s2, t) := createTimer_install id_ duration expireTime_ callback_ s1 in
  Some (s2, (Some t, None)).

(** [func NewTimerWithDuration(id string, minutes int, callback func())] *)
Definition NewTimerWithDuration (id_ : string) (minutes : Z)
    (callback_ : option Callback) (s : State)
    : option (State * (option nat * option string)) :=
  if (minutes <=? 0)%Z then
    Some (s, (None, Some "duration must be greater than 0 minutes"))
  else if decide (callback_ = None) then
    Some (s, (None, Some "callback function cannot be nil"))
  else
    let duration := Duration_mul minutes Minute in
    let expireTime_ := Add (now s) duration in
    createTimer id_ duration expireTime_ callback_ s.

(** [func NewTimerWithDeadline(id string, deadline time.Time, callback func())].
    The two readings of the clock, in the check and in [time.Until], see
    the same instant. *)
Definition NewTimerWithDeadline (id_ : string) (deadline : Time)
    (callback_ : option Callback) (s : State)
    : option (State * (option nat * option string)) :=
  if Before deadline (now s) then
    Some (s, (None, Some "deadline must be in the future"))
  else if decide (callback_ = None) then
    Some (s, (None, Some "callback function cannot be nil"))
  else
    let duration := Until (now s) deadline in
    createTimer id_ duration deadline callback_ s.

(** [func GetTimer(id string)]: the handle and the found flag *)
Definition GetTimer (id_ : string) (s : State) : option nat * bool :=
  match timers s !! id_ with
  | Some t => (Some t, true)
  | None => (None, false)
  end.

(** [func StopTimer(id string) error] *)
Definition StopTimer (id_ : string) (s : State)
    : option (State * option string) :=
  match timers s !! id_ with
  | None => Some (s, Some ("timer not found: " +:+ id_))
  | Some t => s' ← Stop t s; Some (s', None)
  end.

(** [func GetAllActiveTimers() []string]; the order is that of the map
    iteration. *)
Definition GetAllActiveTimers (s : State) : list string :=
  (filter (λ kv : string * nat, IsActive kv.2 s = Some true)
          (map_to_list (timers s))).*1.

(** [func StopAllTimers()]: snapshot the registry, then stop each. *)
Definition StopAllTimers (s : State) : option State :=
  let timerList := (map_to_list (timers s)).*2 in
  foldl (λ acc t, s' ← acc; Stop t s') (Some s) timerList.

(** *** Interleavings

    A caller of [createTimer] that finds the id taken releases
    [timersMu], calls [existingTimer.Stop()] and takes [timersMu] again;
    other goroutines can run at both places.  The three pieces of
    [createTimer] are therefore also given one by one. *)

(** [createTimer] from its entry to the first [timersMu.Unlock()]: when
    the id is free the lock is kept until the Timer is registered. *)
Definition createTimer_enter (id_ : string) (duration : Duration)
    (expireTime_ : Time) (callback_ : option Callback) (s : State) : State :=
  match timers s !! id_ with
  | Some existingTimer =>
      set_creators
        (creators s ++
           [ {| c_id := id_; c_duration := duration;
                c_expireTime := expireTime_; c_callback := callback_;
                c_stage := AtStop existingTimer |} ]) s
  | None =>
      (createTimer_install id_ duration expireTime_ callback_ s).1
  end.

(** The next piece of the [i]-th caller inside [createTimer]. *)
Definition creator_step (i : nat) (s : State) : option State :=
  c ← creators s !! i;
  match c_stage c with
  | AtStop existingTimer =>
      s' ← Stop existingTimer s;
      Some (set_creators (<[i := with_stage AtInstall c]> (creators s')) s')
  | AtInstall =>
      let s' := (createTimer_install (c_id c) (c_duration c)
                   (c_expireTime c) (c_callback c) s).1 in
      Some (set_creators (delete i (creators s')) s')
  end.

(** What can happen next in the process.  [StopTimer] and [StopAllTimers]
    read the registry and then call [Stop] on the handles they found; a
    caller interrupted between the two is a later [CallStop]. *)
Inductive Action :=
| Tick (d : Z)                        (* [d] nanoseconds pass *)
| Go (t : nat) (b : Branch)           (* the goroutine of [t] moves *)
| Enter (id_ : string) (duration : Duration) (expireTime_ : Time)
        (callback_ : option Callback) (* somebody enters [createTimer] *)
| Resume (i : nat)                    (* a caller inside it goes on *)
| CallStop (t : nat)                  (* somebody calls [t.Stop()] *)
| CallStopTimer (id_ : string)
| CallStopAllTimers.

Definition exec (a : Action) (s : State) : option State :=
  match a with
  | Tick d => if (0 <=? d)%Z then Some (set_now (now s + d)%Z s) else None
  | Go t b => run_step t b s
  | Enter id_ duration expireTime_ callback_ =>
      Some (createTimer_enter id_ duration expireTime_ callback_ s)
  | Resume i => creator_step i s
  | CallStop t => Stop t s
  | CallStopTimer id_ => fst <$> StopTimer id_ s
  | CallStopAllTimers => StopAllTimers s
  end.

(** Running a schedule. *)
Fixpoint exec_all (sched : list Action) (s : State) : option State :=
  match sched with
  | [] => Some s
  | a :: rest => s' ← exec a s; exec_all rest s'
  end.

Definition step (s s' : State) : Prop := ∃ a, exec a s = Some s'.

Definition steps : State → State → Prop := rtc step.

(** *** Predicates used by the specification *)

(** Timer [t] has neither fired nor been stopped: its goroutine has not
    left the [select] and no stop request is in its channel. *)
Definition waiting_cell (c : Cell) : bool :=
  match pc c with
  | AtNewTimer _ | AtSelect => bool_decide (buf (stopChan (obj c)) = [])
  | _ => false
  end.

Definition waiting (t : nat) (s : State) : bool :=
  match heap s !! t with
  | Some c => waiting_cell c
  | None => false
  end.

(** Every registered handle is an allocated Timer. *)
Definition registry_ok (s : State) : Prop :=
  map_Forall (λ _ t, t < length (heap s))%nat (timers s).

(** Nothing is still at work on [id_]: every goroutine of a Timer with
    that id has returned, and no caller is inside [createTimer] for it. *)
Definition quiet (id_ : string) (s : State) : Prop :=
  Forall (λ c, id (obj c) = id_ → pc c = Exited) (heap s)
  ∧ Forall (λ cr, c_id cr ≠ id_) (creators s).

#[global] Instance registry_ok_dec s : Decision (registry_ok s).
Proof. unfold registry_ok. apply _. Defined.

#[global] Instance quiet_dec id_ s : Decision (quiet id_ s).
Proof. unfold quiet. apply _. Defined.

(** The facts that keep [id_] listed while Timer [t] waits: the Timer is
    active and registered, every other goroutine of that id has returned,
    and whoever is inside [createTimer] for that id has yet to stop [t]. *)
Definition listed_facts (id_ : string) (t : nat) (c : Cell) (s : State)
    : Prop :=
  isActive (obj c) = true
  ∧ timers s !! id_ = Some t
  ∧ (∀ t' c', t' ≠ t → heap s !! t' = Some c' → id (obj c') = id_ →
              pc c' = Exited)
  ∧ (∀ i cr, creators s !! i = Some cr → c_id cr = id_ →
             c_stage cr = AtStop t).

(** The invariant of a Timer [t] of id [id_]. *)
Definition stays_listed (id_ : string) (t : nat) (s : State) : Prop :=
  ∃ c, heap s !! t = Some c
       ∧ id (obj c) = id_
       ∧ (0 < cap (stopChan (obj c)))%nat
       ∧ (waiting_cell c = true → listed_facts id_ t c s).

(** [t.Stop()] called [n] times in a row. *)
Fixpoint Stop_times (n : nat) (t : nat) (s : State) : option State :=
  match n with
  | O => Some s
  | S n' => s' ← Stop t s; Stop_times n' t s'
  end.

(** The process at noon of 1 January 2026 (UTC), before any Timer. *)
Definition at_noon : State := set_now 1767268800000000000%Z init.

(** *** Some executions

    The state a call returns, and the state a schedule leads to. *)
Definition state_of {A} (r : option (State * A)) : State :=
  match r with Some (s, _) => s | None => init end.

Definition after (sched : list Action) (s : State) : State :=
  default init (exec_all sched s).

(** A Timer whose callback panics is created and expires. *)
Definition panicking_created : State :=
  state_of (NewTimerWithDuration "reset" 1 (Some (Panics "boom")) at_noon).
Definition expire_0 : list Action :=
  [Go 0 TimerC; Tick Minute; Go 0 TimerC; Go 0 TimerC; Go 0 TimerC].
Definition panicking_expired : State := after expire_0 panicking_created.

(** A Timer is created, its goroutine reaches the [select], and a second
    Timer is created under the same id; then the first goroutine takes
    the stop request. *)
Definition first_created : State :=
  state_of (NewTimerWithDuration "reset" 10 (Some Returns) at_noon).
Definition first_selecting : State := after [Go 0 TimerC] first_created.
Definition second_created : State :=
  state_of (NewTimerWithDuration "reset" 10 (Some Returns) first_selecting).
Definition cancel_0 : list Action := [Go 0 StopC; Go 0 StopC; Go 0 StopC].
Definition first_cancelled : State := after cancel_0 second_created.

(** The same, but the second Timer is created when the first is due and
    its goroutine has taken the expiry case of the [select] and has not
    yet marked the Timer inactive. *)
Definition first_due : State :=
  after [Go 0 TimerC; Tick (10 * Minute); Go 0 TimerC] first_created.
Definition second_created_late : State :=
  state_of (NewTimerWithDuration "reset" 10 (Some Returns) first_due).
Definition fire_0 : list Action := [Go 0 TimerC; Go 0 TimerC].
Definition first_fired : State := after fire_0 second_created_late.

(** A Timer with a stop request in its channel. *)
Definition stop_pending : State := after [CallStop 0] first_created.

End timer.

(** ** Package [adguardapi], file auth.go *)

Module adguardapi.

(** A Go pair [(value, error)] with exactly one side set. *)
Inductive result (A : Type) :=
| ok (a : A)
| err (e : string).
Arguments ok {A} a.
Arguments err {A} e.

(** How a call ends: it returns, or a panic unwinds through it. *)
Inductive Completion (A : Type) :=
| Returned (a : A)
| Panicked (v : string).
Arguments Returned {A} a.
Arguments Panicked {A} v.

(** [type AuthCredentials struct] *)
Record AuthCredentials := mkAuthCredentials {
  Name : string;
  Password : string;
}.

(** [http.Cookie], the two fields auth.go reads. *)
Record Cookie := mkCookie { cookie_Name : string; cookie_Value : string }.

(** [http.Response]: the fields auth.go reads; [Body] is what
    [io.ReadAll(resp.Body)] yields. *)
Record Response := mkResponse {
  StatusCode : Z;
  Status : string;
  Body : result string;
}.

(** The packages auth.go imports and the network behind them.  Nothing
    is assumed about them: every call that can return an error may do
    so. *)
Class World := {
  URL : Type;                                  (* the target of a [*url.URL] *)
  url_Parse : string → result URL;             (* [url.Parse] *)
  Jar : Type;                                  (* the state of a cookie jar *)
  cookiejar_New : result Jar;                  (* [cookiejar.New(nil)] *)
  jar_Cookies : Jar → URL → list Cookie;       (* [jar.Cookies(u)], [u] not nil *)
  json_Marshal : AuthCredentials → result string;
  Net : Type;                                  (* everything outside the process *)
  Do_ : string → URL → list (string * string) → option string →
        Jar → Net → result Response * Jar * Net;
                                               (* one exchange of [client.Do] *)
}.

Section Client.

Context `{W : World}.

(** [http.Request] *)
Record Request := mkRequest {
  Method : string;
  ReqURL : URL;
  Header : list (string * string);
  ReqBody : option string;
}.

(** [http.NewRequest] with a valid method: it fails when the URL does
    not parse, with the error of [url.Parse]. *)
Definition http_NewRequest (method url : string) (body : option string)
    : result Request :=
  match url_Parse url with
  | ok u => ok {| Method := method; ReqURL := u; Header := [];
                  ReqBody := body |}
  | err e => err e
  end.

(** [req.Header.Set(key, value)] *)
Definition Header_Set (key value : string) (req : Request) : Request :=
  {| Method := Method req; ReqURL := ReqURL req;
     Header := (key, value) ::
               filter (λ kv : string * string, kv.1 ≠ key) (Header req);
     ReqBody := ReqBody req |}.

(** What the package has done, newest first. *)
Inductive Event :=
| EvDo (req : Request)                        (* [httpClient.Do(req)] *)
| EvAuthenticate (baseURL username password : string).
                                              (* [Authenticate] was entered *)

(** The package-level variables, the world, and the record of calls. *)
Record State := mkState {
  httpClient : option Jar;   (* nil, or the client with its cookie jar *)
  authBaseURL : string;
  authUsername : string;
  authPassword : string;
  net : Net;
  trace : list Event;
}.

Definition set_httpClient (c : option Jar) (s : State) : State :=
  {| httpClient := c; authBaseURL := authBaseURL s;
     authUsername := authUsername s; authPassword := authPassword s;
     net := net s; trace := trace s |}.

Definition set_net (n : Net) (s : State) : State :=
  {| httpClient := httpClient s; authBaseURL := authBaseURL s;
     authUsername := authUsername s; authPassword := authPassword s;
     net := n; trace := trace s |}.

Definition set_credentials (b u p : string) (s : State) : State :=
  {| httpClient := httpClient s; authBaseURL := b;
     authUsername := u; authPassword := p;
     net := net s; trace := trace s |}.

Definition add_event (e : Event) (s : State) : State :=
  {| httpClient := httpClient s; authBaseURL := authBaseURL s;
     authUsername := authUsername s; authPassword := authPassword s;
     net := net s; trace := e :: trace s |}.

(** The stored credential triple. *)
Definition credentials (s : State) : string * string * string :=
  (authBaseURL s, authUsername s, authPassword s).

(** [func init()]: the triple is read from the environment. *)
Definition init (getenv : string → string) (n : Net) : State :=
  {| httpClient := None;
     authBaseURL := getenv "authBaseURL";
     authUsername := getenv "authUsername";
     authPassword := getenv "authPassword";
     net := n; trace := [] |}.

(** Code that reads and writes the package state and may panic. *)
Definition M (A : Type) : Type := State → State * Completion A.

Definition ret {A} (a : A) : M A := λ s, (s, Returned a).

Definition bind {A B} (m : M A) (k : A → M B) : M B :=
  λ s, match m s with
       | (s', Returned a) => k a s'
       | (s', Panicked v) => (s', Panicked v)
       end.

Definition get : M State := λ s, (s, Returned s).
Definition modify (f : State → State) : M unit := λ s, (f s, Returned tt).
Definition panic {A} (v : string) : M A := λ s, (s, Panicked v).

Notation "'do' x <- m ; k" := (bind m (λ x, k))
  (at level 10, x name, m at level 100, k at level 200,
   format "'[v' 'do'  x  <-  m ; '/' k ']'").
Notation "'do_' m ; k" := (bind m (λ _, k))
  (at level 10, m at level 100, k at level 200,
   format "'[v' 'do_'  m ; '/' k ']'").

(** [func InitHTTPClient() error] *)
Definition InitHTTPClient : M (option string) :=
  match cookiejar_New with
  | err e => ret (Some e)
  | ok jar => do_ modify (set_httpClient (Some jar)); ret None
  end.

(** [httpClient.Do(req)]: through a nil [httpClient] it panics. *)
Definition httpClient_Do (req : Request) : M (result Response) :=
  do s <- get;
  match httpClient s with
  | None => panic "nil pointer dereference"
  | Some jar =>
      let '(r, jar', n') :=
        Do_ (Method req) (ReqURL req) (Header req) (ReqBody req)
            jar (net s) in
      do_ modify (λ s, add_event (EvDo req)
                         (set_net n' (set_httpClient (Some jar') s)));
      ret r
  end.

(** [httpClient.Jar.Cookies(parsedURL)] where
    [parsedURL, _ := url.Parse(baseURL)]: the error of [url.Parse] is
    dropped, and the jar dereferences the nil URL it gets then. *)
Definition jar_Cookies_of (baseURL : string) : M (list Cookie) :=
  do s <- get;
  match httpClient s, url_Parse baseURL with
  | Some jar, ok parsedURL => ret (jar_Cookies jar parsedURL)
  | _, _ => panic "nil pointer dereference"
  end.

(** [func Authenticate(baseURL, username, password string) error] *)
Definition Authenticate (baseURL username password : string)
    : M (option string) :=
  do_ modify (add_event (EvAuthenticate baseURL username password));
  do s <- get;
  do e <- (match httpClient s with
           | None => InitHTTPClient
           | Some _ => ret None
           end);
  match e with
  | Some e => ret (Some e)
  | None =>
  let credentials := {| Name := username; Password := password |} in
  match json_Marshal credentials with
  | err e => ret (Some e)
  | ok jsonData =>
  let loginURL := baseURL +:+ "/control/login" in
  match http_NewRequest "POST" loginURL (Some jsonData) with
  | err e => ret (Some e)
  | ok req =>
  let req := Header_Set "Content-Type" "application/json" req in
  let req := Header_Set "Accept" "application/json, text/plain, */*" req in
  let req := Header_Set "User-Agent"
    "Mozilla/5.0 (Windows NT 10.0; Win64; x64) AppleWebKit/537.36" req in
  do r <- httpClient_Do req;
  match r with
  | err e => ret (Some e)
  | ok resp =>
  if negb (StatusCode resp =? 200)%Z then
    ret (Some ("authentication failed with status: " +:+ Status resp))
  else
  match Body resp with
  | err e => ret (Some e)
  | ok body =>
  do cookies <- jar_Cookies_of baseURL;
  if (length cookies =? 0)%nat then
    ret (Some "no cookies received from authentication")
  else
  do_ modify (set_credentials baseURL username password);
  ret None
  end end end end end.

(** [func isAuthError(statusCode int) bool] *)
Definition isAuthError (statusCode : Z) : bool :=
  (statusCode =? 401)%Z || (statusCode =? 403)%Z.

(** [func canReauthenticate() bool] *)
Definition canReauthenticate (s : State) : bool :=
  negb (String.eqb (authBaseURL s) "") &&
  negb (String.eqb (authUsername s) "") &&
  negb (String.eqb (authPassword s) "").

(** [func DoAuthenticatedRequest(req *http.Request)], returning the
    response and the error.  Closing the body of the refused response
    changes nothing that is modelled. *)
Definition DoAuthenticatedRequest (req : Request)
    : M (option Response * option string) :=
  do s <- get;
  do e <- (match httpClient s with
           | None => InitHTTPClient
           | Some _ => ret None
           end);
  match e with
  | Some e => ret (None, Some e)
  | None =>
  do r <- httpClient_Do req;
  match r with
  | err e => ret (None, Some e)
  | ok resp =>
  if isAuthError (StatusCode resp) then
    do s <- get;
    if negb (canReauthenticate s) then
      ret (None,
           Some "authentication required but no credentials available")
    else
      do e <- Authenticate (authBaseURL s) (authUsername s)
                           (authPassword s);
      match e with
      | Some e => ret (None, Some e)
      | None =>
          do r <- httpClient_Do req;
          match r with
          | err e => ret (None, Some e)
          | ok resp => ret (Some resp, None)
          end
      end
  else ret (Some resp, None)
  end end.

(** The client that [Authenticate] and [DoAuthenticatedRequest] use
    from state [s]: the one in place, or a fresh one. *)
Definition client_of (s : State) : option Jar :=
  match httpClient s with
  | Some jar => Some jar
  | None => match cookiejar_New with ok jar => Some jar | err _ => None end
  end.

(** One [httpClient.Do(req)] seen from outside. *)
Definition exchange (req : Request) (jar : Jar) (n : Net)
    : result Response * Jar * Net :=
  Do_ (Method req) (ReqURL req) (Header req) (ReqBody req) jar n.

(** The state after an exchange. *)
Definition exchanged (req : Request) (jar : Jar) (n : Net) (s : State)
    : State :=
  add_event (EvDo req) (set_net n (set_httpClient (Some jar) s)).

(** The login request that [Authenticate] builds. *)
Definition login_request (baseURL username password : string)
    : option Request :=
  match json_Marshal {| Name := username; Password := password |} with
  | err _ => None
  | ok jsonData =>
      match http_NewRequest "POST" (baseURL +:+ "/control/login")
              (Some jsonData) with
      | err _ => None
      | ok req =>
          Some (Header_Set "User-Agent"
                  "Mozilla/5.0 (Windows NT 10.0; Win64; x64) AppleWebKit/537.36"
                  (Header_Set "Accept" "application/json, text/plain, */*"
                     (Header_Set "Content-Type" "application/json" req)))
      end
  end.

Definition is_EvAuthenticate (e : Event) : bool :=
  match e with EvAuthenticate _ _ _ => true | EvDo _ => false end.

(** How often [Authenticate] was entered. *)
Definition count_Authenticate (tr : list Event) : nat :=
  length (filter (λ e, is_EvAuthenticate e = true) tr).

End Client.

(** A world to run the client in: the server answers from a script, each
    answer with the cookies it sets; a URL is its text, the jar is the list
    of cookies received, and the JSON text is a stand-in. *)
Definition Script : Type := list (result Response * list Cookie).

Definition scripted : World :=
  {| URL := string;
     url_Parse := λ s, ok s;
     Jar := list Cookie;
     cookiejar_New := ok [];
     jar_Cookies := λ jar _, jar;
     json_Marshal := λ c,
       ok ("{name:" +:+ Name c +:+ ",password:" +:+ Password c +:+ "}");
     Net := Script;
     Do_ := λ _ _ _ _ jar n,
       match n with
       | [] => (err "connection refused", jar, [])
       | (r, cs) :: rest => (r, jar ++ cs, rest)
       end |}.

(** *** Some runs against the scripted world *)

Definition env_set (key : string) : string :=
  if String.eqb key "authBaseURL" then "http://adguard.lan"
  else if String.eqb key "authUsername" then "admin"
  else if String.eqb key "authPassword" then "secret"
  else "".

Definition env_unset (key : string) : string := "".

Definition resp_200 : Response :=
  {| StatusCode := 200; Status := "200 OK"; Body := ok "OK" |}.
Definition resp_401 : Response :=
  {| StatusCode := 401; Status := "401 Unauthorized"; Body := ok "" |}.
Definition resp_403 : Response :=
  {| StatusCode := 403; Status := "403 Forbidden"; Body := ok "" |}.

Definition session : Cookie :=
  {| cookie_Name := "agh_session"; cookie_Value := "0123456789abcdef" |}.

Definition get_blocked : @Request scripted :=
  @mkRequest scripted "GET"
    "http://adguard.lan/control/blocked_services/get" [] None.

(** The session has expired; the login succeeds; the resent request is
    refused again. *)
Definition expired_twice : @State scripted :=
  @init scripted env_set [(ok resp_401, []); (ok resp_200, [session]);
                (ok resp_403, [])].

(** The login answers 200 but sets no cookie. *)
Definition login_without_cookie : @State scripted :=
  @init scripted env_set [(ok resp_200, [])].

(** No credentials anywhere, and the request is refused. *)
Definition refused_without_credentials : @State scripted :=
  @init scripted env_unset [(ok resp_403, []); (ok resp_200, [session])].

End adguardapi.

(** ** Runs of the timer package: changes of the state, and what they
    keep *)

Module timer_runs.
Import time timer.

#[global] Instance Callback_eq_dec : EqDecision Callback.
Proof. solve_decision. Defined.

#[global] Instance Event_eq_dec : EqDecision Event.
Proof. solve_decision. Defined.

(** How often the callback of Timer [t] has been called. *)
Definition invocations (t : nat) (s : State) : nat :=
  length (filter (λ e, e = Invoked t) (events s)).

(** The smallest changes of the state: the clock advances, a goroutine
    moves, a stop request is posted, a Timer is registered, or the list of
    callers inside [createTimer] changes. *)
Inductive prim (s : State) : State → Prop :=
| prim_tick d : (0 ≤ d)%Z → prim s (set_now (now s + d)%Z s)
| prim_go t b s' : run_step t b s = Some s' → prim s s'
| prim_stop t s' : Stop t s = Some s' → prim s s'
| prim_install id_ d e cb : prim s (createTimer_install id_ d e cb s).1
| prim_creators cs : prim s (set_creators cs s).

(** The registry maps every id to a Timer of that id. *)
Definition registry_ids (s : State) : Prop :=
  map_Forall (λ k t, GetID t s = Some k) (timers s).

(** A callback is called at most once, and only by a goroutine that is
    then past the call. *)
Definition called_once (s : State) : Prop :=
  ∀ t, (invocations t s ≤ 1)%nat
       ∧ (Invoked t ∈ events s →
          ∃ c, heap s !! t = Some c ∧ (pc c = ExpDelete ∨ pc c = Exited)).

(** The goroutine of [t] is on the cancellation path, or has returned,
    and the callback of [t] has not been called. *)
Definition cancelled (t : nat) (s : State) : Prop :=
  (Invoked t ∉ events s)
  ∧ ∃ c, heap s !! t = Some c
         ∧ (pc c = StopMark ∨ pc c = StopDelete ∨ pc c = Exited).

(** The callback of [t] is not called before the instant [E]. *)
Definition not_before (E : Time) (t : nat) (s : State) : Prop :=
  ∃ c, heap s !! t = Some c ∧
       match pc c with
       | AtNewTimer d => (E ≤ now s + d)%Z ∧ Invoked t ∉ events s
       | AtSelect =>
           (∃ at_, timer (obj c) = Some at_ ∧ (E ≤ at_)%Z)
           ∧ Invoked t ∉ events s
       | StopMark | StopDelete => Invoked t ∉ events s
       | ExpMark | ExpCall => (E ≤ now s)%Z ∧ Invoked t ∉ events s
       | ExpDelete => (E ≤ now s)%Z
       | Exited => Invoked t ∈ events s → (E ≤ now s)%Z
       end.

(** What a handle shows of its Timer can only change one way: the id,
    the expire time, the callback and the size of the channel stay, an
    inactive Timer stays inactive, and a goroutine that has returned stays
    so. *)
Definition handle_le (c c' : Cell) : Prop :=
  id (obj c') = id (obj c) ∧ expireTime (obj c') = expireTime (obj c)
  ∧ callback (obj c') = callback (obj c)
  ∧ cap (stopChan (obj c')) = cap (stopChan (obj c))
  ∧ (isActive (obj c) = false → isActive (obj c') = false)
  ∧ (pc c = Exited → pc c' = Exited).

(** A stop request is waiting in the channel of Timer [t]. *)
Definition stop_requested (t : nat) (s : State) : bool :=
  match heap s !! t with
  | Some c => bool_decide (buf (stopChan (obj c)) ≠ [])
  | None => false
  end.

(** Every stop channel has the one slot [createTimer] gives it. *)
Definition chans_ok (s : State) : Prop :=
  Forall (λ c, cap (stopChan (obj c)) = 1%nat) (heap s).

(** The state differs from [s] in stop channels only, and no request has
    been taken out. *)
Definition only_requests_added (s s' : State) : Prop :=
  now s' = now s ∧ timers s' = timers s ∧ creators s' = creators s
  ∧ events s' = events s
  ∧ length (heap s') = length (heap s)
  ∧ ∀ t c, heap s !! t = Some c →
      ∃ c', heap s' !! t = Some c' ∧ pc c' = pc c
            ∧ with_stopChan (stopChan (obj c)) (obj c') = obj c
            ∧ cap (stopChan (obj c')) = cap (stopChan (obj c))
            ∧ (buf (stopChan (obj c)) ≠ [] → buf (stopChan (obj c')) ≠ []).


(** The goroutine of a Timer left alone: it starts the runtime timer,
    the time [d] passes, it takes the expiry case, marks the Timer
    inactive, calls the callback and deletes the id. *)
Definition left_alone (t : nat) (d : Duration) : list Action :=
  [Go t TimerC; Tick d; Go t TimerC; Go t TimerC; Go t TimerC; Go t TimerC].

(** The goroutine of [t] takes the stop request and goes to its end. *)
Definition take_request (t : nat) : list Action :=
  [Go t StopC; Go t StopC; Go t StopC].

(** *** More executions *)

(** From the start of the process to [first_created]. *)
Definition to_first_created : list Action :=
  [Tick 1767268800000000000%Z;
   Enter "reset" (10 * Minute)%Z (1767268800000000000 + 10 * Minute)%Z
     (Some Returns)].

(** The first Timer expires and its callback is called. *)
Definition first_expired : State :=
  after (left_alone 0 (10 * Minute)%Z) first_created.

(** The goroutine of the first Timer has taken the stop request, and
    then has marked the Timer inactive. *)
Definition first_stopping : State := after [Go 0 StopC] second_created.
Definition first_marked : State :=
  after [Go 0 StopC; Go 0 StopC] second_created.

End timer_runs.

(** ** Package [adguardapi], file auth.go: the rest, and its calls *)

Module adguardapi_client.
Import adguardapi.

Notation "'do' x <- m ; k" := (bind m (λ x, k))
  (at level 10, x name, m at level 100, k at level 200,
   format "'[v' 'do'  x  <-  m ; '/' k ']'").
Notation "'do_' m ; k" := (bind m (λ _, k))
  (at level 10, m at level 100, k at level 200,
   format "'[v' 'do_'  m ; '/' k ']'").

Section Client.
Context `{W : World}.

(** [func GetHTTPClient()], returning the client and the error *)
Definition GetHTTPClient : M (option Jar * option string) :=
  do s <- get;
  match httpClient s with
  | None =>
      ret (None,
           Some "HTTP client not initialized. Call InitHTTPClient or Authenticate first")
  | Some jar => ret (Some jar, None)
  end.

Definition is_EvDo (e : Event) : bool :=
  match e with EvDo _ => true | EvAuthenticate _ _ _ => false end.

(** How many requests went through [httpClient.Do]. *)
Definition count_Do (tr : list Event) : nat :=
  length (filter (λ e, is_EvDo e = true) tr).

(** The exported functions of auth.go, as calls. *)
Inductive Call :=
| CallInitHTTPClient
| CallAuthenticate (baseURL username password : string)
| CallGetHTTPClient
| CallDoAuthenticatedRequest (req : Request).

(** The state a call leaves, whether it returns or panics. *)
Definition call (c : Call) (s : State) : State :=
  match c with
  | CallInitHTTPClient => (InitHTTPClient s).1
  | CallAuthenticate b u p => (Authenticate b u p s).1
  | CallGetHTTPClient => (GetHTTPClient s).1
  | CallDoAuthenticatedRequest req => (DoAuthenticatedRequest req s).1
  end.

Definition calls (cs : list Call) (s : State) : State :=
  foldl (λ s c, call c s) s cs.

(** The call returns without an error. *)
Definition succeeds (c : Call) (s : State) : Prop :=
  match c with
  | CallInitHTTPClient => (InitHTTPClient s).2 = Returned None
  | CallAuthenticate b u p => (Authenticate b u p s).2 = Returned None
  | CallGetHTTPClient => ∃ jar, (GetHTTPClient s).2 = Returned (Some jar, None)
  | CallDoAuthenticatedRequest req =>
      ∃ resp, (DoAuthenticatedRequest req s).2 = Returned (Some resp, None)
  end.

End Client.

(** The session is still good: the request is answered with 200. *)
Definition session_valid : @State scripted :=
  @init scripted env_set [(ok resp_200, [])].

(** Nothing in the environment; the login succeeds, the session then
    expires, and the second login succeeds. *)
Definition login_then_expired : @State scripted :=
  @init scripted env_unset
    [(ok resp_200, [session]); (ok resp_401, []); (ok resp_200, [session]);
     (ok resp_200, [])].

(** A world in which [cookiejar.New] fails. *)
Definition no_jar : World :=
  {| URL := string;
     url_Parse := λ s, ok s;
     Jar := list Cookie;
     cookiejar_New := err "cookiejar: out of memory";
     jar_Cookies := λ jar _, jar;
     json_Marshal := λ c, ok "{}";
     Net := Script;
     Do_ := λ _ _ _ _ jar n,
       match n with
       | [] => (err "connection refused", jar, [])
       | (r, cs) :: rest => (r, jar ++ cs, rest)
       end |}.

End adguardapi_client.

(** ** Package [strings] of the Go library, as adguardapi.go uses it *)

Module go_strings.

(** [strings.Split(s, sep)] for a separator of one byte: the pieces of
    [s] between the separators, one more than there are separators. *)
Fixpoint Split (s : string) (sep : Ascii.ascii) : list string :=
  match s with
  | EmptyString => [EmptyString]
  | String c rest =>
      if Ascii.eqb c sep then EmptyString :: Split rest sep
      else match Split rest sep with
           | piece :: pieces => String c piece :: pieces
           | [] => [String c EmptyString]
           end
  end.

(** The table [asciiSpace]: tab, line feed, vertical tab, form feed,
    carriage return and space. *)
Definition asciiSpace (c : Ascii.ascii) : bool :=
  let n := Ascii.nat_of_ascii c in
  (Nat.leb 9 n && Nat.leb n 13) || Nat.eqb n 32.

(** [c >= utf8.RuneSelf] *)
Definition beyond_ascii (c : Ascii.ascii) : bool := Nat.leb 128 (Ascii.nat_of_ascii c).

(** The part of [strings.TrimSpace] that looks at code points beyond
    ASCII; nothing is assumed about it. *)
Class Unicode := {
  TrimFunc_IsSpace : string → string;       (* [TrimFunc(s, unicode.IsSpace)] *)
  TrimRightFunc_IsSpace : string → string;  (* [TrimRightFunc(s, unicode.IsSpace)] *)
}.

Section TrimSpace.
Context `{U : Unicode}.

(** The second loop of [TrimSpace], on the bytes from the last one
    down. *)
Fixpoint trim_end (reversed : list Ascii.ascii) : string :=
  match reversed with
  | [] => EmptyString
  | c :: before =>
      if beyond_ascii c then
        TrimRightFunc_IsSpace (String.string_of_list_ascii (rev reversed))
      else if asciiSpace c then trim_end before
      else String.string_of_list_ascii (rev reversed)
  end.

(** [strings.TrimSpace(s)]: the ASCII white space at both ends is cut
    off byte by byte; at the first byte beyond ASCII the rest is left to
    the Unicode-aware functions. *)
Fixpoint TrimSpace (s : string) : string :=
  match s with
  | EmptyString => EmptyString
  | String c rest =>
      if beyond_ascii c then TrimFunc_IsSpace s
      else if asciiSpace c then TrimSpace rest
      else trim_end (rev (String.list_ascii_of_string s))
  end.

End TrimSpace.

(** A Unicode part that leaves its argument alone, to run examples in
    ASCII. *)
Definition ascii_only : Unicode :=
  {| TrimFunc_IsSpace := λ s, s; TrimRightFunc_IsSpace := λ s, s |}.

End go_strings.

(** ** Package [model] *)

Module model.

(** [type Schedule struct] *)
Record Schedule := mkSchedule { TimeZone : string }.

(** [type ServiceConfig struct]; the nil slice is [None]. *)
Record ServiceConfig := mkServiceConfig {
  IDs : option (list string);
  Schedule_ : Schedule;
}.

(** [model.ServiceConfig{}] *)
Definition zero : ServiceConfig :=
  {| IDs := None; Schedule_ := {| TimeZone := "" |} |}.

End model.

(** ** Package [adguardapi], file adguardapi.go

    The calls of the logger write to the log and are left out. *)

Module blocked_services.
Import adguardapi adguardapi_client go_strings model.

(** [encoding/json] on a [ServiceConfig]; a value and a pointer to it
    marshal alike, and a nil pointer marshals too. *)
Class Codec := {
  json_Marshal_config : option ServiceConfig → result string;
  json_Unmarshal_config : string → result ServiceConfig;
}.

Section Services.
Context `{W : World} `{C : Codec} `{U : Unicode}.

(** What [GetBlockedServices] does with the answer. *)
Definition GetBlockedServices : M (ServiceConfig * option string) :=
  do s <- get;
  let apiURL := authBaseURL s +:+ "/control/blocked_services/get" in
  match http_NewRequest "GET" apiURL None with
  | err e => ret (zero, Some e)
  | ok req =>
  let req := Header_Set "Accept" "application/json, text/plain, */*" req in
  let req := Header_Set "User-Agent"
    "Mozilla/5.0 (Windows NT 10.0; Win64; x64) AppleWebKit/537.36" req in
  do r <- DoAuthenticatedRequest req;
  match r with
  | (_, Some e) => ret (zero, Some e)
  | (None, None) => panic "nil pointer dereference"
  | (Some resp, None) =>
  if negb (StatusCode resp =? 200)%Z then
    ret (zero, Some ("request failed with status: " +:+ Status resp))
  else
  match Body resp with
  | err e => ret (zero, Some e)
  | ok body =>
  match json_Unmarshal_config body with
  | err e => ret (zero, Some e)
  | ok serviceConfig => ret (serviceConfig, None)
  end end end end.

(** [func UpdateBlockedServices(serviceConfig *model.ServiceConfig) error] *)
Definition UpdateBlockedServices (serviceConfig : option ServiceConfig)
    : M (option string) :=
  match json_Marshal_config serviceConfig with
  | err e => ret (Some e)
  | ok jsonData =>
  do s <- get;
  let apiURL := authBaseURL s +:+ "/control/blocked_services/update" in
  match http_NewRequest "PUT" apiURL (Some jsonData) with
  | err e => ret (Some e)
  | ok req =>
  let req := Header_Set "Content-Type" "application/json" req in
  let req := Header_Set "Accept" "application/json, text/plain, */*" req in
  let req := Header_Set "User-Agent"
    "Mozilla/5.0 (Windows NT 10.0; Win64; x64) AppleWebKit/537.36" req in
  do r <- DoAuthenticatedRequest req;
  match r with
  | (_, Some e) => ret (Some e)
  | (None, None) => panic "nil pointer dereference"
  | (Some resp, None) =>
  if negb (StatusCode resp =? 200)%Z then
    ret (Some ("request failed with status: " +:+ Status resp))
  else
  match Body resp with
  | err e => ret (Some e)
  | ok body => ret None
  end end end end.

(** The list [ResetBlockedServices] starts from. *)
Definition builtinIDs : list string :=
  [
    "tinder"; "plenty_of_fish"; "onlyfans"; "playstation"; "nintendo";
    "tiktok"; "aliexpress"; "500px"; "activision_blizzard"; "battle_net";
    "betway"; "blaze"; "box"; "crunchyroll"; "directvgo"; "disneyplus";
    "ebay"; "espn"; "flickr"; "iheartradio"; "iqiyi"; "kook"; "line";
    "mercado_libre"; "ok"; "origin"; "qq"; "riot_games"; "signal"; "tidal";
    "tumblr"; "ubisoft"; "vimeo"; "wargaming"; "xiaohongshu"; "zhihu";
    "yy"; "weibo"; "wechat"; "voot"; "viber"; "twitch"; "wizz"; "shein";
    "paramountplus"; "pluto_tv"; "mail_ru"; "kakaotalk"; "imgur"; "hulu";
    "globoplay"; "dailymotion"; "clubhouse"; "canais_globo"; "betano";
    "bigo_live"; "amino"; "9gag"; "betfair"; "bilibili"; "bluesky";
    "claro"; "coolapk"; "deezer"; "kik"; "leagueoflegends";
    "lionsgateplus"; "mastodon"; "rockstar_games"; "temu"; "telegram";
    "soundcloud"; "samsung_tv_plus"; "looke"; "hbomax"; "discoveryplus";
    "gog"; "nebula"; "facebook"; "privacy"; "snapchat"; "youtube";
    "roblox"; "spotify_video"; "spotify"
  ].

(** The first part of [ResetBlockedServices]: the built-in list, or the
    pieces of the environment variable, each one trimmed. *)
Definition defaultIDs (getenv : string → string) : list string :=
  let envIDs := getenv "defaultBlockedServices" in
  if negb (String.eqb envIDs "") then
    TrimSpace <$> Split envIDs ","%char
  else builtinIDs.

Definition defaultConfig (getenv : string → string) : ServiceConfig :=
  {| Schedule_ := {| TimeZone := "America/Chicago" |};
     IDs := Some (defaultIDs getenv) |}.

(** [func ResetBlockedServices() error] *)
Definition ResetBlockedServices (getenv : string → string)
    : M (option string) :=
  let defaultConfig := defaultConfig getenv in
  match json_Marshal_config (Some defaultConfig) with
  | err e => ret (Some e)
  | ok jsonData =>
  do s <- get;
  let apiURL := authBaseURL s +:+ "/control/blocked_services/update" in
  match http_NewRequest "PUT" apiURL (Some jsonData) with
  | err e => ret (Some e)
  | ok req =>
  let req := Header_Set "Content-Type" "application/json" req in
  let req := Header_Set "Accept" "application/json, text/plain, */*" req in
  let req := Header_Set "User-Agent"
    "Mozilla/5.0 (Windows NT 10.0; Win64; x64) AppleWebKit/537.36" req in
  do r <- DoAuthenticatedRequest req;
  match r with
  | (_, Some e) => ret (Some e)
  | (None, None) => panic "nil pointer dereference"
  | (Some resp, None) =>
  if negb (StatusCode resp =? 200)%Z then
    ret (Some ("request failed with status: " +:+ Status resp))
  else
  match Body resp with
  | err e => ret (Some e)
  | ok body => ret None
  end end end end.

(** The request [GetBlockedServices] sends. *)
Definition get_request (s : State) : option Request :=
  match http_NewRequest "GET"
          (authBaseURL s +:+ "/control/blocked_services/get") None with
  | err _ => None
  | ok req =>
      Some (Header_Set "User-Agent"
              "Mozilla/5.0 (Windows NT 10.0; Win64; x64) AppleWebKit/537.36"
              (Header_Set "Accept" "application/json, text/plain, */*" req))
  end.

(** The request [UpdateBlockedServices] sends. *)
Definition update_request (serviceConfig : option ServiceConfig) (s : State)
    : option Request :=
  match json_Marshal_config serviceConfig with
  | err _ => None
  | ok jsonData =>
      match http_NewRequest "PUT"
              (authBaseURL s +:+ "/control/blocked_services/update")
              (Some jsonData) with
      | err _ => None
      | ok req =>
          Some (Header_Set "User-Agent"
                  "Mozilla/5.0 (Windows NT 10.0; Win64; x64) AppleWebKit/537.36"
                  (Header_Set "Accept" "application/json, text/plain, */*"
                     (Header_Set "Content-Type" "application/json" req)))
      end
  end.

End Services.

(** ASCII white space only. *)
Definition blank (s : string) : Prop :=
  Forall (λ c, asciiSpace c = true) (String.list_ascii_of_string s).

(** An id as one writes it: ASCII, no white space, no comma. *)
Definition plain (s : string) : Prop :=
  Forall (λ c, beyond_ascii c = false ∧ asciiSpace c = false
               ∧ c ≠ ","%char) (String.list_ascii_of_string s).

(** An id with white space around it. *)
Definition padded (x : string * string * string) : string :=
  x.1.1 +:+ x.1.2 +:+ x.2.

(** An environment that names three services. *)
Definition env_ids (key : string) : string :=
  if String.eqb key "defaultBlockedServices" then "tiktok, youtube ,roblox"
  else "".

End blocked_services.

(** ** Package [logger] *)

Module logger.

(** [var loglevelstr] *)
Definition loglevelstr : list string := ["Err"; "Warn"; "Inf"; "Deb"].

(** The constants of the [iota] block. *)
Definition Err : Z := 0.
Definition Warn : Z := 1.
Definition Inf : Z := 2.
Definition Deb : Z := 3.

(** How a call ends. *)
Inductive Ended :=
| Returned
| Panicked (v : string).

(** The file system behind [os.OpenFile]; nothing is assumed about it. *)
Class Files := {
  FS : Type;
  OpenFile : string → FS → option string * FS;   (* the error, if any *)
}.

Section Logger.

(** The file system, and the type of the arguments of a call,
    [msg ...interface{}]. *)
Context `{F : Files} {Value : Type}.

(** The package variables [level] and [l], the lines handed to
    [l.Println] with their tag, newest first, and the file system.  The
    zero [log.Logger] has no output; [SetOutput] gives it one. *)
Record State := mkState {
  level : Z;
  has_output : bool;
  lines : list (string * list Value);
  fs : FS;
}.

(** The package before [Init]. *)
Definition initial (files : FS) : State :=
  {| level := 0; has_output := false; lines := []; fs := files |}.

(** The loop over [loglevelstr] in [Init], from index [i] on. *)
Fixpoint range_loglevelstr (i : Z) (names : list string) (llevel : string)
    (level_ : Z) : Z :=
  match names with
  | [] => level_
  | v :: rest =>
      range_loglevelstr (i + 1) rest llevel
        (if String.eqb v llevel then i else level_)
  end.

(** [func Init(file string, llevel string)]; [log.Panic] panics with the
    text of the error. *)
Definition Init (file llevel : string) (s : State) : State * Ended :=
  let level_ := range_loglevelstr 0 loglevelstr llevel (level s) in
  let '(e, files) := OpenFile file (fs s) in
  match e with
  | Some e =>
      ({| level := level_; has_output := has_output s; lines := lines s;
          fs := files |}, Panicked e)
  | None =>
      ({| level := level_; has_output := true; lines := lines s;
          fs := files |}, Returned)
  end.

(** [l.Println(tag, msg)]: a Logger without output calls [Write] on a nil
    writer. *)
Definition Println (tag : string) (msg : list Value) (s : State)
    : State * Ended :=
  if has_output s then
    ({| level := level s; has_output := true;
        lines := (tag, msg) :: lines s; fs := fs s |}, Returned)
  else (s, Panicked "nil pointer dereference").

(** [func Error(msg ...interface{})] *)
Definition Error (msg : list Value) (s : State) : State * Ended :=
  if (Err <=? level s)%Z then Println "ERROR:" msg s else (s, Returned).

(** [func Warning(msg ...interface{})] *)
Definition Warning (msg : list Value) (s : State) : State * Ended :=
  if (Warn <=? level s)%Z then Println "WARNING:" msg s else (s, Returned).

(** [func Info(msg ...interface{})] *)
Definition Info (msg : list Value) (s : State) : State * Ended :=
  if (Inf <=? level s)%Z then Println "INFO:" msg s else (s, Returned).

(** [func Debug(msg ...interface{})] *)
Definition Debug (msg : list Value) (s : State) : State * Ended :=
  if (Deb <=? level s)%Z then Println "DEBUG:" msg s else (s, Returned).

(** The exported functions, as calls. *)
Inductive Call :=
| CallInit (file llevel : string)
| CallError (msg : list Value)
| CallWarning (msg : list Value)
| CallInfo (msg : list Value)
| CallDebug (msg : list Value).

Definition call (c : Call) (s : State) : State * Ended :=
  match c with
  | CallInit file llevel => Init file llevel s
  | CallError msg => Error msg s
  | CallWarning msg => Warning msg s
  | CallInfo msg => Info msg s
  | CallDebug msg => Debug msg s
  end.

(** The state after a sequence of calls, each one run whether or not the
    one before it panicked (a recovered panic). *)
Definition calls (cs : list Call) (s : State) : State :=
  foldl (λ s c, (call c s).1) s cs.

(** The tag and the threshold of a logging call. *)
Definition severity (c : Call) : option (string * Z * list Value) :=
  match c with
  | CallInit _ _ => None
  | CallError msg => Some ("ERROR:", Err, msg)
  | CallWarning msg => Some ("WARNING:", Warn, msg)
  | CallInfo msg => Some ("INFO:", Inf, msg)
  | CallDebug msg => Some ("DEBUG:", Deb, msg)
  end.

End Logger.

(** A file system in which every file opens. *)
Definition files_open : Files :=
  {| FS := unit; OpenFile := λ _ files, (None, files) |}.

End logger.

(** * Properties of the timer registry *)

Module TimerSpec.

Import time timer.

(** ** Validation in [NewTimerWithDuration] and [NewTimerWithDeadline] *)

(** A non-positive number of minutes is refused and nothing changes. *)
Lemma NewTimerWithDuration_nonpositive id_ minutes cb s :
  (minutes ≤ 0)%Z →
  NewTimerWithDuration id_ minutes cb s
  = Some (s, (None, Some "duration must be greater than 0 minutes")).
Proof.
  intros Hm. unfold NewTimerWithDuration.
  destruct (Z.leb_spec minutes 0); [done | lia].
Qed.

(** A deadline strictly before the clock is refused and nothing changes. *)
Lemma NewTimerWithDeadline_past id_ deadline cb s :
  (deadline < now s)%Z →
  NewTimerWithDeadline id_ deadline cb s
  = Some (s, (None, Some "deadline must be in the future")).
Proof.
  intros Hd. unfold NewTimerWithDeadline, Before.
  destruct (Z.ltb_spec deadline (now s)); [done | lia].
Qed.

(** A deadline at or after the clock passes the check of
    [NewTimerWithDeadline]: with a callback, the call goes on to
    [createTimer]. *)
Lemma NewTimerWithDeadline_not_past id_ deadline cb s :
  (now s ≤ deadline)%Z →
  NewTimerWithDeadline id_ deadline (Some cb) s
  = createTimer id_ (Until (now s) deadline) deadline (Some cb) s.
Proof.
  intros Hd. unfold NewTimerWithDeadline, Before.
  destruct (Z.ltb_spec deadline (now s)); [lia|].
  by rewrite decide_False.
Qed.

(** C3.  The specification: [NewTimerWithDuration] with [minutes <= 0] and
    [NewTimerWithDeadline] with [deadline <= now] return a validation
    error and leave the registry unchanged.  The code at the boundary: a
    deadline equal to the clock is not [Before] it, so the call succeeds
    and registers a Timer (whose duration is zero), while zero minutes are
    refused by the other constructor. *)
Theorem NewTimerWithDeadline_at_now_registers :
  ∃ s', NewTimerWithDeadline "reset" (now at_noon) (Some Returns) at_noon
        = Some (s', (Some 0%nat, None))
      ∧ timers at_noon !! "reset" = None
      ∧ timers s' !! "reset" = Some 0%nat
      ∧ (obj <$> heap s' !! 0%nat)
        = Some {| id := "reset"; timer := None; callback := Some Returns;
                  expireTime := now at_noon; isActive := true;
                  stopChan := make_chan 1 |}
      ∧ (pc <$> heap s' !! 0%nat) = Some (AtNewTimer 0%Z)
      ∧ NewTimerWithDuration "reset" 0 (Some Returns) at_noon
        = Some (at_noon,
                (None, Some "duration must be greater than 0 minutes")).
Proof.
  eexists. repeat apply conj; vm_compute; reflexivity.
Qed.

(** C9 does not hold as stated: with zero minutes and a nil callback
    the error is the one of the duration check, which comes first. *)
Lemma nil_callback_error_is_the_first_failed_check :
  NewTimerWithDuration "reset" 0 None at_noon
  = Some (at_noon, (None, Some "duration must be greater than 0 minutes"))
  ∧ NewTimerWithDuration "reset" 0 None at_noon
    ≠ Some (at_noon, (None, Some "callback function cannot be nil"))
  ∧ NewTimerWithDeadline "reset" (now at_noon - 1)%Z None at_noon
    ≠ Some (at_noon, (None, Some "callback function cannot be nil")).
Proof. repeat apply conj; vm_compute; done. Qed.

(** C9, amended.  For every id, number of minutes, deadline and state,
    both constructors called with a nil callback return an error and leave
    the state, hence the registry, as it was; the error is "callback
    function cannot be nil" when the duration or deadline check passes,
    and the error of that check otherwise. *)
Theorem nil_callback_rejected id_ minutes deadline s :
  NewTimerWithDuration id_ minutes None s
  = Some (s, (None,
              Some (if (minutes <=? 0)%Z
                    then "duration must be greater than 0 minutes"
                    else "callback function cannot be nil")))
  ∧ NewTimerWithDeadline id_ deadline None s
  = Some (s, (None,
              Some (if Before deadline (now s)
                    then "deadline must be in the future"
                    else "callback function cannot be nil"))).
Proof.
  unfold NewTimerWithDuration, NewTimerWithDeadline.
  split.
  - destruct (minutes <=? 0)%Z; [done|]. by rewrite decide_True.
  - destruct (Before deadline (now s)); [done|]. by rewrite decide_True.
Qed.

(** ** [Stop] and [StopTimer] *)

Lemma with_stopChan_same o : with_stopChan (stopChan o) o = o.
Proof. by destruct o. Qed.

Lemma set_cell_same t c s : heap s !! t = Some c → set_cell t c s = s.
Proof.
  intros H. unfold set_cell, set_heap. rewrite list_insert_id by done.
  by destruct s.
Qed.

Lemma lookup_set_cell t t' c s :
  (t < length (heap s))%nat →
  heap (set_cell t c s) !! t'
  = if decide (t = t') then Some c else heap s !! t'.
Proof.
  intros Hlt. unfold set_cell, set_heap. simpl. case_decide.
  - subst. by apply list_lookup_insert_eq.
  - by apply list_lookup_insert_ne.
Qed.

(** On a full channel the [select] takes its [default] branch. *)
Lemma select_send_default_full ch v :
  (cap ch ≤ length (buf ch))%nat → select_send_default ch v = ch.
Proof.
  intros H. unfold select_send_default, chan_send.
  rewrite decide_False by lia. done.
Qed.

(** What [Stop] does to the state: it replaces the stop channel of its
    Timer and nothing else; a request that was in the channel stays, and
    an active Timer with a buffered channel has one afterwards. *)
Lemma Stop_effect t s s' :
  Stop t s = Some s' →
  ∃ c ch, heap s !! t = Some c
    ∧ s' = set_cell t {| obj := with_stopChan ch (obj c); pc := pc c |} s
    ∧ cap ch = cap (stopChan (obj c))
    ∧ (buf (stopChan (obj c)) ≠ [] → buf ch ≠ [])
    ∧ (isActive (obj c) = true → (0 < cap (stopChan (obj c)))%nat →
       buf ch ≠ []).
Proof.
  unfold Stop. destruct (heap s !! t) as [c|] eqn:Hc; [|done]. simpl.
  destruct (isActive (obj c)) eqn:Ha; simpl; intros [= <-].
  - exists c, (select_send_default (stopChan (obj c)) true).
    split; [done|]. split; [done|].
    unfold select_send_default, chan_send. case_decide; simpl.
    + split; [done|].
      split; intros; intros H'; by apply app_eq_nil in H' as [_ ?].
    + split; [done|]. split; [done|]. intros _ Hcap.
      destruct (buf (stopChan (obj c))); simpl in *; [lia|done].
  - exists c, (stopChan (obj c)). split; [done|].
    split; [|split; [done|split; [done|congruence]]].
    destruct c as [o p]. simpl. destruct o. simpl.
    symmetry. by apply (set_cell_same t).
Qed.

Lemma Stop_creators t s s' : Stop t s = Some s' → creators s' = creators s.
Proof. by intros (c & ch & _ & -> & _)%Stop_effect. Qed.

Lemma Stop_heap_length t s s' :
  Stop t s = Some s' → length (heap s') = length (heap s).
Proof.
  intros (c & ch & _ & -> & _)%Stop_effect. simpl. by rewrite length_insert.
Qed.

Lemma Stop_inactive t c s :
  heap s !! t = Some c → isActive (obj c) = false → Stop t s = Some s.
Proof. intros Hc Hi. unfold Stop. rewrite Hc. simpl. by rewrite Hi. Qed.

(** [Stop] returns for every allocated Timer, whatever is in its channel. *)
Lemma Stop_is_Some t s : (t < length (heap s))%nat → is_Some (Stop t s).
Proof.
  intros Hlt. destruct (lookup_lt_is_Some_2 _ _ Hlt) as [c Hc].
  unfold Stop. rewrite Hc. simpl. destruct (isActive (obj c)); eauto.
Qed.

Lemma Stop_times_is_Some n t s :
  (t < length (heap s))%nat → is_Some (Stop_times n t s).
Proof.
  revert s. induction n as [|n IH]; intros s Hlt; simpl; [by eauto|].
  destruct (Stop_is_Some t s Hlt) as [s1 H1]. rewrite H1. simpl.
  apply IH. by rewrite (Stop_heap_length _ _ _ H1).
Qed.

Lemma Stop_pending t c s :
  heap s !! t = Some c →
  (cap (stopChan (obj c)) ≤ length (buf (stopChan (obj c))))%nat →
  Stop t s = Some s.
Proof.
  intros Hc Hfull. unfold Stop. rewrite Hc. simpl.
  destruct (isActive (obj c)); [|done]. simpl.
  rewrite select_send_default_full by done.
  rewrite with_stopChan_same. f_equal. apply set_cell_same.
  by destruct c.
Qed.

Lemma Stop_twice t c s s1 :
  heap s !! t = Some c → cap (stopChan (obj c)) = 1%nat →
  Stop t s = Some s1 → Stop t s1 = Some s1.
Proof.
  intros Hc Hcap. unfold Stop at 1. rewrite Hc. simpl.
  destruct (isActive (obj c)) eqn:Ha; simpl; intros [= <-].
  - assert (Hlt : (t < length (heap s))%nat) by (eapply lookup_lt_Some; eauto).
    eapply Stop_pending.
    + unfold set_cell, set_heap. simpl. by apply list_lookup_insert_eq.
    + simpl. unfold select_send_default, chan_send.
      case_decide; simpl; [rewrite length_app; simpl|]; lia.
  - eapply Stop_inactive; eauto.
Qed.

Lemma Stop_times_S t c s s1 n :
  heap s !! t = Some c → cap (stopChan (obj c)) = 1%nat →
  Stop t s = Some s1 → Stop_times (S n) t s = Some s1.
Proof.
  intros Hc Hcap H1. simpl. rewrite H1. simpl.
  pose proof (Stop_twice _ _ _ _ Hc Hcap H1) as H2.
  induction n as [|n IH]; simpl; [done|]. by rewrite H2.
Qed.

(** C7.  In every state:
    - [StopTimer] on an id that is not in the registry returns the error
      "timer not found: <id>" and the state is unchanged;
    - [Stop] on a handle whose Timer is inactive returns and changes
      nothing;
    - [Stop] on a handle whose stop channel is full, where a plain send
      would block, returns and changes nothing;
    - any number of [Stop] calls in a row on an allocated Timer returns;
    - on a Timer with the one-slot channel [createTimer] gives it, one or
      more calls in a row all end in the state the first call leaves.
    [Stop] has no error result. *)
Theorem StopTimer_unknown_and_Stop_repeated (s : State) :
  (∀ id_, timers s !! id_ = None →
          StopTimer id_ s = Some (s, Some ("timer not found: " +:+ id_)))
  ∧ (∀ t c, heap s !! t = Some c → isActive (obj c) = false →
            Stop t s = Some s)
  ∧ (∀ t c, heap s !! t = Some c →
            (cap (stopChan (obj c)) ≤ length (buf (stopChan (obj c))))%nat →
            chan_send (stopChan (obj c)) true = None ∧ Stop t s = Some s)
  ∧ (∀ t n, (t < length (heap s))%nat → is_Some (Stop_times n t s))
  ∧ (∀ t c, heap s !! t = Some c → cap (stopChan (obj c)) = 1%nat →
            ∃ s1, Stop t s = Some s1 ∧ ∀ n, Stop_times (S n) t s = Some s1).
Proof.
  repeat apply conj.
  - intros id_ H. unfold StopTimer. by rewrite H.
  - intros t c. apply Stop_inactive.
  - intros t c Hc Hfull. split; [|by eapply Stop_pending].
    unfold chan_send. by rewrite decide_False by lia.
  - intros t n Hlt. by apply Stop_times_is_Some.
  - intros t c Hc Hcap.
    destruct (Stop_is_Some t s) as [s1 H1]; [by eapply lookup_lt_Some|].
    exists s1. split; [done|]. intros n. by eapply Stop_times_S.
Qed.

(** An unknown id, and a Timer stopped again and again. *)
Lemma StopTimer_unknown_and_Stop_repeated_witness :
  StopTimer "ghost" stop_pending
  = Some (stop_pending, Some "timer not found: ghost")
  ∧ Stop 0 stop_pending = Some stop_pending
  ∧ is_Some (Stop_times 5 0 stop_pending)
  ∧ (∃ s1, Stop 0 first_created = Some s1
           ∧ ∀ n, Stop_times (S n) 0 first_created = Some s1).
Proof.
  destruct (StopTimer_unknown_and_Stop_repeated stop_pending)
    as (H1 & _ & H3 & H4 & _).
  destruct (StopTimer_unknown_and_Stop_repeated first_created)
    as (_ & _ & _ & _ & H5).
  split; [apply H1; reflexivity|].
  split; [eapply H3; [vm_compute; reflexivity | vm_compute; lia]|].
  split; [apply H4; vm_compute; lia|].
  eapply H5; vm_compute; reflexivity.
Defined.

(** ** The interleavings *)

Lemma exec_all_steps sched s s' : exec_all sched s = Some s' → steps s s'.
Proof.
  revert s. induction sched as [|a sched IH]; simpl; intros s.
  - intros [= <-]. apply rtc_refl.
  - destruct (exec a s) as [s1|] eqn:Ha; [|done]. simpl. intros H.
    eapply rtc_l; [by exists a|]. by apply IH.
Qed.

Lemma Stop_set_creators t cs s :
  Stop t (set_creators cs s) = set_creators cs <$> Stop t s.
Proof.
  unfold Stop. simpl. destruct (heap s !! t) as [c|]; [|done]. simpl.
  by destruct (isActive (obj c)).
Qed.

(** The function [createTimer], run without interruption, is one of the
    interleavings of its pieces. *)
Lemma createTimer_steps id_ d e cb s s' r :
  createTimer id_ d e cb s = Some (s', r) → steps s s'.
Proof.
  unfold createTimer.
  destruct (timers s !! id_) as [ex|] eqn:Hreg.
  - destruct (Stop ex s) as [s1|] eqn:HS; [|done]. simpl. intros [= <- <-].
    pose proof (Stop_creators _ _ _ HS) as Hcs.
    set (i := length (creators s)).
    eapply rtc_l.
    { exists (Enter id_ d e cb). simpl. unfold createTimer_enter.
      rewrite Hreg. reflexivity. }
    eapply rtc_l.
    { exists (Resume i). simpl. unfold creator_step. simpl.
      rewrite lookup_app_r, Nat.sub_diag by done. simpl.
      rewrite Stop_set_creators, HS. simpl. reflexivity. }
    apply rtc_once. exists (Resume i). simpl. unfold creator_step. simpl.
    rewrite list_lookup_insert_eq by (rewrite length_app; simpl; lia).
    simpl. f_equal. unfold set_creators, set_timers, set_heap. simpl.
    destruct s1 as [n h m cs ev]. simpl in *. subst cs i. f_equal.
    rewrite insert_app_r_alt, Nat.sub_diag by done. simpl.
    rewrite delete_middle. by rewrite app_nil_r.
  - simpl. intros [= <- <-]. apply rtc_once. exists (Enter id_ d e cb).
    simpl. unfold createTimer_enter. by rewrite Hreg.
Qed.

(** Case analysis on a transition of [run_step] that is known to exist. *)
Ltac run_step_cases H :=
  repeat match type of H with
    | match ?x with _ => _ end = Some _ => destruct x eqn:?; simplify_eq
    end;
  simplify_eq.

Lemma foldl_Stop_None l :
  foldl (λ acc t0, s0 ← acc; Stop t0 s0) None l = None.
Proof. induction l; simpl; auto. Qed.

(** *** The handles in the registry are allocated *)

Lemma registry_ok_frame s s' :
  registry_ok s → (length (heap s) ≤ length (heap s'))%nat →
  (timers s' = timers s ∨ ∃ k, timers s' = delete k (timers s)) →
  registry_ok s'.
Proof.
  unfold registry_ok. intros Hok Hlen [->|[k ->]].
  - eapply map_Forall_impl; [done|]. simpl. intros; lia.
  - apply map_Forall_delete. eapply map_Forall_impl; [done|].
    simpl. intros; lia.
Qed.

Lemma registry_ok_Stop t s s' :
  Stop t s = Some s' → registry_ok s → registry_ok s'.
Proof.
  intros HS Hok. eapply registry_ok_frame; [done| |].
  - by rewrite (Stop_heap_length _ _ _ HS).
  - left. by apply Stop_effect in HS as (c & ch & _ & -> & _).
Qed.

Lemma registry_ok_install id_ d e cb s :
  registry_ok s → registry_ok (createTimer_install id_ d e cb s).1.
Proof.
  unfold registry_ok. simpl. intros Hok. apply map_Forall_insert_2.
  - rewrite length_app. simpl. lia.
  - eapply map_Forall_impl; [done|]. simpl. intros ? ?.
    rewrite length_app. simpl. lia.
Qed.

Lemma registry_ok_exec a s s' :
  exec a s = Some s' → registry_ok s → registry_ok s'.
Proof.
  destruct a as [d|t0 b|id' d e cb|i|t0|id'|]; simpl.
  - case_match; [|done]. by intros [= <-].
  - unfold run_step. destruct (heap s !! t0) as [c0|] eqn:Hc0; [|done].
    simpl. intros Hrun Hok.
    destruct (pc c0) eqn:Hpc; run_step_cases Hrun;
      (eapply registry_ok_frame;
       [exact Hok | simpl; by rewrite length_insert |]);
      simpl; eauto.
  - intros [= <-] Hok. unfold createTimer_enter.
    destruct (timers s !! id'); [done|]. by apply registry_ok_install.
  - unfold creator_step. destruct (creators s !! i) as [cr|]; [|done]. simpl.
    destruct (c_stage cr) as [ex|].
    + destruct (Stop ex s) as [s1|] eqn:HS; [|done]. simpl.
      intros [= <-] Hok. by apply (registry_ok_Stop _ _ _ HS) in Hok.
    + intros [= <-] Hok.
      by apply (registry_ok_install (c_id cr) (c_duration cr)
                  (c_expireTime cr) (c_callback cr)) in Hok.
  - apply registry_ok_Stop.
  - unfold StopTimer. destruct (timers s !! id') as [t0|]; simpl.
    + destruct (Stop t0 s) as [s1|] eqn:HS; [|done]. simpl.
      intros [= <-]. by eapply registry_ok_Stop.
    + by intros [= <-].
  - unfold StopAllTimers. generalize ((map_to_list (timers s)).*2).
    intros l. revert s. induction l as [|t0 l IH]; simpl; intros s.
    + by intros [= <-].
    + destruct (Stop t0 s) as [s1|] eqn:H1; simpl.
      * intros Hf Hok. eapply IH; [done|]. by eapply registry_ok_Stop.
      * by rewrite foldl_Stop_None.
Qed.

(** Every state the process can reach has a sound registry. *)
Lemma registry_ok_reachable s : steps init s → registry_ok s.
Proof.
  intros H. assert (registry_ok init) as H0 by apply map_Forall_empty.
  revert H0. induction H as [|s1 s2 s3 [a Ha] _ IH]; [done|].
  intros H0. apply IH. by eapply registry_ok_exec.
Qed.

(** ** A Timer stays listed while it waits *)

Lemma elem_of_GetAllActiveTimers id_ s :
  id_ ∈ GetAllActiveTimers s ↔
  ∃ t, timers s !! id_ = Some t ∧ IsActive t s = Some true.
Proof.
  unfold GetAllActiveTimers. rewrite list_elem_of_fmap. split.
  - intros [[k t] [-> Hin]]. apply list_elem_of_filter in Hin as [Ha Hin].
    apply elem_of_map_to_list in Hin. eauto.
  - intros [t [Hk Ha]]. exists (id_, t). split; [done|].
    apply list_elem_of_filter. split; [done|]. by apply elem_of_map_to_list.
Qed.

Lemma waiting_cell_inv c :
  waiting_cell c = true →
  (pc c = AtSelect ∨ ∃ d, pc c = AtNewTimer d) ∧ buf (stopChan (obj c)) = [].
Proof.
  unfold waiting_cell. destruct (pc c); try done;
    intros H%bool_decide_eq_true; eauto.
Qed.

Lemma stays_listed_facts id_ t s c :
  stays_listed id_ t s → heap s !! t = Some c → waiting_cell c = true →
  listed_facts id_ t c s.
Proof. intros (c' & Hc' & _ & _ & Hrest) Hc Hw. simplify_eq. auto. Qed.

(** A [Stop] on the Timer itself ends its waiting. *)
Lemma Stop_ends_waiting id_ t s s1 c1 :
  stays_listed id_ t s → Stop t s = Some s1 → heap s1 !! t = Some c1 →
  waiting_cell c1 = false.
Proof.
  intros (c & Hc & Hid & Hpos & Hrest)
         (c0 & ch & Hc0 & -> & Hcap & Hkeep & Hsent)%Stop_effect.
  assert (c0 = c) as -> by congruence.
  rewrite lookup_set_cell, decide_True by (by eapply lookup_lt_Some || done).
  intros [= <-]. apply not_true_is_false.
  intros [Hpc Hbuf]%waiting_cell_inv. simpl in *.
  destruct (decide (buf (stopChan (obj c)) = [])) as [He|Hn]; [|tauto].
  assert (waiting_cell c = true) as Hw.
  { unfold waiting_cell.
    destruct Hpc as [->|[d ->]]; by apply bool_decide_eq_true. }
  destruct (Hrest Hw) as (Ha & _). by apply Hsent.
Qed.

(** The invariant under an update of the Timer's own cell. *)
Lemma stays_listed_self id_ t s s' c c' :
  stays_listed id_ t s → heap s !! t = Some c →
  heap s' = <[t := c']> (heap s) → creators s' = creators s →
  id (obj c') = id (obj c) →
  cap (stopChan (obj c')) = cap (stopChan (obj c)) →
  (waiting_cell c' = true →
   waiting_cell c = true ∧ isActive (obj c') = isActive (obj c)
   ∧ timers s' = timers s) →
  stays_listed id_ t s'.
Proof.
  intros (c1 & Hc1 & Hid & Hpos & Hrest) Hc Hheap Hcr Hid' Hcap Hw.
  assert (c1 = c) as -> by congruence.
  assert (Hlt : (t < length (heap s))%nat) by by eapply lookup_lt_Some.
  exists c'. rewrite Hheap, list_lookup_insert_eq by done.
  split; [done|]. split; [congruence|]. split; [lia|].
  intros Hw'. destruct (Hw Hw') as (Hwc & Ha & Hreg).
  destruct (Hrest Hwc) as (Ha0 & Hreg0 & Hoth & Hcr0).
  split; [congruence|]. split; [congruence|]. split.
  - intros t' c2 Hne. rewrite Hheap, list_lookup_insert_ne by done.
    by apply Hoth.
  - by rewrite Hcr.
Qed.

(** The invariant under an update of the cell of a goroutine that can
    still move. *)
Lemma stays_listed_other id_ t t0 s s' c0 c0' :
  stays_listed id_ t s → t0 ≠ t → heap s !! t0 = Some c0 →
  pc c0 ≠ Exited →
  heap s' = <[t0 := c0']> (heap s) → creators s' = creators s →
  id (obj c0') = id (obj c0) →
  (timers s' = timers s ∨ timers s' = delete (id (obj c0)) (timers s)) →
  stays_listed id_ t s'.
Proof.
  intros (c & Hc & Hid & Hpos & Hrest) Hne Hc0 Hpc Hheap Hcr Hid0 Hreg.
  exists c. rewrite Hheap, list_lookup_insert_ne by done.
  split; [done|]. split; [done|]. split; [done|].
  intros Hw. destruct (Hrest Hw) as (Ha & Hreg0 & Hoth & Hcr0).
  assert (id (obj c0) ≠ id_) as Hid_ne.
  { intros E. by specialize (Hoth t0 c0 Hne Hc0 E). }
  split; [done|]. split.
  { destruct Hreg as [->| ->]; [done|]. by rewrite lookup_delete_ne. }
  split; [|by rewrite Hcr].
  intros t' c' Hne'. rewrite Hheap.
  destruct (decide (t0 = t')) as [<-|Hne''].
  - rewrite list_lookup_insert_eq by by eapply lookup_lt_Some.
    intros [= <-]. congruence.
  - rewrite list_lookup_insert_ne by done. by apply Hoth.
Qed.

Lemma stays_listed_Stop id_ t t0 s s' :
  Stop t0 s = Some s' → stays_listed id_ t s → stays_listed id_ t s'.
Proof.
  intros HS Hinv. destruct (decide (t0 = t)) as [->|Hne].
  - pose proof (λ c1, Stop_ends_waiting _ _ _ _ c1 Hinv HS) as Hend.
    destruct Hinv as (c & Hc & Hid & Hpos & Hrest).
    apply Stop_effect in HS as (c0 & ch & Hc0 & -> & Hcap & _).
    assert (c0 = c) as -> by congruence.
    assert (Hlt : (t < length (heap s))%nat) by by eapply lookup_lt_Some.
    eexists. rewrite lookup_set_cell, decide_True by done.
    split; [done|]. simpl. split; [done|]. split; [lia|].
    intros Hw. rewrite (Hend _) in Hw; [done|].
    by rewrite lookup_set_cell, decide_True.
  - apply Stop_effect in HS as (c0 & ch & Hc0 & -> & _).
    destruct Hinv as (c & Hc & Hid & Hpos & Hrest).
    assert (Hlt : (t0 < length (heap s))%nat) by by eapply lookup_lt_Some.
    exists c. rewrite lookup_set_cell, decide_False by done.
    split; [done|]. split; [done|]. split; [done|].
    intros Hw. destruct (Hrest Hw) as (Ha & Hreg & Hoth & Hcr).
    split; [done|]. split; [done|]. split; [|done].
    intros t' c' Hne'. rewrite lookup_set_cell by done.
    case_decide; [|by apply Hoth]. subst t'. intros [= <-]. simpl.
    intros Hid0. by eapply Hoth.
Qed.

Lemma stays_listed_StopAll id_ t l s s' :
  foldl (λ acc t0, s0 ← acc; Stop t0 s0) (Some s) l = Some s' →
  stays_listed id_ t s → stays_listed id_ t s'.
Proof.
  revert s. induction l as [|t0 l IH]; simpl; intros s.
  - by intros [= <-].
  - destruct (Stop t0 s) as [s1|] eqn:H1; simpl.
    + intros Hf Hinv. eapply IH; [done|]. by eapply stays_listed_Stop.
    + by rewrite foldl_Stop_None.
Qed.

Lemma stays_listed_run_step id_ t t0 b s s' :
  run_step t0 b s = Some s' → stays_listed id_ t s → stays_listed id_ t s'.
Proof.
  unfold run_step. destruct (heap s !! t0) as [c0|] eqn:Hc0; [|done]. simpl.
  intros Hrun Hinv.
  destruct (decide (t0 = t)) as [->|Hne].
  - destruct (pc c0) eqn:Hpc; run_step_cases Hrun;
      (eapply stays_listed_self; [exact Hinv | exact Hc0 | ..]);
      try reflexivity; unfold waiting_cell; simpl; try done.
    + by rewrite Hpc.
    + unfold chan_recv in *.
      by destruct (buf (stopChan (obj c0))); simplify_eq.
  - destruct (pc c0) eqn:Hpc; run_step_cases Hrun;
      (eapply (stays_listed_other _ _ t0);
       [exact Hinv | done | exact Hc0 | congruence | ..]);
      try reflexivity; simpl; auto.
Qed.

Lemma stays_listed_install id_ t id' d e cb s :
  stays_listed id_ t s →
  (∀ c, heap s !! t = Some c → waiting_cell c = true → id' ≠ id_) →
  stays_listed id_ t (createTimer_install id' d e cb s).1.
Proof.
  intros (c & Hc & Hid & Hpos & Hrest) Hfresh.
  assert (Hlt : (t < length (heap s))%nat) by by eapply lookup_lt_Some.
  exists c. simpl. rewrite lookup_app_l by done.
  split; [done|]. split; [done|]. split; [done|].
  intros Hw. destruct (Hrest Hw) as (Ha & Hreg & Hoth & Hcr).
  specialize (Hfresh c Hc Hw).
  split; [done|]. simpl. split; [by rewrite lookup_insert_ne|].
  split; [|done].
  intros t' c' Hne [Hold|[_ Hnew]]%lookup_app_Some; [by eapply Hoth|].
  apply list_lookup_singleton_Some in Hnew as [_ <-]. simpl. done.
Qed.

Lemma stays_listed_set_creators id_ t cs s :
  stays_listed id_ t s →
  (∀ c, heap s !! t = Some c → waiting_cell c = true →
        ∀ i cr, cs !! i = Some cr → c_id cr = id_ → c_stage cr = AtStop t) →
  stays_listed id_ t (set_creators cs s).
Proof.
  intros (c & Hc & Hid & Hpos & Hrest) Hcs.
  exists c. split; [done|]. split; [done|]. split; [done|].
  intros Hw. destruct (Hrest Hw) as (Ha & Hreg & Hoth & Hcr).
  split; [done|]. split; [done|]. split; [done|]. simpl. by eapply Hcs.
Qed.

(** Every transition keeps the invariant. *)
Lemma stays_listed_exec id_ t a s s' :
  exec a s = Some s' → stays_listed id_ t s → stays_listed id_ t s'.
Proof.
  destruct a as [d|t0 b|id' d e cb|i|t0|id'|]; simpl.
  - case_match; [|done]. intros [= <-] (c & ?). by exists c.
  - apply stays_listed_run_step.
  - intros [= <-] Hinv. unfold createTimer_enter.
    destruct (timers s !! id') as [existing|] eqn:Hreg.
    + apply stays_listed_set_creators; [done|]. intros c Hc Hw i cr.
      destruct (stays_listed_facts _ _ _ _ Hinv Hc Hw)
        as (_ & Hreg' & _ & Hcr).
      intros [Hold|[_ Hnew]]%lookup_app_Some; [by eapply Hcr|].
      apply list_lookup_singleton_Some in Hnew as [_ <-]. simpl.
      intros ->. congruence.
    + apply stays_listed_install; [done|]. intros c Hc Hw ->.
      destruct (stays_listed_facts _ _ _ _ Hinv Hc Hw) as (_ & Hreg' & _).
      congruence.
  - unfold creator_step.
    destruct (creators s !! i) as [cr|] eqn:Hi; [|done]. simpl.
    destruct (c_stage cr) as [existing|] eqn:Hst.
    + destruct (Stop existing s) as [s1|] eqn:HS; [|done]. simpl.
      intros [= <-] Hinv.
      pose proof (stays_listed_Stop id_ t _ _ _ HS Hinv) as Hinv1.
      pose proof (Stop_creators _ _ _ HS) as Hcs.
      apply stays_listed_set_creators; [done|]. intros c1 Hc1 Hw j cr'.
      destruct (stays_listed_facts _ _ _ _ Hinv1 Hc1 Hw)
        as (_ & _ & _ & Hcr).
      destruct (decide (i = j)) as [<-|Hne].
      * rewrite list_lookup_insert_eq
          by (rewrite Hcs; by eapply lookup_lt_Some).
        intros [= <-]. simpl. intros Hid. exfalso.
        rewrite Hcs in Hcr. specialize (Hcr i cr Hi Hid).
        assert (existing = t) as -> by congruence.
        rewrite (Stop_ends_waiting _ _ _ _ _ Hinv HS Hc1) in Hw. done.
      * rewrite list_lookup_insert_ne by done. apply Hcr.
    + intros [= <-] Hinv.
      apply stays_listed_set_creators.
      * apply stays_listed_install; [done|]. intros c Hc Hw Hid.
        destruct (stays_listed_facts _ _ _ _ Hinv Hc Hw)
          as (_ & _ & _ & Hcr).
        specialize (Hcr i cr Hi Hid). congruence.
      * simpl. intros c Hc Hw j cr' Hj.
        assert (Hlt : (t < length (heap s))%nat).
        { destruct Hinv as (c0 & Hc0 & _). by eapply lookup_lt_Some. }
        rewrite lookup_app_l in Hc by done.
        destruct (stays_listed_facts _ _ _ _ Hinv Hc Hw)
          as (_ & _ & _ & Hcr).
        apply list_elem_of_lookup_2 in Hj.
        eapply elem_of_sublist in Hj; [|apply sublist_delete].
        apply list_elem_of_lookup_1 in Hj as [j' Hj']. by eapply Hcr.
  - apply stays_listed_Stop.
  - unfold StopTimer. destruct (timers s !! id') as [t0|]; simpl.
    + destruct (Stop t0 s) as [s1|] eqn:HS; [|done]. simpl.
      intros [= <-]. by eapply stays_listed_Stop.
    + by intros [= <-].
  - apply stays_listed_StopAll.
Qed.

Lemma stays_listed_steps id_ t s s' :
  steps s s' → stays_listed id_ t s → stays_listed id_ t s'.
Proof.
  induction 1 as [|s1 s2 s3 [a Ha] _ IH]; [done|].
  intros Hinv. apply IH. by eapply stays_listed_exec.
Qed.

Lemma wrap64_small z : (minInt64 ≤ z ≤ maxInt64)%Z → wrap64 z = z.
Proof.
  unfold wrap64, minInt64, maxInt64. intros H.
  rewrite Z.mod_small by lia. lia.
Qed.

Lemma quiet_Stop id_ t0 s s' :
  Stop t0 s = Some s' → quiet id_ s → quiet id_ s'.
Proof.
  intros (c0 & ch & Hc0 & -> & _)%Stop_effect [Hh Hc].
  split; [|done]. simpl. rewrite Forall_lookup in Hh |- *.
  intros t c. destruct (decide (t0 = t)) as [<-|Hne].
  - rewrite list_lookup_insert_eq by by eapply lookup_lt_Some.
    intros [= <-]. simpl. by eapply Hh.
  - rewrite list_lookup_insert_ne by done. apply Hh.
Qed.

(** The invariant holds for a Timer registered in a quiet state. *)
Lemma stays_listed_created id_ d e cb s :
  quiet id_ s →
  stays_listed id_ (length (heap s)) (createTimer_install id_ d e cb s).1.
Proof.
  intros [Hh Hc]. rewrite Forall_lookup in Hh. rewrite Forall_lookup in Hc.
  eexists. simpl. split.
  { rewrite lookup_app_r, Nat.sub_diag by done. done. }
  simpl. split; [done|]. split; [lia|]. intros _.
  split; [done|]. simpl. split; [by rewrite lookup_insert_eq|]. split.
  - intros t' c' Hne [Hold|[Hge Hnew]]%lookup_app_Some; [by eauto|].
    apply list_lookup_singleton_Some in Hnew as [Hz _]. lia.
  - intros i cr Hi Hid. by specialize (Hc i cr Hi).
Qed.

(** C8 does not hold as stated, in two ways.  With 153722868 minutes
    the product with [time.Minute] wraps around in [int64], and the expiry
    time is before the clock instead of 153722868 minutes after it.  And
    when the goroutine of an earlier Timer of the same id is still at its
    [select], that goroutine takes the stop request sent by [createTimer]
    and deletes the id from the registry: the new Timer is waiting, and
    its id is not listed. *)
Lemma NewTimerWithDuration_not_for_every_input :
  (∃ s1 t, NewTimerWithDuration "reset" 153722868 (Some Returns) at_noon
           = Some (s1, (Some t, None))
           ∧ GetExpireTime t s1 ≠ Some (now at_noon + 153722868 * Minute)%Z
           ∧ GetExpireTime t s1 = Some (now at_noon - 9223371993709551616)%Z)
  ∧ (∃ s1 t s2, NewTimerWithDuration "reset" 10 (Some Returns) first_selecting
                = Some (s1, (Some t, None))
                ∧ steps s1 s2 ∧ waiting t s2 = true
                ∧ "reset" ∉ GetAllActiveTimers s2).
Proof.
  split.
  - eexists _, _. split; [vm_compute; reflexivity|].
    split; [vm_compute; discriminate | vm_compute; reflexivity].
  - exists second_created, 1%nat, first_cancelled.
    split; [vm_compute; reflexivity|].
    split; [apply (exec_all_steps cancel_0); vm_compute; reflexivity|].
    split; [vm_compute; reflexivity|].
    assert (GetAllActiveTimers first_cancelled = []) as ->
        by (vm_compute; reflexivity).
    apply not_elem_of_nil.
Qed.

(** C8, amended.  Let the state be one in which every registered handle is
    allocated, every goroutine of a Timer with this id has returned, and
    no call of [createTimer] for this id is under way.  For every id,
    every number of minutes [d > 0] whose nanoseconds fit in an [int64]
    ([d <= 153722867]) and every non-nil callback,
    [NewTimerWithDuration(id, d, cb)] succeeds and returns a handle with
    [GetID() = id], [IsActive() = true] and [GetExpireTime()] equal to the
    clock at the call plus [d] minutes; and in every state the process
    reaches afterwards in which the Timer is still waiting (its goroutine
    has not left the [select] and no stop request is in its channel), the
    id is in [GetAllActiveTimers()]. *)
Theorem NewTimerWithDuration_listed_while_waiting
    (s : State) (id_ : string) (minutes : Z) (cb : Callback) :
  (0 < minutes)%Z → (minutes * Minute ≤ maxInt64)%Z →
  registry_ok s → quiet id_ s →
  ∃ s1 t,
    NewTimerWithDuration id_ minutes (Some cb) s = Some (s1, (Some t, None))
    ∧ GetID t s1 = Some id_
    ∧ IsActive t s1 = Some true
    ∧ GetExpireTime t s1 = Some (now s + minutes * Minute)%Z
    ∧ ∀ s2, steps s1 s2 → waiting t s2 = true →
            id_ ∈ GetAllActiveTimers s2.
Proof.
  intros Hpos Hmax Hreg Hq.
  unfold NewTimerWithDuration.
  destruct (Z.leb_spec minutes 0) as [?|_]; [lia|].
  rewrite decide_False by done.
  unfold Duration_mul. rewrite wrap64_small
    by (unfold minInt64, maxInt64, Minute in *; lia).
  unfold createTimer.
  assert (∃ s0, match timers s !! id_ with
                | Some existingTimer => Stop existingTimer s
                | None => Some s
                end = Some s0 ∧ quiet id_ s0 ∧ now s0 = now s)
    as (s0 & -> & Hq0 & Hnow).
  { destruct (timers s !! id_) as [t0|] eqn:Hl; [|by eauto].
    destruct (Stop_is_Some t0 s) as [s0 H0]; [by eapply Hreg|].
    exists s0. split; [done|]. split; [by eapply quiet_Stop|].
    by apply Stop_effect in H0 as (? & ? & _ & -> & _). }
  simpl. eexists _, _. split; [reflexivity|].
  pose proof (stays_listed_created id_ (minutes * Minute)%Z
                (Add (now s) (minutes * Minute)%Z) (Some cb) s0 Hq0) as Hinv.
  unfold GetID, IsActive, GetExpireTime. simpl.
  rewrite lookup_app_r, Nat.sub_diag by done. simpl.
  split; [done|]. split; [done|]. split; [done|].
  intros s2 Hsteps Hw.
  destruct (stays_listed_steps _ _ _ _ Hsteps Hinv) as (c & Hc & _ & _ & Hrest).
  unfold waiting in Hw. rewrite Hc in Hw.
  destruct (Hrest Hw) as (Ha & Hr & _).
  apply elem_of_GetAllActiveTimers. eexists. split; [done|].
  unfold IsActive. rewrite Hc. simpl. by rewrite Ha.
Qed.

(** Ten minutes under a fresh id, before any other Timer exists. *)
Lemma NewTimerWithDuration_listed_while_waiting_witness :
  ∃ s1 t,
    NewTimerWithDuration "reset" 10 (Some Returns) at_noon
    = Some (s1, (Some t, None))
    ∧ GetID t s1 = Some "reset"
    ∧ IsActive t s1 = Some true
    ∧ GetExpireTime t s1 = Some (now at_noon + 10 * Minute)%Z
    ∧ ∀ s2, steps s1 s2 → waiting t s2 = true →
            "reset" ∈ GetAllActiveTimers s2.
Proof.
  apply (NewTimerWithDuration_listed_while_waiting at_noon "reset" 10 Returns).
  - lia.
  - vm_compute. discriminate.
  - apply (bool_decide_unpack _). vm_compute. exact I.
  - apply (bool_decide_unpack _). vm_compute. exact I.
Defined.

(** ** How a Timer terminates *)

(** The expiry path with a callback that returns: the callback is called
    once, and the id leaves the registry. *)
Lemma expiry_callback_returns t c b s :
  heap s !! t = Some c → pc c = ExpCall → callback (obj c) = Some Returns →
  ∃ s1 s2, run_step t b s = Some s1 ∧ run_step t b s1 = Some s2
    ∧ events s2 = Invoked t :: events s
    ∧ timers s2 = delete (id (obj c)) (timers s)
    ∧ (pc <$> heap s2 !! t) = Some Exited.
Proof.
  intros Hc Hpc Hcb.
  assert (Hlt : (t < length (heap s))%nat) by by eapply lookup_lt_Some.
  eexists _, _. unfold run_step at 1. rewrite Hc. simpl. rewrite Hpc, Hcb.
  split; [reflexivity|]. unfold run_step. simpl.
  rewrite list_lookup_insert_eq by done. simpl.
  split; [reflexivity|]. simpl.
  rewrite list_lookup_insert_eq by (by rewrite length_insert). done.
Qed.

(** The expiry path with a callback that panics: the panic is recovered
    inside [run], the goroutine returns, and the registry is what it was. *)
Lemma expiry_callback_panics t c v b s :
  heap s !! t = Some c → pc c = ExpCall →
  callback (obj c) = Some (Panics v) →
  ∃ s1, run_step t b s = Some s1
    ∧ events s1 = Recovered t v :: Invoked t :: events s
    ∧ timers s1 = timers s
    ∧ (pc <$> heap s1 !! t) = Some Exited
    ∧ ∀ b', run_step t b' s1 = None.
Proof.
  intros Hc Hpc Hcb.
  assert (Hlt : (t < length (heap s))%nat) by by eapply lookup_lt_Some.
  eexists. unfold run_step at 1. rewrite Hc. simpl. rewrite Hpc, Hcb.
  split; [reflexivity|]. simpl.
  rewrite list_lookup_insert_eq by done. simpl.
  repeat apply conj; try done.
  intros b'. unfold run_step. simpl.
  by rewrite list_lookup_insert_eq by done.
Qed.

(** The cancellation path: the callback is not called, and the id leaves
    the registry, whichever Timer it maps to by then. *)
Lemma cancellation_deletes_id t c b s :
  heap s !! t = Some c → pc c = StopMark →
  ∃ s1 s2, run_step t b s = Some s1 ∧ run_step t b s1 = Some s2
    ∧ events s2 = events s
    ∧ timers s2 = delete (id (obj c)) (timers s)
    ∧ (pc <$> heap s2 !! t) = Some Exited.
Proof.
  intros Hc Hpc.
  assert (Hlt : (t < length (heap s))%nat) by by eapply lookup_lt_Some.
  eexists _, _. unfold run_step at 1. rewrite Hc. simpl. rewrite Hpc.
  split; [reflexivity|]. unfold run_step. simpl.
  rewrite list_lookup_insert_eq by done. simpl.
  split; [reflexivity|]. simpl.
  rewrite list_lookup_insert_eq by (by rewrite length_insert). done.
Qed.

(** C1.  The specification: when the callback panics on the expiry path, the
    panic is caught and does not leave the Timer's execution, and the id
    is then removed from the registry.  The code: a Timer "reset" of one
    minute is created with a panicking callback; its goroutine starts the
    runtime timer, a minute passes, the goroutine takes the expiry case,
    marks the Timer inactive and calls the callback.  The panic is
    recovered and [run] returns: the goroutine has no transition left, and
    the registry still maps "reset" to the dead Timer, so that [GetTimer]
    finds it and [StopTimer] reports no error. *)
Theorem panicking_callback_leaves_entry :
  NewTimerWithDuration "reset" 1 (Some (Panics "boom")) at_noon
  = Some (panicking_created, (Some 0%nat, None))
  ∧ exec_all expire_0 panicking_created = Some panicking_expired
  ∧ events panicking_expired = [Recovered 0 "boom"; Invoked 0]
  ∧ (pc <$> heap panicking_expired !! 0%nat) = Some Exited
  ∧ (∀ b, run_step 0 b panicking_expired = None)
  ∧ IsActive 0 panicking_expired = Some false
  ∧ timers panicking_expired !! "reset" = Some 0%nat
  ∧ GetTimer "reset" panicking_expired = (Some 0%nat, true)
  ∧ StopTimer "reset" panicking_expired = Some (panicking_expired, None).
Proof. repeat apply conj; vm_compute; reflexivity. Qed.

(** C4.  The specification: creating a Timer under an id that maps to an active
    Timer stops the old one first; afterwards the registry holds exactly
    the new Timer for that id, and the callback of the old one never
    fires.  The code, first run: Timer 0 is waiting at its [select] when
    Timer 1 is created under the same id; [createTimer] sends the stop
    request and registers Timer 1; then the goroutine of Timer 0 takes the
    request and deletes the id, which by now maps to Timer 1.  Timer 1 is
    active and waiting, and the registry has no entry for the id.  Second
    run: Timer 1 is created when the goroutine of Timer 0 has taken the
    expiry case and has not yet marked the Timer inactive; Timer 0 is
    registered and active, [Stop] posts its request, nobody receives it,
    and the callback of Timer 0 is called. *)
Theorem replacement_unregistered_by_superseded_goroutine :
  (NewTimerWithDuration "reset" 10 (Some Returns) at_noon
   = Some (first_created, (Some 0%nat, None))
   ∧ exec_all [Go 0 TimerC] first_created = Some first_selecting
   ∧ timers first_selecting !! "reset" = Some 0%nat
   ∧ IsActive 0 first_selecting = Some true
   ∧ NewTimerWithDuration "reset" 10 (Some Returns) first_selecting
     = Some (second_created, (Some 1%nat, None))
   ∧ timers second_created !! "reset" = Some 1%nat
   ∧ exec_all cancel_0 second_created = Some first_cancelled
   ∧ timers first_cancelled !! "reset" = None
   ∧ IsActive 1 first_cancelled = Some true
   ∧ waiting 1 first_cancelled = true
   ∧ GetAllActiveTimers first_cancelled = [])
  ∧ (exec_all [Go 0 TimerC; Tick (10 * Minute); Go 0 TimerC] first_created
     = Some first_due
     ∧ timers first_due !! "reset" = Some 0%nat
     ∧ IsActive 0 first_due = Some true
     ∧ (pc <$> heap first_due !! 0%nat) = Some ExpMark
     ∧ NewTimerWithDuration "reset" 10 (Some Returns) first_due
       = Some (second_created_late, (Some 1%nat, None))
     ∧ (stopChan <$> (obj <$> heap second_created_late !! 0%nat))
       = Some {| cap := 1; buf := [true] |}
     ∧ exec_all fire_0 second_created_late = Some first_fired
     ∧ events first_fired = [Invoked 0]).
Proof. repeat apply conj; vm_compute; reflexivity. Qed.

End TimerSpec.

(** * Properties of the authenticated client *)

Module ClientSpec.
Import adguardapi.

Section Client.
Context `{W : World}.

(** Unfolding of the calls and of the monad. *)
Ltac run :=
  unfold Authenticate, DoAuthenticatedRequest, InitHTTPClient,
    httpClient_Do, jar_Cookies_of, bind, modify, get, ret, panic;
  simpl.

(** Case analysis along the body of [Authenticate]. *)
Ltac auth_cases s b :=
  run;
  destruct (httpClient s) as [?jar|] eqn:?Hclient; simpl;
  [| destruct cookiejar_New as [?jar|?e] eqn:?Hnew; simpl;
     unfold bind, modify, ret; simpl ];
  try (destruct json_Marshal as [?data|?e] eqn:?Hjson; simpl);
  try (destruct http_NewRequest as [?req|?e] eqn:?Hreq; simpl);
  try rewrite ?Hclient; simpl;
  try (destruct Do_ as [[[?resp|?e] ?jar] ?n] eqn:?Hdo; simpl);
  try (destruct (StatusCode _ =? 200)%Z eqn:?Hstatus; simpl);
  try (destruct (Body _) as [?body|?e] eqn:?Hbody; simpl);
  try (destruct (url_Parse b) as [?pu|?e] eqn:?Hparse; simpl);
  try (destruct (length _ =? 0)%nat eqn:?Hcookies; simpl).

(** One call of [Authenticate] is recorded once, and performs at most one
    exchange. *)
Lemma Authenticate_trace b u p s :
  ∃ tr, trace (Authenticate b u p s).1
        = tr ++ EvAuthenticate b u p :: trace s
        ∧ (tr = [] ∨ ∃ req, tr = [EvDo req]).
Proof.
  auth_cases s b;
    first [ by exists []; eauto | by eexists [_]; eauto ].
Qed.

(** The triple is written on the successful return and nowhere else. *)
Lemma Authenticate_credentials b u p s :
  ((Authenticate b u p s).2 ≠ Returned None →
   credentials (Authenticate b u p s).1 = credentials s)
  ∧ ((Authenticate b u p s).2 = Returned None →
     credentials (Authenticate b u p s).1 = (b, u, p)).
Proof. auth_cases s b; split; intros; done. Qed.

(** A successful [Authenticate] leaves a client whose jar has a cookie
    for the base URL. *)
Lemma Authenticate_success b u p s :
  (Authenticate b u p s).2 = Returned None →
  ∃ jar pu, httpClient (Authenticate b u p s).1 = Some jar
            ∧ url_Parse b = ok pu
            ∧ jar_Cookies jar pu ≠ [].
Proof.
  auth_cases s b; intros; try done;
    (eexists _, _; split; [reflexivity|]; split; [reflexivity|];
     intros E; rewrite E in *; done).
Qed.

(** [Authenticate] once its client, its request and the outcome of
    the exchange are known. *)
Lemma Authenticate_unfold b u p s jar req :
  client_of s = Some jar → login_request b u p = Some req →
  Authenticate b u p s =
    let '(r, jar', n') := exchange req jar (net s) in
    let s1 := exchanged req jar' n' (add_event (EvAuthenticate b u p) s) in
    match r with
    | err e => (s1, Returned (Some e))
    | ok resp =>
        if negb (StatusCode resp =? 200)%Z then
          (s1, Returned (Some ("authentication failed with status: "
                               +:+ Status resp)))
        else
          match Body resp, url_Parse b with
          | err e, _ => (s1, Returned (Some e))
          | ok _, err _ => (s1, Panicked "nil pointer dereference")
          | ok _, ok pu =>
              if (length (jar_Cookies jar' pu) =? 0)%nat then
                (s1, Returned
                       (Some "no cookies received from authentication"))
              else (set_credentials b u p s1, Returned None)
          end
    end.
Proof.
  unfold client_of, login_request, exchange, exchanged.
  intros Hjar Hreq. run.
  destruct (json_Marshal _) as [data|]; [|done].
  destruct (http_NewRequest _ _ _) as [req0|] eqn:Hreq0; [|done].
  injection Hreq as <-.
  destruct (httpClient s) as [jar0|] eqn:Hclient; simpl.
  - injection Hjar as ->. rewrite Hclient. simpl.
    destruct Do_ as [[[resp|e] jar'] n']; simpl; [|done].
    destruct (StatusCode resp =? 200)%Z; simpl; [|done].
    destruct (Body resp); simpl; [|done].
    destruct (url_Parse b); simpl; [|done].
    by destruct (length _ =? 0)%nat.
  - destruct cookiejar_New as [jar0|]; [|done]. injection Hjar as ->.
    simpl. unfold bind, modify, ret. simpl.
    destruct Do_ as [[[resp|e] jar'] n']; simpl; [|done].
    destruct (StatusCode resp =? 200)%Z; simpl; [|done].
    destruct (Body resp); simpl; [|done].
    destruct (url_Parse b); simpl; [|done].
    by destruct (length _ =? 0)%nat.
Qed.

(** C5.  For every call of [Authenticate], from every state:
    - if the call does not return nil (it returns an error, or panics),
      the stored triple is what it was;
    - if it returns nil, the stored triple is the one passed in, and the
      jar holds at least one cookie for the base URL;
    - when the exchange with the login endpoint fails in the transport,
      the call returns that error; when it yields a status other than
      200, the call returns "authentication failed with status: ...";
      when it yields status 200 with a readable body and the jar then has
      no cookie for the base URL, the call returns "no cookies received
      from authentication". *)
Theorem Authenticate_failure_keeps_credentials b u p s :
  ((Authenticate b u p s).2 ≠ Returned None →
   credentials (Authenticate b u p s).1 = credentials s)
  ∧ ((Authenticate b u p s).2 = Returned None →
     credentials (Authenticate b u p s).1 = (b, u, p)
     ∧ ∃ jar pu, httpClient (Authenticate b u p s).1 = Some jar
                 ∧ url_Parse b = ok pu
                 ∧ jar_Cookies jar pu ≠ [])
  ∧ (∀ jar req r jar' n',
       client_of s = Some jar → login_request b u p = Some req →
       exchange req jar (net s) = (r, jar', n') →
       match r with
       | err e => (Authenticate b u p s).2 = Returned (Some e)
       | ok resp =>
           if negb (StatusCode resp =? 200)%Z then
             (Authenticate b u p s).2
             = Returned (Some ("authentication failed with status: "
                               +:+ Status resp))
           else
             ∀ body pu, Body resp = ok body → url_Parse b = ok pu →
                        jar_Cookies jar' pu = [] →
                        (Authenticate b u p s).2
                        = Returned
                            (Some "no cookies received from authentication")
       end).
Proof.
  split; [apply Authenticate_credentials|].
  split.
  { intros Hok. split; [by apply Authenticate_credentials|].
    by apply Authenticate_success. }
  intros jar req r jar' n' Hjar Hreq Hex.
  rewrite (Authenticate_unfold _ _ _ _ _ _ Hjar Hreq), Hex. simpl.
  destruct r as [resp|e]; [|done].
  destruct (StatusCode resp =? 200)%Z; simpl; [|done].
  intros body pu -> -> ->. done.
Qed.

(** C6.  For every request whose first exchange yields a response with
    status 401 or 403 while the base URL, the user name or the password
    stored is empty: the call returns the error "authentication required
    but no credentials available" right after that exchange; the record of
    calls grows by this one exchange only, so [Authenticate] is not called
    and the request is not sent again. *)
Theorem DoAuthenticatedRequest_without_credentials req s jar resp jar' n' :
  client_of s = Some jar →
  exchange req jar (net s) = (ok resp, jar', n') →
  isAuthError (StatusCode resp) = true →
  canReauthenticate s = false →
  DoAuthenticatedRequest req s
  = (exchanged req jar' n' s,
     Returned (None,
               Some "authentication required but no credentials available"))
  ∧ trace (DoAuthenticatedRequest req s).1 = EvDo req :: trace s.
Proof.
  unfold client_of, exchange, exchanged, canReauthenticate.
  intros Hjar Hex Hauth Hno.
  assert (DoAuthenticatedRequest req s
          = (add_event (EvDo req) (set_net n' (set_httpClient (Some jar') s)),
             Returned (None,
               Some "authentication required but no credentials available")))
    as ->; [|done].
  run. destruct (httpClient s) as [jar0|] eqn:Hclient; simpl.
  - injection Hjar as ->. rewrite Hclient. simpl. rewrite Hex. simpl.
    rewrite Hauth. unfold canReauthenticate. simpl. by rewrite Hno.
  - destruct cookiejar_New as [jar0|]; [|done]. injection Hjar as ->.
    simpl. unfold bind, modify, ret. simpl. rewrite Hex. simpl.
    rewrite Hauth. unfold canReauthenticate. simpl. by rewrite Hno.
Qed.

(** [DoAuthenticatedRequest] up to the answer to its first attempt. *)
Lemma DoAuthenticatedRequest_unfold req s jar resp jar' n' :
  client_of s = Some jar →
  exchange req jar (net s) = (ok resp, jar', n') →
  isAuthError (StatusCode resp) = true →
  canReauthenticate s = true →
  DoAuthenticatedRequest req s =
    let s1 := exchanged req jar' n' s in
    match Authenticate (authBaseURL s) (authUsername s) (authPassword s) s1
    with
    | (s2, Panicked v) => (s2, Panicked v)
    | (s2, Returned (Some e)) => (s2, Returned (None, Some e))
    | (s2, Returned None) =>
        match httpClient_Do req s2 with
        | (s3, Panicked v) => (s3, Panicked v)
        | (s3, Returned (err e)) => (s3, Returned (None, Some e))
        | (s3, Returned (ok resp2)) => (s3, Returned (Some resp2, None))
        end
    end.
Proof.
  unfold client_of, exchange, exchanged.
  intros Hjar Hex Hauth Hcan.
  unfold DoAuthenticatedRequest, InitHTTPClient, bind at 1 2 3 4, get, ret.
  destruct (httpClient s) as [jar0|] eqn:Hclient; simpl.
  - injection Hjar as ->.
    unfold httpClient_Do at 1, bind, get, modify, ret. simpl.
    rewrite Hclient, Hex. simpl. rewrite Hauth.
    assert (canReauthenticate (add_event (EvDo req) (set_net n' (set_httpClient (Some jar') s))) = true) as -> by done.
    simpl.
    destruct (Authenticate _ _ _ _) as [s2 [[e|]|v]]; try done.
    destruct (httpClient_Do req s2) as [s3 [[resp2|e]|v]]; done.
  - destruct cookiejar_New as [jar0|]; [|done]. injection Hjar as ->.
    simpl. unfold httpClient_Do at 1, bind, get, modify, ret. simpl.
    rewrite Hex. simpl. rewrite Hauth.
    assert (canReauthenticate (add_event (EvDo req) (set_net n' (set_httpClient (Some jar') (set_httpClient (Some jar) s)))) = true) as -> by done.
    simpl.
    destruct (Authenticate _ _ _ _) as [s2 [[e|]|v]]; try done.
    destruct (httpClient_Do req s2) as [s3 [[resp2|e]|v]]; done.
Qed.


Lemma count_Authenticate_app tr1 tr2 :
  count_Authenticate (tr1 ++ tr2)
  = (count_Authenticate tr1 + count_Authenticate tr2)%nat.
Proof. unfold count_Authenticate. by rewrite filter_app, length_app. Qed.

Lemma count_Authenticate_EvDo req tr :
  count_Authenticate (EvDo req :: tr) = count_Authenticate tr.
Proof. unfold count_Authenticate. by rewrite filter_cons_False. Qed.

Lemma count_Authenticate_after b u p s :
  count_Authenticate (trace (Authenticate b u p s).1)
  = S (count_Authenticate (trace s)).
Proof.
  destruct (Authenticate_trace b u p s) as (tr & -> & Htr).
  rewrite count_Authenticate_app.
  by destruct Htr as [->|[req ->]].
Qed.

(** C2.  For every request whose first exchange yields a response with
    status 401 or 403 while credentials are stored: [Authenticate] is
    entered exactly once, with the stored triple, in the state the first
    exchange leaves.  If it returns an error, the call returns that error
    in the state [Authenticate] leaves, without sending anything more
    (and if it panics, so does the call).  If it returns nil, the request
    goes through exactly one more exchange, and the call returns what that
    exchange yields, response or error, whatever the status. *)
Theorem DoAuthenticatedRequest_reauthenticates_once
    req s jar resp jar' n' :
  client_of s = Some jar →
  exchange req jar (net s) = (ok resp, jar', n') →
  isAuthError (StatusCode resp) = true →
  canReauthenticate s = true →
  let s1 := exchanged req jar' n' s in
  let a := Authenticate (authBaseURL s) (authUsername s) (authPassword s)
             s1 in
  let out := DoAuthenticatedRequest req s in
  count_Authenticate (trace out.1) = S (count_Authenticate (trace s))
  ∧ match a.2 with
    | Returned (Some e) =>
        out = (a.1, Returned (None, Some e))
    | Panicked v =>
        out = (a.1, Panicked v)
    | Returned None =>
        ∃ jar2, httpClient a.1 = Some jar2 ∧
          let '(r2, jar3, n3) := exchange req jar2 (net a.1) in
          out = (exchanged req jar3 n3 a.1,
                 Returned match r2 with
                          | ok resp2 => (Some resp2, None)
                          | err e => (None, Some e)
                          end)
    end.
Proof.
  intros Hjar Hex Hauth Hcan s1 a out.
  assert (Hcount : count_Authenticate (trace a.1)
                   = S (count_Authenticate (trace s))).
  { subst a s1. rewrite count_Authenticate_after. unfold exchanged.
    simpl. by rewrite count_Authenticate_EvDo. }
  pose proof (DoAuthenticatedRequest_unfold _ _ _ _ _ _ Hjar Hex Hauth Hcan)
    as Hout.
  pose proof (Authenticate_success (authBaseURL s) (authUsername s)
                (authPassword s) s1) as Hsucc.
  fold a in Hsucc. fold out in Hout. simpl in Hout. fold s1 a in Hout.
  destruct a as [s2 [[e|]|v]] eqn:Ha; simpl in *.
  - by rewrite Hout.
  - destruct Hsucc as (jar2 & pu & Hjar2 & _); [done|].
    assert (out.1 = exchanged req (exchange req jar2 (net s2)).1.2
                              (exchange req jar2 (net s2)).2 s2
            ∧ out.2 = Returned
                        match (exchange req jar2 (net s2)).1.1 with
                        | ok resp2 => (Some resp2, None)
                        | err e => (None, Some e)
                        end) as [Hst Hres].
    { rewrite Hout. unfold httpClient_Do, bind, get, modify, ret. simpl.
      rewrite Hjar2. unfold exchange, exchanged.
      by destruct Do_ as [[[resp2|e] jar3] n3]. }
    split.
    + rewrite Hst. unfold exchanged. simpl.
      by rewrite count_Authenticate_EvDo.
    + exists jar2. split; [done|].
      destruct (exchange req jar2 (net s2)) as [[r2 jar3] n3].
      simpl in *. destruct out. simpl in *. by subst.
  - by rewrite Hout.
Qed.

(** C10.  In the state [init] builds from an environment in which
    [authBaseURL], [authUsername] and [authPassword] are all non-empty,
    [Authenticate] has never been called, and yet credentials count as
    stored: a request whose first exchange yields status 401 or 403 makes
    [DoAuthenticatedRequest] call [Authenticate] with the triple of the
    environment, and the call does not end as it does without
    credentials. *)
Theorem init_credentials_enable_reauthentication
    getenv n req jar resp jar' n' :
  getenv "authBaseURL" ≠ "" → getenv "authUsername" ≠ "" →
  getenv "authPassword" ≠ "" →
  cookiejar_New = ok jar →
  exchange req jar n = (ok resp, jar', n') →
  isAuthError (StatusCode resp) = true →
  let s := init getenv n in
  let out := DoAuthenticatedRequest req s in
  count_Authenticate (trace s) = 0%nat
  ∧ canReauthenticate s = true
  ∧ EvAuthenticate (getenv "authBaseURL") (getenv "authUsername")
                   (getenv "authPassword") ∈ trace out.1
  ∧ out ≠ (exchanged req jar' n' s,
           Returned
             (None,
              Some "authentication required but no credentials available")).
Proof.
  intros Hb Hu Hp Hnew Hex Hauth s out.
  assert (Hcan : canReauthenticate s = true).
  { unfold canReauthenticate. simpl.
    apply String.eqb_neq in Hb, Hu, Hp. by rewrite Hb, Hu, Hp. }
  assert (Hjar : client_of s = Some jar).
  { unfold client_of. simpl. by rewrite Hnew. }
  split; [done|]. split; [done|].
  pose proof (DoAuthenticatedRequest_unfold req s _ _ _ _ Hjar Hex Hauth Hcan)
    as Hout. fold out in Hout. simpl in Hout.
  destruct (Authenticate_trace (getenv "authBaseURL")
              (getenv "authUsername") (getenv "authPassword")
              (exchanged req jar' n' s)) as (tr & Htr & _).
  assert (Hin : EvAuthenticate (getenv "authBaseURL")
                  (getenv "authUsername") (getenv "authPassword")
                ∈ trace out.1).
  { rewrite Hout.
    destruct (Authenticate _ _ _ _) as [s2 [[e|]|v]]; simpl in *;
      try (rewrite Htr; apply elem_of_app; right; by left).
    unfold httpClient_Do, bind, get, modify, ret, panic. simpl.
    destruct (httpClient s2); simpl.
    - destruct Do_ as [[[resp2|e] jar3] n3]; simpl;
        right; rewrite Htr; apply elem_of_app; right; by left.
    - rewrite Htr; apply elem_of_app; right; by left. }
  split; [done|].
  intros E. rewrite E in Hin. simpl in Hin.
  apply elem_of_cons in Hin as [Hin|Hin]; [done|].
  by apply elem_of_nil in Hin.
Qed.

End Client.

(** The login answers 200 and sets no cookie: the call fails and the
    triple of the environment stays. *)
Lemma Authenticate_failure_keeps_credentials_witness :
  (Authenticate "http://other.lan" "root" "hunter2" login_without_cookie).2
  = Returned (Some "no cookies received from authentication")
  ∧ credentials
      (Authenticate "http://other.lan" "root" "hunter2"
         login_without_cookie).1
    = ("http://adguard.lan", "admin", "secret").
Proof.
  destruct (@Authenticate_failure_keeps_credentials scripted
              "http://other.lan" "root" "hunter2" login_without_cookie)
    as (Hkeep & _ & Hcases).
  specialize (Hcases [] _ (ok resp_200) [] [] eq_refl eq_refl eq_refl).
  pose proof (Hcases "OK" "http://other.lan" eq_refl eq_refl eq_refl) as H.
  split; [exact H|].
  rewrite Hkeep; [reflexivity|].
  intros E. rewrite E in H. discriminate H.
Defined.

(** A 403 with nothing stored: one exchange, then the error. *)
Lemma DoAuthenticatedRequest_without_credentials_witness :
  DoAuthenticatedRequest get_blocked refused_without_credentials
  = (exchanged get_blocked [] [(ok resp_200, [session])]
       refused_without_credentials,
     Returned (None,
               Some "authentication required but no credentials available"))
  ∧ trace (DoAuthenticatedRequest get_blocked
             refused_without_credentials).1
    = [EvDo get_blocked].
Proof.
  apply (@DoAuthenticatedRequest_without_credentials scripted get_blocked
           refused_without_credentials [] resp_403);
    reflexivity.
Defined.

(** A 401, a successful login, and a 403 for the resent request, which is
    what the caller gets. *)
Lemma DoAuthenticatedRequest_reauthenticates_once_witness :
  count_Authenticate
    (trace (DoAuthenticatedRequest get_blocked expired_twice).1) = 1%nat
  ∧ (DoAuthenticatedRequest get_blocked expired_twice).2
    = Returned (Some resp_403, None).
Proof.
  pose proof (@DoAuthenticatedRequest_reauthenticates_once scripted
                get_blocked expired_twice [] resp_401 []
                [(ok resp_200, [session]); (ok resp_403, [])]
                eq_refl eq_refl eq_refl eq_refl) as [Hcount Hres].
  split; [exact Hcount|].
  destruct Hres as (jar2 & Hjar2 & Hout).
  injection Hjar2 as <-. exact (f_equal snd Hout).
Defined.

(** The credentials of the environment are used on the first 401. *)
Lemma init_credentials_enable_reauthentication_witness :
  count_Authenticate (trace expired_twice) = 0%nat
  ∧ canReauthenticate expired_twice = true
  ∧ EvAuthenticate "http://adguard.lan" "admin" "secret"
    ∈ trace (DoAuthenticatedRequest get_blocked expired_twice).1
  ∧ DoAuthenticatedRequest get_blocked expired_twice
    ≠ (exchanged get_blocked []
         [(ok resp_200, [session]); (ok resp_403, [])] expired_twice,
       Returned
         (None,
          Some "authentication required but no credentials available")).
Proof.
  apply (@init_credentials_enable_reauthentication scripted env_set
           [(ok resp_401, []); (ok resp_200, [session]); (ok resp_403, [])]
           get_blocked [] resp_401 []
           [(ok resp_200, [session]); (ok resp_403, [])]);
    first [ discriminate | reflexivity ].
Defined.

End ClientSpec.

(** * More properties of the timer registry *)

Module TimerExtra.
Import time timer timer_runs TimerSpec.

Lemma exec_prims a s s' : exec a s = Some s' → rtc prim s s'.
Proof.
  destruct a as [d|t0 b|id' d e cb|i|t0|id'|]; simpl.
  - case_match eqn:Hd; [|done]. intros [= <-]. apply rtc_once.
    constructor. lia.
  - intros H. apply rtc_once. by econstructor.
  - intros [= <-]. unfold createTimer_enter.
    destruct (timers s !! id'); apply rtc_once; constructor.
  - unfold creator_step. destruct (creators s !! i) as [cr|]; [|done]. simpl.
    destruct (c_stage cr) as [ex|].
    + destruct (Stop ex s) as [s1|] eqn:HS; [|done]. simpl. intros [= <-].
      eapply rtc_l; [by eapply prim_stop|]. apply rtc_once. constructor.
    + intros [= <-]. eapply rtc_l; [apply prim_install|].
      apply rtc_once. constructor.
  - intros H. apply rtc_once. by econstructor.
  - unfold StopTimer. destruct (timers s !! id') as [t0|]; simpl.
    + destruct (Stop t0 s) as [s1|] eqn:HS; [|done]. simpl.
      intros [= <-]. apply rtc_once. by econstructor.
    + intros [= <-]. apply rtc_refl.
  - unfold StopAllTimers. generalize ((map_to_list (timers s)).*2).
    intros l. revert s. induction l as [|t0 l IH]; simpl; intros s.
    + intros [= <-]. apply rtc_refl.
    + destruct (Stop t0 s) as [s1|] eqn:H1; simpl.
      * intros Hf. eapply rtc_l; [by eapply prim_stop|]. by apply IH.
      * by rewrite foldl_Stop_None.
Qed.

Lemma steps_prims s s' : steps s s' → rtc prim s s'.
Proof.
  induction 1 as [|s1 s2 s3 [a Ha] _ IH]; [apply rtc_refl|].
  etrans; [by eapply exec_prims|done].
Qed.

(** An invariant of the primitive changes is one of the process. *)
Lemma prim_invariant (P : State → Prop) s s' :
  (∀ s1 s2, prim s1 s2 → P s1 → P s2) → steps s s' → P s → P s'.
Proof.
  intros Hp Hs%steps_prims. induction Hs; eauto.
Qed.


(** *** What a handle shows never goes back *)

Lemma handle_le_refl c : handle_le c c.
Proof. by repeat split. Qed.

Lemma prim_handle s s' t c :
  prim s s' → heap s !! t = Some c →
  ∃ c', heap s' !! t = Some c' ∧ handle_le c c'.
Proof.
  intros Hp Hc.
  assert (Hlt : (t < length (heap s))%nat) by by eapply lookup_lt_Some.
  destruct Hp as [d Hd|t0 b s' Hrun|t0 s' HS|id_ d e cb|cs].
  - exists c. split; [done|apply handle_le_refl].
  - unfold run_step in Hrun.
    destruct (heap s !! t0) as [c0|] eqn:Hc0; [|done]. simpl in Hrun.
    destruct (decide (t0 = t)) as [->|Hne].
    + assert (c0 = c) as -> by congruence.
      destruct (pc c) eqn:Hpc; run_step_cases Hrun;
        (eexists; split; [simpl; by apply list_lookup_insert_eq|]);
        repeat split; simpl; try done; try congruence.
      unfold chan_recv in *.
      by destruct (buf (stopChan (obj c))); simplify_eq.
    + exists c. split; [|apply handle_le_refl].
      destruct (pc c0) eqn:Hpc; run_step_cases Hrun; simpl;
        by rewrite list_lookup_insert_ne.
  - apply Stop_effect in HS as (c0 & ch & Hc0 & -> & Hcap & Hkeep & _).
    rewrite lookup_set_cell by by eapply lookup_lt_Some.
    case_decide; [|exists c; split; [done|apply handle_le_refl]].
    subst t0. assert (c0 = c) as -> by congruence.
    eexists. split; [done|]. by repeat split.
  - exists c. simpl. rewrite lookup_app_l by done.
    split; [done|apply handle_le_refl].
  - exists c. split; [done|apply handle_le_refl].
Qed.

Lemma handle_le_trans c1 c2 c3 :
  handle_le c1 c2 → handle_le c2 c3 → handle_le c1 c3.
Proof.
  intros (?&?&?&?&?&?) (?&?&?&?&?&?). repeat split; try congruence; auto.
Qed.

Lemma steps_handle s s' t c :
  steps s s' → heap s !! t = Some c →
  ∃ c', heap s' !! t = Some c' ∧ handle_le c c'.
Proof.
  intros Hs%steps_prims. revert c.
  induction Hs as [|s1 s2 s3 Hp _ IH]; intros c Hc.
  - exists c. split; [done|apply handle_le_refl].
  - destruct (prim_handle _ _ _ _ Hp Hc) as (c2 & Hc2 & Hle).
    destruct (IH _ Hc2) as (c3 & Hc3 & Hle').
    exists c3. split; [done|]. by eapply handle_le_trans.
Qed.

(** X1.  Along every run of the process a handle stays valid, [GetID] and
    [GetExpireTime] keep their values, and a Timer that is inactive stays
    inactive. *)
Theorem handle_is_stable s s' t i e :
  steps s s' → GetID t s = Some i → GetExpireTime t s = Some e →
  GetID t s' = Some i ∧ GetExpireTime t s' = Some e
  ∧ (IsActive t s = Some false → IsActive t s' = Some false).
Proof.
  unfold GetID, GetExpireTime, IsActive. intros Hs Hi He.
  destruct (heap s !! t) as [c|] eqn:Hc; [|done]. simpl in *.
  destruct (steps_handle _ _ _ _ Hs Hc) as (c' & -> & Hid & Hex & _ & _ & Ha & _).
  simpl. simplify_eq. repeat split; try congruence.
  intros [= Hf]. by rewrite Ha.
Qed.

(** *** The registry maps an id to a Timer of that id *)

Lemma registry_ids_prim s s' : prim s s' → registry_ids s → registry_ids s'.
Proof.
  intros Hp Hr.
  assert (Hkeep : ∀ k t, GetID t s = Some k → GetID t s' = Some k).
  { intros k t. unfold GetID.
    destruct (heap s !! t) as [c|] eqn:Hc; [|done]. simpl. intros [= <-].
    destruct (prim_handle _ _ _ _ Hp Hc) as (c' & -> & Hid & _). simpl.
    by rewrite Hid. }
  assert (Hmono : ∀ m : gmap string nat, map_Forall (λ k t, GetID t s = Some k) m →
                       map_Forall (λ k t, GetID t s' = Some k) m).
  { intros m Hm. eapply map_Forall_impl; [exact Hm|]. simpl. auto. }
  unfold registry_ids in *.
  destruct Hp as [d Hd|t0 b s' Hrun|t0 s' HS|id_ d e cb|cs]; simpl.
  - by apply Hmono.
  - unfold run_step in Hrun.
    destruct (heap s !! t0) as [c0|] eqn:Hc0; [|done]. simpl in Hrun.
    assert (timers s' = timers s ∨ ∃ k, timers s' = delete k (timers s))
      as [->|[k ->]].
    { destruct (pc c0) eqn:Hpc; run_step_cases Hrun; simpl; eauto. }
    + by apply Hmono.
    + apply map_Forall_delete. by apply Hmono.
  - assert (timers s' = timers s) as ->.
    { by apply Stop_effect in HS as (c0 & ch & _ & -> & _). }
    by apply Hmono.
  - apply map_Forall_insert_2.
    + unfold GetID. simpl. by rewrite lookup_app_r, Nat.sub_diag.
    + by apply Hmono.
  - by apply Hmono.
Qed.

(** X2.  In every state the process reaches, [GetTimer(id)] finds only a
    Timer whose [GetID()] is [id]. *)
Theorem GetTimer_returns_timer_of_that_id s id_ t :
  steps init s → GetTimer id_ s = (Some t, true) → GetID t s = Some id_.
Proof.
  intros Hs. unfold GetTimer.
  destruct (timers s !! id_) as [t'|] eqn:Hl; [|done]. intros [= <-].
  assert (registry_ids s) as Hr.
  { eapply (prim_invariant registry_ids); [apply registry_ids_prim|done|].
    apply map_Forall_empty. }
  by apply Hr.
Qed.


(** *** Callbacks *)

Lemma invocations_cons t e s :
  invocations t (add_event e s)
  = ((if decide (e = Invoked t) then 1 else 0) + invocations t s)%nat.
Proof.
  unfold invocations. simpl. rewrite filter_cons. by case_decide.
Qed.

Lemma invocations_0 t s : Invoked t ∉ events s → invocations t s = 0%nat.
Proof.
  unfold invocations. intros Hn.
  induction (events s) as [|e l IH]; [done|].
  apply not_elem_of_cons in Hn as [Hne Hn].
  rewrite filter_cons_False by done. auto.
Qed.

Lemma called_once_prim s s' : prim s s' → called_once s → called_once s'.
Proof.
  intros Hp Ho t. destruct (Ho t) as [Hn Hin].
  assert (Hsame : events s' = events s →
          (∀ c, heap s !! t = Some c → (pc c = ExpDelete ∨ pc c = Exited) →
                ∃ c', heap s' !! t = Some c'
                      ∧ (pc c' = ExpDelete ∨ pc c' = Exited)) →
          (invocations t s' ≤ 1)%nat
          ∧ (Invoked t ∈ events s' →
             ∃ c, heap s' !! t = Some c
                  ∧ (pc c = ExpDelete ∨ pc c = Exited))).
  { intros He Hh. unfold invocations. rewrite He. split; [done|].
    intros (c & Hc & Hpc)%Hin. eauto. }
  destruct Hp as [d Hd|t0 b s' Hrun|t0 s' HS|id_ d e cb|cs].
  - apply Hsame; [done|]. eauto.
  - unfold run_step in Hrun.
    destruct (heap s !! t0) as [c0|] eqn:Hc0; [|done]. simpl in Hrun.
    assert (Hlt : (t0 < length (heap s))%nat) by by eapply lookup_lt_Some.
    destruct (decide (t0 = t)) as [->|Hne].
    + destruct (pc c0) eqn:Hpc; run_step_cases Hrun;
        try (apply Hsame; [done|]; intros cx Hcx [Hp|Hp];
             (assert (cx = c0) as -> by congruence);
             first [ congruence
                   | eexists; split; [simpl; by apply list_lookup_insert_eq|];
                     simpl; auto; fail ]).
      * assert (Invoked t ∉ events s) as Hnot.
        { intros (cx & Hcx & [Hp|Hp])%Hin; congruence. }
        rewrite invocations_cons, decide_True by done.
        rewrite invocations_0 by done. split; [simpl; lia|]. intros _.
        eexists. split; [simpl; by apply list_lookup_insert_eq|]. simpl. auto.
      * assert (Invoked t ∉ events s) as Hnot.
        { intros (cx & Hcx & [Hp|Hp])%Hin; congruence. }
        rewrite invocations_cons, decide_False by done.
        rewrite invocations_cons, decide_True by done.
        rewrite invocations_0 by done. split; [simpl; lia|]. intros _.
        eexists. split; [simpl; by apply list_lookup_insert_eq|]. simpl. auto.
    + assert (heap s' !! t = heap s !! t) as Hh.
      { destruct (pc c0) eqn:Hpc; run_step_cases Hrun; simpl;
          by rewrite list_lookup_insert_ne. }
      assert (invocations t s' = invocations t s
              ∧ (Invoked t ∈ events s' → Invoked t ∈ events s)) as [Hi Hm].
      { destruct (pc c0) eqn:Hpc; run_step_cases Hrun; simpl;
          rewrite ?invocations_cons; try done;
          rewrite ?decide_False by congruence; (split; [done|]);
          rewrite ?elem_of_cons; intuition congruence. }
      rewrite Hi, Hh. split; [done|]. intros Hx. auto.
  - pose proof HS as HS'.
    apply Stop_effect in HS as (c0 & ch & Hc0 & -> & _).
    apply Hsame; [done|]. intros c Hc Hpc.
    rewrite lookup_set_cell by by eapply lookup_lt_Some.
    case_decide; [|eauto]. subst. assert (c0 = c) as -> by congruence.
    eauto.
  - apply Hsame; [done|]. intros c Hc Hpc. exists c. simpl.
    rewrite lookup_app_l by by eapply lookup_lt_Some. done.
  - apply Hsame; [done|]. eauto.
Qed.

Lemma called_once_init : called_once init.
Proof.
  intros t. split; [unfold invocations; simpl; lia|].
  simpl. by intros ?%elem_of_nil.
Qed.

Lemma called_once_reachable s : steps init s → called_once s.
Proof.
  intros Hs. eapply (prim_invariant called_once);
    [apply called_once_prim | done | apply called_once_init].
Qed.

(** X3.  In every state the process reaches, the callback of a Timer has
    been called at most once. *)
Theorem callback_called_at_most_once s t :
  steps init s → (invocations t s ≤ 1)%nat.
Proof. intros Hs. by apply called_once_reachable. Qed.

Lemma cancelled_prim t s s' : prim s s' → cancelled t s → cancelled t s'.
Proof.
  intros Hp (Hn & c & Hc & Hpc).
  assert (Hlt : (t < length (heap s))%nat) by by eapply lookup_lt_Some.
  destruct Hp as [d Hd|t0 b s' Hrun|t0 s' HS|id_ d e cb|cs].
  - split; [done|]. eauto.
  - unfold run_step in Hrun.
    destruct (heap s !! t0) as [c0|] eqn:Hc0; [|done]. simpl in Hrun.
    destruct (decide (t0 = t)) as [->|Hne].
    + assert (c0 = c) as -> by congruence.
      destruct Hpc as [Hpc|[Hpc|Hpc]]; rewrite Hpc in Hrun; simplify_eq;
        (split; [done|]); eexists;
        (split; [simpl; by apply list_lookup_insert_eq|]); simpl; auto.
    + assert (heap s' !! t = heap s !! t) as Hh.
      { destruct (pc c0) eqn:Hpc0; run_step_cases Hrun; simpl;
          by rewrite list_lookup_insert_ne. }
      split; [|rewrite Hh; eauto].
      destruct (pc c0) eqn:Hpc0; run_step_cases Hrun; simpl; try done;
        rewrite ?not_elem_of_cons; repeat split; try done; congruence.
  - apply Stop_effect in HS as (c0 & ch & Hc0 & -> & _).
    split; [done|]. rewrite lookup_set_cell by by eapply lookup_lt_Some.
    case_decide; [|eauto]. subst. assert (c0 = c) as -> by congruence.
    eauto.
  - split; [done|]. exists c. simpl. by rewrite lookup_app_l.
  - split; [done|]. eauto.
Qed.

(** X4.  Once the goroutine of a Timer has taken the stop request, the
    callback of that Timer is never called. *)
Theorem callback_not_called_after_cancellation s s' t c :
  heap s !! t = Some c → pc c = StopMark → Invoked t ∉ events s →
  steps s s' → Invoked t ∉ events s'.
Proof.
  intros Hc Hpc Hn Hs.
  assert (cancelled t s') as [Hn' _]; [|done].
  eapply (prim_invariant (cancelled t)); [apply cancelled_prim|done|].
  split; [done|]. eauto.
Qed.

Lemma not_before_prim E t s s' :
  prim s s' → not_before E t s → not_before E t s'.
Proof.
  intros Hp (c & Hc & Hcase).
  assert (Hlt : (t < length (heap s))%nat) by by eapply lookup_lt_Some.
  destruct Hp as [d Hd|t0 b s' Hrun|t0 s' HS|id_ d e cb|cs].
  - exists c. split; [done|]. simpl.
    destruct (pc c); try done; try (destruct Hcase; split; [lia|done]);
      try lia. intros Hx. specialize (Hcase Hx). lia.
  - unfold run_step in Hrun.
    destruct (heap s !! t0) as [c0|] eqn:Hc0; [|done]. simpl in Hrun.
    destruct (decide (t0 = t)) as [->|Hne].
    + assert (c0 = c) as -> by congruence.
      destruct (pc c) eqn:Hpc; run_step_cases Hrun;
        (eexists; split; [simpl; by apply list_lookup_insert_eq|]);
        simpl; try done.
      * destruct Hcase. split; [|done]. unfold Add. eauto.
      * destruct Hcase as [(at_ & Hat & Hle) Hn]. split; [|done].
        simplify_eq. lia.
      * by destruct Hcase.
      * by destruct Hcase.
      * intros _. by destruct Hcase.
      * by destruct Hcase.
    + assert (heap s' !! t = heap s !! t ∧ now s' = now s
              ∧ (Invoked t ∈ events s' ↔ Invoked t ∈ events s))
        as (Hh & Hnow & Hev).
      { destruct (pc c0) eqn:Hpc0; run_step_cases Hrun; simpl;
          rewrite list_lookup_insert_ne by done; repeat split; try done;
          rewrite ?elem_of_cons; intros; try tauto;
          repeat match goal with H : _ ∨ _ |- _ => destruct H end;
          (done || congruence). }
      exists c. rewrite Hh, Hnow. split; [done|].
      destruct (pc c); rewrite ?Hev; done.
  - apply Stop_effect in HS as (c0 & ch & Hc0 & -> & _).
    unfold not_before.
    rewrite lookup_set_cell by by eapply lookup_lt_Some.
    case_decide; [|eauto]. subst. assert (c0 = c) as -> by congruence.
    eexists. split; [done|]. simpl. by destruct (pc c).
  - exists c. simpl. rewrite lookup_app_l by done. split; [done|].
    by destruct (pc c).
  - exists c. split; [done|]. by destruct (pc c).
Qed.

Lemma not_before_created id_ d E cb s s1 t :
  called_once s → (E ≤ now s + d)%Z →
  createTimer id_ d E cb s = Some (s1, (Some t, None)) →
  not_before E t s1 ∧ GetExpireTime t s1 = Some E.
Proof.
  intros Ho Hle. unfold createTimer.
  destruct (match timers s !! id_ with
            | Some existingTimer => Stop existingTimer s
            | None => Some s
            end) as [s0|] eqn:H0; [|done]. simpl. intros [= <- <-].
  assert (now s0 = now s ∧ events s0 = events s
          ∧ length (heap s0) = length (heap s)) as (Hnow & Hev & Hlen).
  { destruct (timers s !! id_); [|by simplify_eq].
    pose proof (Stop_heap_length _ _ _ H0).
    by apply Stop_effect in H0 as (c0 & ch & _ & -> & _). }
  unfold GetExpireTime. simpl.
  rewrite lookup_app_r, Nat.sub_diag by done. simpl. split; [|done].
  eexists. split.
  { simpl. rewrite lookup_app_r, Nat.sub_diag by done. reflexivity. }
  simpl. rewrite Hnow, Hev.
  split; [done|]. intros (c & Hc & _)%Ho.
  apply lookup_lt_Some in Hc. lia.
Qed.

(** X5.  The callback of a Timer made by [NewTimerWithDuration], or by
    [NewTimerWithDeadline] with a deadline at most the largest
    [time.Duration] away, is never called while the clock is before
    [GetExpireTime()]. *)
Theorem callback_never_before_expire_time s id_ cb :
  steps init s →
  (∀ minutes s1 t s2 e,
     NewTimerWithDuration id_ minutes cb s = Some (s1, (Some t, None)) →
     GetExpireTime t s1 = Some e →
     steps s1 s2 → Invoked t ∈ events s2 → (e ≤ now s2)%Z)
  ∧ (∀ deadline s1 t s2,
     (deadline - now s ≤ maxInt64)%Z →
     NewTimerWithDeadline id_ deadline cb s = Some (s1, (Some t, None)) →
     GetExpireTime t s1 = Some deadline
     ∧ (steps s1 s2 → Invoked t ∈ events s2 → (deadline ≤ now s2)%Z)).
Proof.
  intros Ho%called_once_reachable.
  assert (Hfinal : ∀ E t s1 s2, not_before E t s1 → steps s1 s2 →
                     Invoked t ∈ events s2 → (E ≤ now s2)%Z).
  { intros E t s1 s2 Hnb Hs Hin.
    assert (not_before E t s2) as (c & Hc & Hcase).
    { eapply (prim_invariant (not_before E t));
        [apply not_before_prim|done|done]. }
    destruct (pc c); try tauto. }
  split.
  - intros minutes s1 t s2 e. unfold NewTimerWithDuration.
    destruct (minutes <=? 0)%Z; [done|]. case_decide; [done|].
    intros Hcr He.
    apply not_before_created in Hcr as [Hnb He']; [|done|unfold Add; lia].
    assert (e = Add (now s) (Duration_mul minutes Minute)) as ->
        by congruence.
    by eapply Hfinal.
  - intros deadline s1 t s2 Hmax. unfold NewTimerWithDeadline, Before.
    destruct (Z.ltb_spec deadline (now s)); [done|]. case_decide; [done|].
    intros Hcr.
    apply not_before_created in Hcr as [Hnb He']; [|done|].
    + split; [done|]. by eapply Hfinal.
    + unfold Until, Sub, minInt64, maxInt64 in *.
      repeat case_match; lia.
Qed.

(** *** Stop requests *)

Lemma chans_ok_prim s s' : prim s s' → chans_ok s → chans_ok s'.
Proof.
  unfold chans_ok. intros Hp Hok. rewrite Forall_lookup in Hok |- *.
  intros t c' Hc'.
  destruct (heap s !! t) as [c|] eqn:Hc.
  - destruct (prim_handle _ _ _ _ Hp Hc) as (c2 & Hc2 & _ & _ & _ & Hcap & _).
    simplify_eq. rewrite Hcap. by eapply Hok.
  - apply lookup_ge_None in Hc.
    destruct Hp as [d Hd|t0 b s' Hrun|t0 s' HS|id_ d e cb|cs];
      try (apply lookup_lt_Some in Hc'; simpl in *; lia).
    + apply lookup_lt_Some in Hc'. unfold run_step in Hrun.
      destruct (heap s !! t0) as [c0|] eqn:Hc0; [|done]. simpl in Hrun.
      destruct (pc c0) eqn:Hpc; run_step_cases Hrun; simpl in *;
        rewrite length_insert in Hc'; lia.
    + apply lookup_lt_Some in Hc'.
      rewrite (Stop_heap_length _ _ _ HS) in Hc'. lia.
    + simpl in Hc'. apply lookup_app_Some in Hc' as [Hl|[_ Hn]].
      * apply lookup_lt_Some in Hl. lia.
      * by apply list_lookup_singleton_Some in Hn as [_ <-].
Qed.

Lemma chans_ok_reachable s : steps init s → chans_ok s.
Proof.
  intros Hs. eapply (prim_invariant chans_ok);
    [apply chans_ok_prim | done | by apply Forall_nil].
Qed.

Lemma only_requests_added_refl s : only_requests_added s s.
Proof.
  repeat split. intros t c Hc. exists c. repeat split; try done.
  apply with_stopChan_same.
Qed.

Lemma only_requests_added_trans s1 s2 s3 :
  only_requests_added s1 s2 → only_requests_added s2 s3 →
  only_requests_added s1 s3.
Proof.
  intros (?&?&?&?&?&H12) (?&?&?&?&?&H23).
  repeat split; try congruence.
  intros t c Hc.
  destruct (H12 _ _ Hc) as (c2 & Hc2 & Hpc2 & Ho2 & Hcap2 & Hb2).
  destruct (H23 _ _ Hc2) as (c3 & Hc3 & Hpc3 & Ho3 & Hcap3 & Hb3).
  exists c3. repeat split; try congruence; [|auto].
  rewrite <- Ho2, <- Ho3. by destruct (obj c3).
Qed.

Lemma Stop_only_requests_added t s s' :
  Stop t s = Some s' → only_requests_added s s'.
Proof.
  intros HS. pose proof (Stop_heap_length _ _ _ HS) as Hlen.
  apply Stop_effect in HS as (c0 & ch & Hc0 & -> & Hcap & Hkeep & _).
  repeat split; try done.
  intros t' c Hc. rewrite lookup_set_cell by by eapply lookup_lt_Some.
  case_decide.
  - subst. assert (c0 = c) as -> by congruence.
    eexists. repeat split; simpl; try done. by destruct (obj c).
  - exists c. repeat split; try done. apply with_stopChan_same.
Qed.

Lemma only_requests_added_IsActive s s' t :
  only_requests_added s s' → IsActive t s' = IsActive t s.
Proof.
  intros (_&_&_&_&Hlen&Hh). unfold IsActive.
  destruct (heap s !! t) as [c|] eqn:Hc.
  - destruct (Hh _ _ Hc) as (c' & -> & _ & Ho & _). simpl.
    by rewrite <- Ho.
  - apply lookup_ge_None in Hc. rewrite lookup_ge_None_2 by lia. done.
Qed.

Lemma only_requests_added_GetAllActiveTimers s s' :
  only_requests_added s s' → GetAllActiveTimers s' = GetAllActiveTimers s.
Proof.
  intros Hr. pose proof Hr as (_&Ht&_). unfold GetAllActiveTimers.
  rewrite Ht. f_equal. apply list_filter_iff. intros [k t]. simpl.
  by rewrite (only_requests_added_IsActive _ _ _ Hr).
Qed.


Lemma foldl_Stop_effect l s :
  Forall (λ t, t < length (heap s))%nat l →
  ∃ s', foldl (λ acc t0, s0 ← acc; Stop t0 s0) (Some s) l = Some s'
        ∧ only_requests_added s s'
        ∧ ∀ t c', t ∈ l → heap s' !! t = Some c' →
                  isActive (obj c') = true →
                  (0 < cap (stopChan (obj c')))%nat →
                  buf (stopChan (obj c')) ≠ [].
Proof.
  revert s. induction l as [|t0 l IH]; intros s Hl; simpl.
  - exists s. split; [done|]. split; [apply only_requests_added_refl|].
    by intros t c' ?%elem_of_nil.
  - apply Forall_cons in Hl as [Hlt Hl].
    destruct (Stop_is_Some t0 s Hlt) as [s1 H1]. rewrite H1. simpl.
    pose proof (Stop_only_requests_added _ _ _ H1) as Hr1.
    destruct (IH s1) as (s' & Hf & Hr & Hreq).
    { pose proof (Stop_heap_length _ _ _ H1) as Hlen.
      eapply Forall_impl; [done|]. simpl. intros; lia. }
    exists s'. split; [done|].
    split; [by eapply only_requests_added_trans|].
    intros t c' [->|Hin]%elem_of_cons Hc' Ha Hcap; [|by eapply Hreq].
    apply Stop_effect in H1 as (c0 & ch & Hc0 & -> & Hcap0 & _ & Hsent).
    destruct Hr as (_&_&_&_&_&Hh).
    destruct (Hh t0 {| obj := with_stopChan ch (obj c0); pc := pc c0 |})
      as (c2 & Hc2 & _ & Ho & Hcap2 & Hb).
    { by rewrite lookup_set_cell, decide_True. }
    assert (c2 = c') as -> by congruence. simpl in *.
    apply Hb, Hsent.
    + apply (f_equal isActive) in Ho. simpl in Ho. congruence.
    + lia.
Qed.

(** X6.  [StopAllTimers] in a state the process has reached returns; it
    posts a stop request to every registered Timer that is active, and
    changes nothing else: the registry, the active flags and hence
    [GetAllActiveTimers()] are what they were, and no callback is
    called. *)
Theorem StopAllTimers_only_posts_requests s :
  steps init s →
  ∃ s', StopAllTimers s = Some s'
        ∧ timers s' = timers s ∧ events s' = events s
        ∧ (∀ t, IsActive t s' = IsActive t s)
        ∧ GetAllActiveTimers s' = GetAllActiveTimers s
        ∧ ∀ id_ t, timers s !! id_ = Some t → IsActive t s = Some true →
                   stop_requested t s' = true.
Proof.
  intros Hs. pose proof (registry_ok_reachable _ Hs) as Hreg.
  pose proof (chans_ok_reachable _ Hs) as Hch.
  unfold StopAllTimers.
  destruct (foldl_Stop_effect ((map_to_list (timers s)).*2) s)
    as (s' & Hf & Hr & Hreq).
  { apply Forall_forall. intros t [[k t'] [-> Hin]]%list_elem_of_fmap.
    apply elem_of_map_to_list in Hin. by eapply Hreg. }
  exists s'. split; [done|]. pose proof Hr as (_&Ht&_&He&_&Hh).
  split; [done|]. split; [done|].
  split; [intros t; by apply only_requests_added_IsActive|].
  split; [by apply only_requests_added_GetAllActiveTimers|].
  intros id_ t Hl Ha. unfold stop_requested.
  unfold IsActive in Ha. destruct (heap s !! t) as [c|] eqn:Hc; [|done].
  simpl in Ha. destruct (Hh _ _ Hc) as (c' & Hc' & _ & Ho & Hcap & _).
  rewrite Hc'. apply bool_decide_eq_true. eapply Hreq; [|done| |].
  - apply list_elem_of_fmap. exists (id_, t). split; [done|].
    by apply elem_of_map_to_list.
  - apply (f_equal isActive) in Ho. simpl in Ho. congruence.
  - rewrite Hcap. unfold chans_ok in Hch. rewrite Forall_lookup in Hch.
    rewrite (Hch _ _ Hc). lia.
Qed.

(** X7.  [StopTimer(id)] for a registered id in a state the process has
    reached returns no error and does what [Stop] on the registered handle
    does: the Timer stays registered and keeps its active flag, so it is
    still listed by [GetAllActiveTimers()]; if it is active, a stop
    request is waiting for its goroutine afterwards. *)
Theorem StopTimer_registered s id_ t :
  steps init s → timers s !! id_ = Some t →
  ∃ s', StopTimer id_ s = Some (s', None)
        ∧ Stop t s = Some s'
        ∧ timers s' = timers s ∧ events s' = events s
        ∧ (∀ t', IsActive t' s' = IsActive t' s)
        ∧ GetAllActiveTimers s' = GetAllActiveTimers s
        ∧ (IsActive t s = Some true → stop_requested t s' = true).
Proof.
  intros Hs Hl. pose proof (registry_ok_reachable _ Hs) as Hreg.
  pose proof (chans_ok_reachable _ Hs) as Hch.
  destruct (Stop_is_Some t s) as [s' HS]; [by eapply Hreg|].
  exists s'. unfold StopTimer. rewrite Hl, HS. simpl.
  pose proof (Stop_only_requests_added _ _ _ HS) as Hr.
  pose proof Hr as (_&Ht&_&He&_&Hh).
  repeat split; try done.
  - intros t'. by apply only_requests_added_IsActive.
  - by apply only_requests_added_GetAllActiveTimers.
  - intros Ha. unfold stop_requested.
    apply Stop_effect in HS as (c0 & ch & Hc0 & -> & Hcap0 & _ & Hsent).
    rewrite lookup_set_cell, decide_True by (by eapply lookup_lt_Some || done).
    apply bool_decide_eq_true. simpl. apply Hsent.
    + unfold IsActive in Ha. rewrite Hc0 in Ha. simpl in Ha. congruence.
    + unfold chans_ok in Hch. rewrite Forall_lookup in Hch. rewrite (Hch _ _ Hc0). lia.
Qed.

(** X8.  [GetAllActiveTimers()] lists an id exactly when the registry maps
    it to a Timer whose active flag is set, and lists it once. *)
Theorem GetAllActiveTimers_exact s :
  NoDup (GetAllActiveTimers s)
  ∧ ∀ id_, id_ ∈ GetAllActiveTimers s ↔
           ∃ t, GetTimer id_ s = (Some t, true) ∧ IsActive t s = Some true.
Proof.
  split.
  - unfold GetAllActiveTimers.
    apply (sublist_NoDup _ ((map_to_list (timers s)).*1)).
    + apply (NoDup_fst_map_to_list (timers s)).
    + apply fmap_sublist, sublist_filter.
  - intros id_. rewrite elem_of_GetAllActiveTimers. unfold GetTimer.
    split.
    + intros (t & -> & Ha). eauto.
    + intros (t & Hg & Ha). destruct (timers s !! id_); simplify_eq. eauto.
Qed.

(** *** A Timer from its creation to its end *)

Lemma exec_all_cons a l s s1 :
  exec a s = Some s1 → exec_all (a :: l) s = exec_all l s1.
Proof. intros H. simpl. by rewrite H. Qed.

(** The goroutine of the cell just written moves. *)
Ltac go :=
  unfold run_step;
  match goal with
  | |- context [heap ?s !! ?t ≫= _] =>
      let H := fresh in
      eassert (heap s !! t = Some _) as H
        by (unfold set_cell, set_heap, set_timers, add_event; simpl;
            apply list_lookup_insert_eq; rewrite ?length_insert; done);
      rewrite H; clear H
  end; simpl.

Lemma createTimer_quiet id_ d e (cb : option Callback) s :
  registry_ok s → quiet id_ s →
  ∃ s0, createTimer id_ d e cb s
        = Some ((createTimer_install id_ d e cb s0).1,
                (Some (length (heap s0)), None))
        ∧ quiet id_ s0 ∧ now s0 = now s ∧ events s0 = events s.
Proof.
  intros Hreg Hq. unfold createTimer.
  destruct (timers s !! id_) as [t0|] eqn:Hl.
  - destruct (Stop_is_Some t0 s) as [s0 H0]; [by eapply Hreg|].
    exists s0. rewrite H0. simpl. split; [done|].
    split; [by eapply quiet_Stop|].
    by apply Stop_effect in H0 as (? & ? & _ & -> & _).
  - exists s. by simpl.
Qed.

(** X9.  For every id, every deadline that is not before the clock and
    every non-nil callback, [NewTimerWithDeadline] in a state where nothing
    is at work on the id succeeds; the handle it returns has that id, is
    active and expires at the deadline itself; and the id is listed by
    [GetAllActiveTimers()] in every later state in which the Timer is
    still waiting. *)
Theorem NewTimerWithDeadline_listed_while_waiting
    (s : State) (id_ : string) (deadline : Time) (cb : Callback) :
  (now s ≤ deadline)%Z → registry_ok s → quiet id_ s →
  ∃ s1 t,
    NewTimerWithDeadline id_ deadline (Some cb) s = Some (s1, (Some t, None))
    ∧ GetID t s1 = Some id_
    ∧ IsActive t s1 = Some true
    ∧ GetExpireTime t s1 = Some deadline
    ∧ ∀ s2, steps s1 s2 → waiting t s2 = true →
            id_ ∈ GetAllActiveTimers s2.
Proof.
  intros Hd Hreg Hq. rewrite NewTimerWithDeadline_not_past by done.
  destruct (createTimer_quiet id_ (Until (now s) deadline) deadline
              (Some cb) s Hreg Hq) as (s0 & -> & Hq0 & _).
  eexists _, _. split; [reflexivity|].
  pose proof (stays_listed_created id_ (Until (now s) deadline) deadline
                (Some cb) s0 Hq0) as Hinv.
  unfold GetID, IsActive, GetExpireTime. simpl.
  rewrite lookup_app_r, Nat.sub_diag by done. simpl.
  split; [done|]. split; [done|]. split; [done|].
  intros s2 Hsteps Hw.
  destruct (stays_listed_steps _ _ _ _ Hsteps Hinv) as (c & Hc & _ & _ & Hrest).
  unfold waiting in Hw. rewrite Hc in Hw.
  destruct (Hrest Hw) as (Ha & Hr & _).
  apply elem_of_GetAllActiveTimers. eexists. split; [done|].
  unfold IsActive. rewrite Hc. simpl. by rewrite Ha.
Qed.

Lemma NewTimerWithDeadline_listed_while_waiting_witness :
  ∃ s1 t,
    NewTimerWithDeadline "reset" (now at_noon + 1)%Z (Some Returns) at_noon
    = Some (s1, (Some t, None))
    ∧ GetID t s1 = Some "reset"
    ∧ IsActive t s1 = Some true
    ∧ GetExpireTime t s1 = Some (now at_noon + 1)%Z
    ∧ ∀ s2, steps s1 s2 → waiting t s2 = true →
            "reset" ∈ GetAllActiveTimers s2.
Proof.
  apply (NewTimerWithDeadline_listed_while_waiting at_noon "reset"
           (now at_noon + 1)%Z Returns).
  - lia.
  - apply (bool_decide_unpack _). vm_compute. exact I.
  - apply (bool_decide_unpack _). vm_compute. exact I.
Defined.

(** X10.  [Stop] on an active Timer whose goroutine waits at the [select]
    and whose runtime timer is not yet due: the goroutine cannot take the
    expiry case, and when it takes the request it marks the Timer inactive
    and deletes the id from the registry without calling the callback,
    which is then never called. *)
Theorem Stop_cancels_waiting_timer s t c at_ :
  heap s !! t = Some c → pc c = AtSelect →
  isActive (obj c) = true → cap (stopChan (obj c)) = 1%nat →
  timer (obj c) = Some at_ → (now s < at_)%Z →
  (Invoked t ∉ events s) →
  ∃ s1 s2, Stop t s = Some s1
    ∧ exec (Go t TimerC) s1 = None
    ∧ exec_all (take_request t) s1 = Some s2
    ∧ IsActive t s2 = Some false
    ∧ timers s2 = delete (id (obj c)) (timers s)
    ∧ (id (obj c) ∉ GetAllActiveTimers s2)
    ∧ ∀ s3, steps s2 s3 → Invoked t ∉ events s3.
Proof.
  intros Hc Hpc Ha Hcap Htm Hnow Hev.
  assert (Hlt : (t < length (heap s))%nat) by by eapply lookup_lt_Some.
  destruct (Stop_is_Some t s Hlt) as [s1 HS]. exists s1.
  pose proof HS as (c0 & ch & Hc0 & -> & Hcap0 & _ & Hsent)%Stop_effect.
  assert (c0 = c) as -> by congruence.
  assert (Hne : buf ch ≠ []) by (apply Hsent; [done|lia]).
  destruct (buf ch) as [|v rest] eqn:Hbuf; [done|].
  eexists. split; [done|]. split.
  { unfold exec. go. rewrite Hpc, Htm.
    destruct (Z.leb_spec at_ (now s)); [lia|done]. }
  assert (Hrun : exec_all (take_request t)
            (set_cell t {| obj := with_stopChan ch (obj c); pc := pc c |} s)
          = Some (set_timers (delete (id (obj c)) (timers s))
                    (set_cell t
                       {| obj := with_isActive false
                                   (with_stopChan
                                      {| cap := cap ch; buf := rest |} (obj c));
                          pc := Exited |} s))).
  { unfold take_request.
    erewrite exec_all_cons;
      [|unfold exec; go; rewrite Hpc; unfold chan_recv; rewrite Hbuf;
        reflexivity].
    erewrite exec_all_cons; [|unfold exec; go; reflexivity].
    erewrite exec_all_cons; [|unfold exec; go; reflexivity].
    unfold set_timers, set_cell, set_heap. simpl.
    by rewrite !list_insert_insert_eq. }
  split; [exact Hrun|].
  split; [unfold IsActive; simpl;
          by rewrite list_lookup_insert_eq by done|].
  split; [done|]. split.
  - rewrite elem_of_GetAllActiveTimers. simpl. intros (t' & Hl & _).
    by rewrite lookup_delete_eq in Hl.
  - intros s3 Hsteps.
    enough (cancelled t s3) as [? _] by done.
    eapply (prim_invariant (cancelled t)); [|exact Hsteps|].
    + intros ???. by apply cancelled_prim.
    + split; [done|]. eexists. simpl.
      split; [by rewrite list_lookup_insert_eq by done|]. simpl. auto.
Qed.

Lemma Stop_cancels_waiting_timer_witness :
  ∃ c, heap first_selecting !! 0%nat = Some c ∧
  ∃ s1 s2, Stop 0 first_selecting = Some s1
    ∧ exec (Go 0 TimerC) s1 = None
    ∧ exec_all (take_request 0) s1 = Some s2
    ∧ IsActive 0 s2 = Some false
    ∧ timers s2 = delete (id (obj c)) (timers first_selecting)
    ∧ (id (obj c) ∉ GetAllActiveTimers s2)
    ∧ ∀ s3, steps s2 s3 → Invoked 0 ∉ events s3.
Proof.
  eexists. split; [vm_compute; reflexivity|].
  eapply (Stop_cancels_waiting_timer first_selecting 0 _ _).
  - vm_compute. reflexivity.
  - reflexivity.
  - reflexivity.
  - reflexivity.
  - vm_compute. reflexivity.
  - vm_compute. reflexivity.
  - apply (bool_decide_unpack _). vm_compute. exact I.
Defined.

(** A Timer just registered, left alone for its duration. *)
Lemma created_expires id_ d e s :
  (0 ≤ d)%Z →
  let t := length (heap s) in
  ∃ s2, exec_all (left_alone t d) (createTimer_install id_ d e (Some Returns) s).1
        = Some s2
    ∧ events s2 = Invoked t :: events s
    ∧ now s2 = (now s + d)%Z
    ∧ IsActive t s2 = Some false
    ∧ timers s2 !! id_ = None.
Proof.
  intros Hd t. unfold left_alone, createTimer_install. simpl fst.
  set (o := {| id := id_; timer := None; callback := Some Returns;
               expireTime := e; isActive := true; stopChan := make_chan 1 |}).
  assert (Hfirst : exec (Go t TimerC)
            (set_timers (<[id_:=t]> (timers s))
               (set_heap (heap s ++ [{| obj := o; pc := AtNewTimer d |}]) s))
          = Some (set_timers (<[id_:=t]> (timers s))
               (set_heap (heap s ++
                            [{| obj := with_timer (Some (Add (now s) d)) o;
                                pc := AtSelect |}]) s))).
  { unfold exec, run_step. simpl.
    rewrite lookup_app_r, Nat.sub_diag by done. simpl.
    unfold set_cell, set_timers, set_heap. simpl. do 2 f_equal.
    rewrite insert_app_r_alt, Nat.sub_diag by done. done. }
  erewrite exec_all_cons by exact Hfirst.
  erewrite exec_all_cons
    by (unfold exec; destruct (Z.leb_spec 0 d); [reflexivity|lia]).
  set (s1 := set_now _ _).
  assert (Hl : ∀ c, heap s1 !! t = Some c → (t < length (heap s1))%nat)
    by (intros c; apply lookup_lt_Some).
  assert (Hc1 : heap s1 !! t
                = Some {| obj := with_timer (Some (Add (now s) d)) o;
                          pc := AtSelect |}).
  { subst s1. simpl. by rewrite lookup_app_r, Nat.sub_diag by done. }
  rewrite <- (set_cell_same t _ s1 Hc1).
  pose proof (Hl _ Hc1) as Hlt.
  erewrite exec_all_cons;
    [|unfold exec; go; unfold Add;
      destruct (Z.leb_spec (now s + d) (now s + d)); [reflexivity|lia]].
  erewrite exec_all_cons; [|unfold exec; go; reflexivity].
  erewrite exec_all_cons; [|unfold exec; go; reflexivity].
  erewrite exec_all_cons; [|unfold exec; go; reflexivity].
  eexists. split; [reflexivity|]. simpl.
  split; [done|]. split; [done|]. split.
  - unfold IsActive. simpl.
    rewrite list_lookup_insert_eq by (by rewrite ?length_insert). done.
  - by rewrite lookup_delete_eq.
Qed.

(** X11.  A Timer whose callback returns, left alone: once its goroutine
    has started the runtime timer and the duration has passed, the
    goroutine calls the callback, exactly at the expire time the handle
    shows, marks the Timer inactive and removes the id from the registry.
    This holds for [NewTimerWithDuration] with a number of minutes that
    fits, and for [NewTimerWithDeadline] with a deadline whose distance
    fits a [Duration]. *)
Theorem timer_left_alone_expires s id_ :
  registry_ok s →
  (∀ minutes, (0 < minutes)%Z → (minutes * Minute ≤ maxInt64)%Z →
     ∃ s1 t s2 e,
       NewTimerWithDuration id_ minutes (Some Returns) s
       = Some (s1, (Some t, None))
       ∧ GetExpireTime t s1 = Some e
       ∧ exec_all (left_alone t (minutes * Minute)%Z) s1 = Some s2
       ∧ events s2 = Invoked t :: events s
       ∧ now s2 = e
       ∧ IsActive t s2 = Some false
       ∧ GetTimer id_ s2 = (None, false))
  ∧ (∀ deadline, (now s ≤ deadline)%Z → (deadline - now s ≤ maxInt64)%Z →
     ∃ s1 t s2,
       NewTimerWithDeadline id_ deadline (Some Returns) s
       = Some (s1, (Some t, None))
       ∧ GetExpireTime t s1 = Some deadline
       ∧ exec_all (left_alone t (deadline - now s)%Z) s1 = Some s2
       ∧ events s2 = Invoked t :: events s
       ∧ now s2 = deadline
       ∧ IsActive t s2 = Some false
       ∧ GetTimer id_ s2 = (None, false)).
Proof.
  intros Hreg.
  assert (Hcreate : ∀ d e, ∃ s0,
             createTimer id_ d e (Some Returns) s
             = Some ((createTimer_install id_ d e (Some Returns) s0).1,
                     (Some (length (heap s0)), None))
             ∧ now s0 = now s ∧ events s0 = events s).
  { intros d e. unfold createTimer.
    destruct (timers s !! id_) as [t0|] eqn:Hl.
    - destruct (Stop_is_Some t0 s) as [s0 H0]; [by eapply Hreg|].
      exists s0. rewrite H0. simpl. split; [done|].
      by apply Stop_effect in H0 as (? & ? & _ & -> & _).
    - exists s. by simpl. }
  split.
  - intros minutes Hpos Hmax. unfold NewTimerWithDuration.
    destruct (Z.leb_spec minutes 0) as [?|_]; [lia|].
    rewrite decide_False by done.
    unfold Duration_mul. rewrite wrap64_small
      by (unfold minInt64, maxInt64, Minute in *; lia).
    destruct (Hcreate (minutes * Minute)%Z (Add (now s) (minutes * Minute)%Z))
      as (s0 & -> & Hnow & Hev).
    destruct (created_expires id_ (minutes * Minute)%Z
                (Add (now s) (minutes * Minute)%Z) s0)
      as (s2 & Hrun & He2 & Hn2 & Ha2 & Ht2); [unfold Minute; lia|].
    eexists _, _, s2, _. split; [reflexivity|].
    split.
    { unfold GetExpireTime. simpl.
      by rewrite lookup_app_r, Nat.sub_diag by done. }
    split; [done|]. split; [by rewrite He2, Hev|].
    split; [unfold Add; by rewrite Hn2, Hnow|]. split; [done|].
    unfold GetTimer. by rewrite Ht2.
  - intros deadline Hd Hmax. rewrite NewTimerWithDeadline_not_past by done.
    assert (Until (now s) deadline = (deadline - now s)%Z) as ->.
    { unfold Until, Sub, minInt64, maxInt64 in *.
      destruct (Z.ltb_spec (deadline - now s) (- 2 ^ 63)); [lia|].
      destruct (Z.ltb_spec (2 ^ 63 - 1) (deadline - now s)); [lia|done]. }
    destruct (Hcreate (deadline - now s)%Z deadline)
      as (s0 & -> & Hnow & Hev).
    destruct (created_expires id_ (deadline - now s)%Z deadline s0)
      as (s2 & Hrun & He2 & Hn2 & Ha2 & Ht2); [lia|].
    eexists _, _, s2. split; [reflexivity|].
    split.
    { unfold GetExpireTime. simpl.
      by rewrite lookup_app_r, Nat.sub_diag by done. }
    split; [done|]. split; [by rewrite He2, Hev|].
    split; [lia|]. split; [done|].
    unfold GetTimer. by rewrite Ht2.
Qed.

Lemma timer_left_alone_expires_witness :
  (∀ minutes, (0 < minutes)%Z → (minutes * Minute ≤ maxInt64)%Z →
     ∃ s1 t s2 e,
       NewTimerWithDuration "reset" minutes (Some Returns) first_selecting
       = Some (s1, (Some t, None))
       ∧ GetExpireTime t s1 = Some e
       ∧ exec_all (left_alone t (minutes * Minute)%Z) s1 = Some s2
       ∧ events s2 = Invoked t :: events first_selecting
       ∧ now s2 = e
       ∧ IsActive t s2 = Some false
       ∧ GetTimer "reset" s2 = (None, false))
  ∧ (∀ deadline, (now first_selecting ≤ deadline)%Z →
                 (deadline - now first_selecting ≤ maxInt64)%Z →
     ∃ s1 t s2,
       NewTimerWithDeadline "reset" deadline (Some Returns) first_selecting
       = Some (s1, (Some t, None))
       ∧ GetExpireTime t s1 = Some deadline
       ∧ exec_all (left_alone t (deadline - now first_selecting)%Z) s1 = Some s2
       ∧ events s2 = Invoked t :: events first_selecting
       ∧ now s2 = deadline
       ∧ IsActive t s2 = Some false
       ∧ GetTimer "reset" s2 = (None, false)).
Proof.
  apply (timer_left_alone_expires first_selecting "reset").
  apply (bool_decide_unpack _). vm_compute. exact I.
Defined.

(** *** Where a goroutine waits, and a Timer under a taken id *)





(** X13.  A Timer made under an id that is taken.  In every state the
    process reaches, [NewTimerWithDuration] under an id that maps to a
    Timer returns a new handle, different from the old one, and the id
    maps to the new handle; the other ids map to what they did.  The old
    Timer is not made inactive by the call: its [IsActive()] is what it
    was, and if it was active a stop request is waiting for its
    goroutine. *)
Theorem NewTimerWithDuration_replaces s id_ t0 minutes cb :
  steps init s → timers s !! id_ = Some t0 → (0 < minutes)%Z →
  ∃ s1 t,
    NewTimerWithDuration id_ minutes (Some cb) s = Some (s1, (Some t, None))
    ∧ t ≠ t0
    ∧ GetTimer id_ s1 = (Some t, true)
    ∧ (∀ id', id' ≠ id_ → GetTimer id' s1 = GetTimer id' s)
    ∧ IsActive t s1 = Some true
    ∧ IsActive t0 s1 = IsActive t0 s
    ∧ (IsActive t0 s = Some true → stop_requested t0 s1 = true)
    ∧ events s1 = events s.
Proof.
  intros Hs Hl Hpos. pose proof (registry_ok_reachable _ Hs) as Hreg.
  pose proof (chans_ok_reachable _ Hs) as Hch.
  assert (Hlt : (t0 < length (heap s))%nat) by by eapply Hreg.
  unfold NewTimerWithDuration.
  destruct (Z.leb_spec minutes 0) as [?|_]; [lia|].
  rewrite decide_False by done. unfold createTimer. rewrite Hl.
  destruct (Stop_is_Some t0 s Hlt) as [s0 HS]. rewrite HS. simpl.
  eexists _, _. split; [reflexivity|].
  pose proof (Stop_heap_length _ _ _ HS) as Hlen.
  pose proof (Stop_only_requests_added _ _ _ HS) as (_ & Ht & _ & He & _ & Hh).
  split; [lia|]. unfold GetTimer, IsActive, stop_requested. simpl.
  split; [by rewrite lookup_insert_eq|].
  split; [intros id' Hne; by rewrite lookup_insert_ne, Ht by done|].
  split; [by rewrite lookup_app_r, Nat.sub_diag by done|].
  rewrite lookup_app_l by lia.
  apply Stop_effect in HS as (c0 & ch & Hc0 & -> & Hcap0 & _ & Hsent).
  rewrite lookup_set_cell, decide_True by done. rewrite Hc0. simpl.
  split; [done|]. split; [|done].
  intros [= Ha]. apply bool_decide_eq_true. apply Hsent; [done|].
  unfold chans_ok in Hch. rewrite Forall_lookup in Hch.
  rewrite (Hch _ _ Hc0). lia.
Qed.

Lemma NewTimerWithDuration_replaces_witness :
  ∃ s1 t,
    NewTimerWithDuration "reset" 5 (Some (Panics "boom")) first_created
    = Some (s1, (Some t, None))
    ∧ t ≠ 0%nat
    ∧ GetTimer "reset" s1 = (Some t, true)
    ∧ (∀ id', id' ≠ "reset" → GetTimer id' s1 = GetTimer id' first_created)
    ∧ IsActive t s1 = Some true
    ∧ IsActive 0 s1 = IsActive 0 first_created
    ∧ (IsActive 0 first_created = Some true → stop_requested 0 s1 = true)
    ∧ events s1 = events first_created.
Proof.
  apply (NewTimerWithDuration_replaces first_created "reset" 0 5
           (Panics "boom")).
  - apply (exec_all_steps to_first_created). vm_compute. reflexivity.
  - vm_compute. reflexivity.
  - lia.
Defined.

(** *** When the constructors fail *)

Lemma createTimer_returns id_ d e cb s :
  registry_ok s →
  ∃ s1 t, createTimer id_ d e cb s = Some (s1, (Some t, None)).
Proof.
  intros Hreg. unfold createTimer.
  destruct (timers s !! id_) as [t0|] eqn:Hl; simpl; [|by eauto].
  destruct (Stop_is_Some t0 s) as [s0 ->]; [by eapply Hreg|].
  simpl. by eauto.
Qed.

(** X14.  The two checks are the only way to fail.  In every state the
    process reaches, [NewTimerWithDuration] and [NewTimerWithDeadline]
    return; they return an error exactly when the minutes are not positive
    (the deadline is before the clock) or the callback is nil, and then
    they return no handle and change nothing; otherwise they return a
    handle and no error. *)
Theorem constructors_fail_only_on_validation s id_ cb :
  steps init s →
  (∀ minutes, ∃ s1 h e,
     NewTimerWithDuration id_ minutes cb s = Some (s1, (h, e))
     ∧ (e = None ↔ (0 < minutes)%Z ∧ cb ≠ None)
     ∧ (is_Some h ↔ e = None)
     ∧ (e ≠ None → s1 = s))
  ∧ (∀ deadline, ∃ s1 h e,
     NewTimerWithDeadline id_ deadline cb s = Some (s1, (h, e))
     ∧ (e = None ↔ (now s ≤ deadline)%Z ∧ cb ≠ None)
     ∧ (is_Some h ↔ e = None)
     ∧ (e ≠ None → s1 = s)).
Proof.
  intros Hreg%registry_ok_reachable. split.
  - intros minutes. unfold NewTimerWithDuration.
    destruct (Z.leb_spec minutes 0).
    { eexists _, _, _. split; [reflexivity|].
      split; [split; [done|lia]|]. split; [|done].
      split; [by intros []|done]. }
    case_decide as Hcb.
    { eexists _, _, _. split; [reflexivity|].
      split; [split; [done|tauto]|]. split; [|done].
      split; [by intros []|done]. }
    destruct (createTimer_returns id_ (Duration_mul minutes Minute)
                (Add (now s) (Duration_mul minutes Minute)) cb s Hreg)
      as (s1 & t & ->).
    eexists _, _, _. split; [reflexivity|].
    split; [split; [done|by intros _]|]. split; [by eauto|done].
  - intros deadline. unfold NewTimerWithDeadline, Before.
    destruct (Z.ltb_spec deadline (now s)).
    { eexists _, _, _. split; [reflexivity|].
      split; [split; [done|lia]|]. split; [|done].
      split; [by intros []|done]. }
    case_decide as Hcb.
    { eexists _, _, _. split; [reflexivity|].
      split; [split; [done|tauto]|]. split; [|done].
      split; [by intros []|done]. }
    destruct (createTimer_returns id_ (Until (now s) deadline) deadline
                cb s Hreg) as (s1 & t & ->).
    eexists _, _, _. split; [reflexivity|].
    split; [split; [done|by intros _]|]. split; [by eauto|done].
Qed.

Lemma constructors_fail_only_on_validation_witness :
  (∀ minutes, ∃ s1 h e,
     NewTimerWithDuration "reset" minutes (Some Returns) first_created
     = Some (s1, (h, e))
     ∧ (e = None ↔ (0 < minutes)%Z ∧ Some Returns ≠ None)
     ∧ (is_Some h ↔ e = None)
     ∧ (e ≠ None → s1 = first_created))
  ∧ (∀ deadline, ∃ s1 h e,
     NewTimerWithDeadline "reset" deadline (Some Returns) first_created
     = Some (s1, (h, e))
     ∧ (e = None ↔ (now first_created ≤ deadline)%Z ∧ Some Returns ≠ None)
     ∧ (is_Some h ↔ e = None)
     ∧ (e ≠ None → s1 = first_created)).
Proof.
  apply (constructors_fail_only_on_validation first_created "reset"
           (Some Returns)).
  apply (exec_all_steps to_first_created). vm_compute. reflexivity.
Defined.

(** *** The theorems above at work *)

Lemma first_created_reachable : steps init first_created.
Proof. apply (exec_all_steps to_first_created). vm_compute. reflexivity. Qed.

(** The first Timer, marked inactive on the cancellation path, until its
    goroutine has returned. *)
Lemma handle_is_stable_witness :
  GetID 0 first_cancelled = Some "reset"
  ∧ GetExpireTime 0 first_cancelled = Some (now at_noon + 10 * Minute)%Z
  ∧ (IsActive 0 first_marked = Some false →
     IsActive 0 first_cancelled = Some false).
Proof.
  apply (handle_is_stable first_marked first_cancelled 0 "reset" _).
  - apply (exec_all_steps [Go 0 StopC]). vm_compute. reflexivity.
  - vm_compute. reflexivity.
  - vm_compute. reflexivity.
Defined.

Lemma GetTimer_returns_timer_of_that_id_witness :
  GetID 0 first_created = Some "reset".
Proof.
  apply (GetTimer_returns_timer_of_that_id first_created "reset" 0).
  - apply (exec_all_steps to_first_created). vm_compute. reflexivity.
  - vm_compute. reflexivity.
Defined.

(** After the first Timer has expired. *)
Lemma callback_called_at_most_once_witness :
  (invocations 0 first_expired ≤ 1)%nat.
Proof.
  apply (callback_called_at_most_once first_expired 0).
  apply (exec_all_steps (to_first_created ++ left_alone 0 (10 * Minute)%Z)).
  vm_compute. reflexivity.
Defined.

Lemma callback_not_called_after_cancellation_witness :
  (Invoked 0 ∉ events first_cancelled)
  ∧ (pc <$> heap first_stopping !! 0%nat) = Some StopMark.
Proof.
  split; [|vm_compute; reflexivity].
  eapply (callback_not_called_after_cancellation first_stopping
            first_cancelled 0 _).
  - vm_compute. reflexivity.
  - reflexivity.
  - apply (bool_decide_unpack _). vm_compute. exact I.
  - apply (exec_all_steps [Go 0 StopC; Go 0 StopC]). vm_compute. reflexivity.
Defined.

(** A second Timer, made while the first one waits. *)
Lemma callback_never_before_expire_time_witness :
  (∀ minutes s1 t s2 e,
     NewTimerWithDuration "other" minutes (Some Returns) first_created
     = Some (s1, (Some t, None)) →
     GetExpireTime t s1 = Some e →
     steps s1 s2 → Invoked t ∈ events s2 → (e ≤ now s2)%Z)
  ∧ (∀ deadline s1 t s2,
     (deadline - now first_created ≤ maxInt64)%Z →
     NewTimerWithDeadline "other" deadline (Some Returns) first_created
     = Some (s1, (Some t, None)) →
     GetExpireTime t s1 = Some deadline
     ∧ (steps s1 s2 → Invoked t ∈ events s2 → (deadline ≤ now s2)%Z)).
Proof.
  apply (callback_never_before_expire_time first_created "other"
           (Some Returns)).
  apply (exec_all_steps to_first_created). vm_compute. reflexivity.
Defined.

Lemma StopAllTimers_only_posts_requests_witness :
  ∃ s', StopAllTimers first_created = Some s'
        ∧ timers s' = timers first_created
        ∧ events s' = events first_created
        ∧ (∀ t, IsActive t s' = IsActive t first_created)
        ∧ GetAllActiveTimers s' = GetAllActiveTimers first_created
        ∧ ∀ id_ t, timers first_created !! id_ = Some t →
                   IsActive t first_created = Some true →
                   stop_requested t s' = true.
Proof.
  apply (StopAllTimers_only_posts_requests first_created).
  apply (exec_all_steps to_first_created). vm_compute. reflexivity.
Defined.

Lemma StopTimer_registered_witness :
  ∃ s', StopTimer "reset" first_created = Some (s', None)
        ∧ Stop 0 first_created = Some s'
        ∧ timers s' = timers first_created
        ∧ events s' = events first_created
        ∧ (∀ t', IsActive t' s' = IsActive t' first_created)
        ∧ GetAllActiveTimers s' = GetAllActiveTimers first_created
        ∧ (IsActive 0 first_created = Some true →
           stop_requested 0 s' = true).
Proof.
  apply (StopTimer_registered first_created "reset" 0).
  - apply (exec_all_steps to_first_created). vm_compute. reflexivity.
  - vm_compute. reflexivity.
Defined.

End TimerExtra.

(** * More properties of the authenticated client *)

Module ClientExtra.
Import adguardapi adguardapi_client ClientSpec.

Section Client.
Context `{W : World}.

Ltac unfold_calls :=
  unfold Authenticate, DoAuthenticatedRequest, InitHTTPClient, GetHTTPClient,
    httpClient_Do, jar_Cookies_of, bind, modify, get, ret, panic;
  simpl.

Lemma count_Do_EvAuthenticate b u p tr :
  count_Do (EvAuthenticate b u p :: tr) = count_Do tr.
Proof. unfold count_Do. by rewrite filter_cons_False. Qed.

Lemma count_Do_EvDo req tr : count_Do (EvDo req :: tr) = S (count_Do tr).
Proof. unfold count_Do. by rewrite filter_cons_True. Qed.

Lemma GetHTTPClient_state s : (GetHTTPClient s).1 = s.
Proof. unfold_calls. by destruct (httpClient s). Qed.

(** The first answer is handed on when it is no 401 or 403. *)
Lemma DoAuthenticatedRequest_first_answer req s jar r jar' n' :
  client_of s = Some jar →
  exchange req jar (net s) = (r, jar', n') →
  (∀ resp, r = ok resp → isAuthError (StatusCode resp) = false) →
  DoAuthenticatedRequest req s
  = (exchanged req jar' n' s,
     Returned match r with
              | ok resp => (Some resp, None)
              | err e => (None, Some e)
              end).
Proof.
  unfold client_of, exchange, exchanged. intros Hjar Hex Hr.
  unfold_calls. destruct (httpClient s) as [jar0|] eqn:Hclient; simpl.
  - injection Hjar as ->. rewrite Hclient. simpl. rewrite Hex. simpl.
    destruct r as [resp|e]; [|done]. by rewrite (Hr resp eq_refl).
  - destruct cookiejar_New as [jar0|]; [|done]. injection Hjar as ->.
    simpl. unfold bind, modify, ret. simpl. rewrite Hex. simpl.
    destruct r as [resp|e]; [|done]. by rewrite (Hr resp eq_refl).
Qed.

(** X15.  A first answer that is not 401 or 403, and a first attempt that
    fails in the transport, are what [DoAuthenticatedRequest] returns: the
    request goes through one exchange, [Authenticate] is not called,
    nothing is sent again, and the stored credentials stay. *)
Theorem DoAuthenticatedRequest_passes_other_answers req s jar r jar' n' :
  client_of s = Some jar →
  exchange req jar (net s) = (r, jar', n') →
  (∀ resp, r = ok resp → isAuthError (StatusCode resp) = false) →
  let out := DoAuthenticatedRequest req s in
  out.2 = Returned match r with
                   | ok resp => (Some resp, None)
                   | err e => (None, Some e)
                   end
  ∧ trace out.1 = EvDo req :: trace s
  ∧ httpClient out.1 = Some jar' ∧ net out.1 = n'
  ∧ credentials out.1 = credentials s.
Proof.
  intros Hjar Hex Hr out. subst out.
  by rewrite (DoAuthenticatedRequest_first_answer _ _ _ _ _ _ Hjar Hex Hr).
Qed.

(** X16.  When there is no client and [cookiejar.New] fails, each of
    [InitHTTPClient], [Authenticate] and [DoAuthenticatedRequest] returns
    that error; no request is sent, the client stays nil, and
    [GetHTTPClient] keeps reporting that it is not initialized. *)
Theorem no_cookie_jar_no_request e s :
  httpClient s = None → cookiejar_New = err e →
  InitHTTPClient s = (s, Returned (Some e))
  ∧ (∀ b u p, Authenticate b u p s
              = (add_event (EvAuthenticate b u p) s, Returned (Some e)))
  ∧ (∀ req, DoAuthenticatedRequest req s = (s, Returned (None, Some e)))
  ∧ ∀ c, count_Do (trace (call c s)) = count_Do (trace s)
         ∧ ∃ msg, GetHTTPClient (call c s)
                  = (call c s, Returned (None, Some msg)).
Proof.
  intros Hclient Hnew.
  assert (HI : InitHTTPClient s = (s, Returned (Some e)))
    by (unfold_calls; by rewrite Hnew).
  assert (HA : ∀ b u p, Authenticate b u p s
              = (add_event (EvAuthenticate b u p) s, Returned (Some e)))
    by (intros; unfold_calls; by rewrite Hclient, Hnew).
  assert (HD : ∀ req, DoAuthenticatedRequest req s
                      = (s, Returned (None, Some e)))
    by (intros; unfold_calls; by rewrite Hclient, Hnew).
  repeat apply conj; try done.
  intros c. destruct c as [|b u p| |req]; simpl;
    rewrite ?HI, ?HA, ?HD, ?GetHTTPClient_state; simpl;
    rewrite ?count_Do_EvAuthenticate; (split; [done|]);
    unfold_calls; rewrite Hclient; eauto.
Qed.

(** One [httpClient.Do]: a panic through the nil client, or an
    exchange. *)
Lemma httpClient_Do_cases req s :
  (httpClient s = None
   ∧ httpClient_Do req s = (s, Panicked "nil pointer dereference"))
  ∨ (∃ jar, httpClient s = Some jar
            ∧ httpClient_Do req s
              = (exchanged req (exchange req jar (net s)).1.2
                   (exchange req jar (net s)).2 s,
                 Returned (exchange req jar (net s)).1.1)).
Proof.
  unfold_calls. unfold exchange, exchanged.
  destruct (httpClient s) as [jar|]; [right|left; done].
  exists jar. split; [done|]. by destruct Do_ as [[r jar'] n'].
Qed.

Lemma Authenticate_client b u p s :
  is_Some (httpClient s) → is_Some (httpClient (Authenticate b u p s).1).
Proof.
  intros [jar Hjar]. unfold_calls. rewrite Hjar. simpl.
  destruct json_Marshal; simpl; [|by eauto].
  destruct http_NewRequest; simpl; [|by eauto].
  rewrite Hjar. simpl.
  destruct Do_ as [[[resp|e] jar'] n']; simpl; [|by eauto].
  destruct (StatusCode _ =? 200)%Z; simpl; [|by eauto].
  destruct (Body _); simpl; [|by eauto].
  destruct (url_Parse b); simpl; [|by eauto].
  destruct (length _ =? 0)%nat; simpl; by eauto.
Qed.

(** What [DoAuthenticatedRequest] does, path by path. *)
Lemma DoAuthenticatedRequest_paths req s :
  let out := DoAuthenticatedRequest req s in
  (∃ e, httpClient s = None ∧ cookiejar_New = err e
        ∧ out = (s, Returned (None, Some e)))
  ∨ ∃ jar, client_of s = Some jar ∧
      let r := (exchange req jar (net s)).1.1 in
      let s1 := exchanged req (exchange req jar (net s)).1.2
                  (exchange req jar (net s)).2 s in
      match r with
      | err e => out = (s1, Returned (None, Some e))
      | ok resp =>
          if isAuthError (StatusCode resp) then
            if canReauthenticate s then
              let a := Authenticate (authBaseURL s) (authUsername s)
                         (authPassword s) s1 in
              match a.2 with
              | Panicked v => out = (a.1, Panicked v)
              | Returned (Some e) => out = (a.1, Returned (None, Some e))
              | Returned None =>
                  out = (let '(s3, c) := httpClient_Do req a.1 in
                         (s3, match c with
                              | Panicked v => Panicked v
                              | Returned (err e) => Returned (None, Some e)
                              | Returned (ok resp2) =>
                                  Returned (Some resp2, None)
                              end))
              end
            else
              out = (s1, Returned
                (None,
                 Some "authentication required but no credentials available"))
          else out = (s1, Returned (Some resp, None))
      end.
Proof.
  intros out.
  destruct (client_of s) as [jar|] eqn:Hjar.
  - right. exists jar. split; [done|].
    destruct (exchange req jar (net s)) as [[r jar'] n'] eqn:Hex. simpl.
    destruct r as [resp|e].
    + destruct (isAuthError (StatusCode resp)) eqn:Hauth.
      * destruct (canReauthenticate s) eqn:Hcan.
        -- subst out.
           rewrite (DoAuthenticatedRequest_unfold _ _ _ _ _ _
                      Hjar Hex Hauth Hcan). simpl.
           destruct (Authenticate _ _ _ _) as [s2 [[e|]|v]]; simpl; try done.
           by destruct (httpClient_Do req s2) as [s3 [[resp2|e]|v]].
        -- subst out. revert Hjar Hex.
           unfold client_of, exchange, exchanged. intros Hjar Hex.
           unfold_calls. destruct (httpClient s) as [jar0|] eqn:Hclient; simpl.
           ++ injection Hjar as ->. rewrite Hclient. simpl. rewrite Hex. simpl.
              rewrite Hauth. unfold canReauthenticate in *. simpl.
              by rewrite Hcan.
           ++ destruct cookiejar_New as [jar0|]; [|done]. injection Hjar as ->.
              simpl. unfold bind, modify, ret. simpl. rewrite Hex. simpl.
              rewrite Hauth. unfold canReauthenticate in *. simpl.
              by rewrite Hcan.
      * subst out.
        rewrite (DoAuthenticatedRequest_first_answer _ _ _ _ _ _
                   Hjar Hex); [done|]. by intros ? [= <-].
    + subst out.
      by rewrite (DoAuthenticatedRequest_first_answer _ _ _ _ _ _
                    Hjar Hex).
  - left. unfold client_of in Hjar.
    destruct (httpClient s) eqn:Hclient; [done|].
    destruct cookiejar_New as [|e] eqn:Hnew; [done|].
    exists e. split; [done|]. split; [done|].
    subst out. unfold_calls. by rewrite Hclient, Hnew.
Qed.

Lemma count_Do_app tr1 tr2 :
  count_Do (tr1 ++ tr2) = (count_Do tr1 + count_Do tr2)%nat.
Proof. unfold count_Do. by rewrite filter_app, length_app. Qed.

(** One call of [DoAuthenticatedRequest], whatever the server answers. *)
Lemma DoAuthenticatedRequest_summary req s :
  let out := DoAuthenticatedRequest req s in
  credentials out.1 = credentials s
  ∧ (∃ tr, trace out.1 = tr ++ trace s
           ∧ (count_Authenticate tr ≤ 1)%nat
           ∧ (count_Authenticate tr ≤ count_Do tr ≤ 3)%nat)
  ∧ (is_Some (httpClient s) ∨ (∃ resp e, out.2 = Returned (Some resp, e)) →
     is_Some (httpClient out.1))
  ∧ ∀ r e, out.2 = Returned (r, e) → (is_Some r ↔ e = None).
Proof.
  intros out.
  destruct (DoAuthenticatedRequest_paths req s) as [(e & Hc & Hn & Hout)|
    (jar & Hjar & Hpath)]; fold out in Hout || fold out in Hpath.
  { rewrite Hout. simpl. split; [done|].
    split; [exists []; split; [done|]; vm_compute; lia|].
    split.
    { rewrite Hc. intros [[? [=]]|(? & ? & [=])]. }
    intros r e' [= <- <-]. split; [by intros []|done]. }
  simpl in Hpath.
  set (s1 := exchanged req (exchange req jar (net s)).1.2
               (exchange req jar (net s)).2 s) in *.
  assert (Hs1 : credentials s1 = credentials s
                ∧ trace s1 = [EvDo req] ++ trace s
                ∧ is_Some (httpClient s1)) by (subst s1; simpl; eauto).
  destruct Hs1 as (Hcr1 & Htr1 & Hcl1).
  assert (Hshort : ∀ x, out = (s1, Returned x) →
            (is_Some x.1 ↔ x.2 = None) →
            credentials out.1 = credentials s
            ∧ (∃ tr, trace out.1 = tr ++ trace s
                     ∧ (count_Authenticate tr ≤ 1)%nat
                     ∧ (count_Authenticate tr ≤ count_Do tr ≤ 3)%nat)
            ∧ (is_Some (httpClient s)
               ∨ (∃ resp e, out.2 = Returned (Some resp, e)) →
               is_Some (httpClient out.1))
            ∧ ∀ r e, out.2 = Returned (r, e) → (is_Some r ↔ e = None)).
  { intros x -> Hx. simpl. split; [done|].
    split; [exists [EvDo req]; split; [done|]; vm_compute; lia|].
    split; [done|]. by intros r e [= ->]. }
  destruct (exchange req jar (net s)).1.1 as [resp|e] eqn:Hr;
    [|apply (Hshort _ Hpath); simpl; split; [by intros []|done]].
  destruct (isAuthError (StatusCode resp));
    [|apply (Hshort _ Hpath); simpl; split; [eauto|done]].
  destruct (canReauthenticate s);
    [|apply (Hshort _ Hpath); simpl; split; [by intros []|done]].
  clear Hshort. simpl in Hpath.
  pose proof (Authenticate_credentials (authBaseURL s) (authUsername s)
                (authPassword s) s1) as [Hkeep Hset].
  destruct (Authenticate_trace (authBaseURL s) (authUsername s)
              (authPassword s) s1) as (tr & Htr & Hshape).
  pose proof (Authenticate_client (authBaseURL s) (authUsername s)
                (authPassword s) s1 Hcl1) as Hcl2.
  assert (Hcr2 : credentials
                   (Authenticate (authBaseURL s) (authUsername s)
                      (authPassword s) s1).1 = credentials s).
  { destruct (Authenticate (authBaseURL s) (authUsername s)
                (authPassword s) s1) as [s2 [[e|]|v]]; simpl in *.
    - by rewrite Hkeep.
    - by rewrite Hset.
    - by rewrite Hkeep. }
  assert (Hn : (count_Authenticate (tr ++ [EvAuthenticate (authBaseURL s)
                   (authUsername s) (authPassword s); EvDo req]) = 1
               ∧ 1 ≤ count_Do (tr ++ [EvAuthenticate (authBaseURL s)
                   (authUsername s) (authPassword s); EvDo req]) ≤ 2)%nat).
  { rewrite count_Authenticate_app, count_Do_app.
    destruct Hshape as [->|[rq ->]]; vm_compute; lia. }
  assert (Htr2 : trace (Authenticate (authBaseURL s) (authUsername s)
                          (authPassword s) s1).1
                 = (tr ++ [EvAuthenticate (authBaseURL s) (authUsername s)
                             (authPassword s); EvDo req]) ++ trace s).
  { rewrite Htr, Htr1. by rewrite <- !app_assoc. }
  clear Htr Htr1 Hshape Hkeep Hset.
  destruct (Authenticate _ _ _ s1) as [s2 [[e|]|v]]; simpl in *.
  - rewrite Hpath. simpl. split; [done|].
    split; [eexists; split; [exact Htr2|lia]|]. split; [done|].
    intros r e' [= <- <-]. split; [by intros []|done].
  - destruct (httpClient_Do_cases req s2) as [[Hno _]|(jar2 & Hj2 & Hdo)].
    { rewrite Hno in Hcl2. by destruct Hcl2. }
    rewrite Hdo in Hpath. rewrite Hpath. simpl. split; [done|].
    split.
    { eexists (EvDo req :: _). split; [by rewrite Htr2|].
      rewrite count_Authenticate_EvDo, count_Do_EvDo. lia. }
    split; [done|].
    destruct (exchange req jar2 (net s2)).1.1; intros r e' [= <- <-].
    + split; [done|by eauto].
    + split; [by intros []|done].
  - rewrite Hpath. simpl. split; [done|].
    split; [eexists; split; [exact Htr2|lia]|]. split; [done|]. done.
Qed.


Lemma call_client c s :
  is_Some (httpClient s) ∨ succeeds c s → is_Some (httpClient (call c s)).
Proof.
  destruct c as [|b u p| |req]; simpl.
  - unfold_calls. destruct cookiejar_New; simpl; [by eauto|].
    by intros [?|[=]].
  - intros [?|Hok]; [by apply Authenticate_client|].
    destruct (Authenticate_success _ _ _ _ Hok) as (jar & _ & -> & _).
    by eauto.
  - rewrite GetHTTPClient_state. intros [?|[jar Hok]]; [done|].
    revert Hok. unfold_calls. by destruct (httpClient s).
  - intros H. apply DoAuthenticatedRequest_summary.
    destruct H as [?|[resp Hok]]; eauto.
Qed.

Lemma calls_client cs s :
  is_Some (httpClient s) → is_Some (httpClient (calls cs s)).
Proof.
  revert s. induction cs as [|c cs IH]; intros s Hs; simpl; [done|].
  apply IH, call_client. by left.
Qed.

(** X18.  The client is never set back to nil.  Once a client is there, or
    once [InitHTTPClient], [Authenticate], [GetHTTPClient] or
    [DoAuthenticatedRequest] has returned without error, [GetHTTPClient]
    returns the client and no error after every further sequence of calls
    of the package, whether they succeed, fail or panic. *)
Theorem GetHTTPClient_once_initialized c cs s :
  is_Some (httpClient s) ∨ succeeds c s →
  ∃ jar, httpClient (calls cs (call c s)) = Some jar
         ∧ GetHTTPClient (calls cs (call c s))
           = (calls cs (call c s), Returned (Some jar, None)).
Proof.
  intros H.
  destruct (calls_client cs (call c s) (call_client c s H)) as [jar Hjar].
  exists jar. split; [done|]. unfold_calls. by rewrite Hjar.
Qed.

(** X19.  The triple a successful [Authenticate] stores is the one a later
    [DoAuthenticatedRequest] logs in with.  When base URL, user name and
    password are all non-empty, a request that is answered 401 or 403
    makes it enter [Authenticate] with them, right after that exchange;
    when one of them is empty, the request fails with
    "authentication required but no credentials available" although the
    login had succeeded. *)
Theorem Authenticate_stores_what_reauthentication_uses
    b u p s0 req jar resp jar' n' :
  (Authenticate b u p s0).2 = Returned None →
  let s := (Authenticate b u p s0).1 in
  httpClient s = Some jar →
  exchange req jar (net s) = (ok resp, jar', n') →
  isAuthError (StatusCode resp) = true →
  let out := DoAuthenticatedRequest req s in
  if decide (b ≠ "" ∧ u ≠ "" ∧ p ≠ "") then
    ∃ tr, trace out.1 = tr ++ EvAuthenticate b u p :: EvDo req :: trace s
          ∧ count_Authenticate tr = 0%nat
  else
    out = (exchanged req jar' n' s,
           Returned
             (None,
              Some "authentication required but no credentials available")).
Proof.
  intros Hok s Hclient Hex Hauth out.
  pose proof (proj2 (Authenticate_credentials b u p s0) Hok) as Hcr.
  fold s in Hcr. unfold credentials in Hcr. injection Hcr as Hb Hu Hp.
  assert (Hjar : client_of s = Some jar) by (unfold client_of; by rewrite Hclient).
  destruct (DoAuthenticatedRequest_paths req s) as [(e & Hc & _)|
    (jar0 & Hjar0 & Hpath)]; [congruence|].
  assert (jar0 = jar) as -> by congruence. fold out in Hpath.
  rewrite Hex in Hpath. simpl in Hpath. rewrite Hauth in Hpath.
  unfold canReauthenticate in Hpath. rewrite Hb, Hu, Hp in Hpath.
  case_decide as Hne.
  - destruct Hne as (Hnb & Hnu & Hnp).
    apply String.eqb_neq in Hnb, Hnu, Hnp.
    rewrite Hnb, Hnu, Hnp in Hpath. simpl in Hpath.
    destruct (Authenticate_trace b u p (exchanged req jar' n' s))
      as (tr & Htr & Hshape).
    assert (H0 : count_Authenticate tr = 0%nat)
      by (destruct Hshape as [->|[rq ->]]; done).
    pose proof (Authenticate_client b u p (exchanged req jar' n' s)) as Hcl2.
    destruct (Authenticate b u p (exchanged req jar' n' s))
      as [s2 [[e|]|v]]; simpl in *; try (rewrite Hpath; simpl; by eauto).
    destruct (httpClient_Do_cases req s2) as [[Hno _]|(jar2 & Hj2 & Hdo)].
    { rewrite Hno in Hcl2. destruct Hcl2 as [? [=]]. by eauto. }
    rewrite Hdo in Hpath. rewrite Hpath. simpl.
    exists (EvDo req :: tr). rewrite Htr. split; [done|].
    by rewrite count_Authenticate_EvDo.
  - assert ((negb (b =? "") && negb (u =? "") && negb (p =? ""))%string
            = false) as Hcan.
    { destruct (String.eqb_spec b ""), (String.eqb_spec u ""),
        (String.eqb_spec p ""); simpl; try done. by destruct Hne. }
    rewrite Hcan in Hpath. done.
Qed.

Ltac sent_nothing :=
  exists []; split; [done|]; split; [by left|]; by intros [=].

Ltac sent_login :=
  eexists [_]; split; [done|]; split; [right; by eauto|];
  first [done | by intros [=]].

(** What [Authenticate] sends, if anything, is its login request. *)
Lemma Authenticate_sends_login b u p s :
  ∃ tr, trace (Authenticate b u p s).1 = tr ++ EvAuthenticate b u p :: trace s
        ∧ (tr = [] ∨ ∃ req, login_request b u p = Some req ∧ tr = [EvDo req])
        ∧ ((Authenticate b u p s).2 = Returned None → tr ≠ []).
Proof.
  unfold login_request. unfold_calls.
  destruct (httpClient s) as [jar|] eqn:Hclient; simpl;
    [|destruct cookiejar_New as [jar|e]; simpl; unfold bind, modify, ret;
      simpl; [|sent_nothing]];
    (destruct json_Marshal as [data|e]; simpl; [|sent_nothing]);
    (destruct http_NewRequest as [req|e]; simpl; [|sent_nothing]);
    rewrite ?Hclient; simpl;
    (destruct Do_ as [[[resp|e] jar'] n']; simpl; [|sent_login]);
    (destruct (StatusCode resp =? 200)%Z; simpl; [|sent_login]);
    (destruct (Body resp); simpl; [|sent_login]);
    (destruct (url_Parse b); simpl; [|sent_login]);
    destruct (length _ =? 0)%nat; simpl; sent_login.
Qed.

(** X20.  What goes over the wire.  [Authenticate] sends at most one
    request, the POST to the login endpoint under the base URL it was
    given, with the marshalled credentials as its body, and it cannot
    succeed without sending it.  [DoAuthenticatedRequest] sends nothing
    but the request of its caller and that login request for the stored
    base URL, user name and password. *)
Theorem only_the_request_and_the_login_are_sent :
  (∀ b u p s, ∃ tr,
     trace (Authenticate b u p s).1 = tr ++ EvAuthenticate b u p :: trace s
     ∧ (tr = [] ∨ ∃ req, login_request b u p = Some req ∧ tr = [EvDo req]
                         ∧ Method req = "POST"
                         ∧ url_Parse (b +:+ "/control/login") = ok (ReqURL req)
                         ∧ ∃ body, json_Marshal {| Name := u; Password := p |}
                                   = ok body
                                   ∧ ReqBody req = Some body)
     ∧ ((Authenticate b u p s).2 = Returned None → tr ≠ []))
  ∧ (∀ req s, ∃ tr,
       trace (DoAuthenticatedRequest req s).1 = tr ++ trace s
       ∧ ∀ e, e ∈ tr →
           e = EvDo req
           ∨ e = EvAuthenticate (authBaseURL s) (authUsername s)
                   (authPassword s)
           ∨ ∃ login, login_request (authBaseURL s) (authUsername s)
                        (authPassword s) = Some login
                      ∧ e = EvDo login).
Proof.
  split.
  - intros b u p s.
    destruct (Authenticate_sends_login b u p s) as (tr & Htr & Hshape & Hok).
    exists tr. split; [done|]. split; [|done].
    destruct Hshape as [->|(req & Hreq & ->)]; [by left|right].
    exists req. split; [done|]. split; [done|].
    revert Hreq. unfold login_request, http_NewRequest.
    destruct json_Marshal as [data|]; [|done].
    destruct (url_Parse _) as [url|]; [|done]. intros [= <-]. by eauto.
  - intros req s.
    destruct (DoAuthenticatedRequest_paths req s) as [(e & Hc & Hn & ->)|
      (jar & Hjar & Hpath)].
    { exists []. split; [done|]. by intros ? ?%elem_of_nil. }
    simpl in Hpath.
    set (s1 := exchanged req (exchange req jar (net s)).1.2
                 (exchange req jar (net s)).2 s) in *.
    assert (Hone : ∀ x, DoAuthenticatedRequest req s = (s1, x) →
              ∃ tr, trace (DoAuthenticatedRequest req s).1 = tr ++ trace s
                ∧ ∀ e, e ∈ tr →
                    e = EvDo req
                    ∨ e = EvAuthenticate (authBaseURL s) (authUsername s)
                            (authPassword s)
                    ∨ ∃ login, login_request (authBaseURL s) (authUsername s)
                                 (authPassword s) = Some login
                               ∧ e = EvDo login).
    { intros x ->. exists [EvDo req]. split; [done|].
      intros e ->%list_elem_of_singleton. by left. }
    destruct (exchange req jar (net s)).1.1 as [resp|e]; [|by eapply Hone].
    destruct (isAuthError (StatusCode resp)); [|by eapply Hone].
    destruct (canReauthenticate s); [|by eapply Hone].
    clear Hone. simpl in Hpath.
    destruct (Authenticate_sends_login (authBaseURL s) (authUsername s)
                (authPassword s) s1) as (tr & Htr & Hshape & _).
    assert (Hin : ∀ e, e ∈ tr ++ [EvAuthenticate (authBaseURL s)
                     (authUsername s) (authPassword s); EvDo req] →
              e = EvDo req
              ∨ e = EvAuthenticate (authBaseURL s) (authUsername s)
                      (authPassword s)
              ∨ ∃ login, login_request (authBaseURL s) (authUsername s)
                           (authPassword s) = Some login
                         ∧ e = EvDo login).
    { intros e [Hl|Hr]%elem_of_app.
      - destruct Hshape as [->|(login & Hlogin & ->)];
          [by apply elem_of_nil in Hl|].
        apply list_elem_of_singleton in Hl as ->. right. right. eauto.
      - apply elem_of_cons in Hr as [->|Hr]; [by right; left|].
        apply list_elem_of_singleton in Hr as ->. by left. }
    assert (Htr2 : trace (Authenticate (authBaseURL s) (authUsername s)
                            (authPassword s) s1).1
                   = (tr ++ [EvAuthenticate (authBaseURL s) (authUsername s)
                               (authPassword s); EvDo req]) ++ trace s).
    { rewrite Htr. subst s1. simpl. by rewrite <- !app_assoc. }
    clear Htr Hshape.
    destruct (Authenticate _ _ _ s1) as [s2 [[e|]|v]]; simpl in *;
      try (rewrite Hpath; simpl; eexists; split; [exact Htr2|done]).
    destruct (httpClient_Do_cases req s2) as [[Hno Hdo]|(jar2 & Hj2 & Hdo)];
      rewrite Hdo in Hpath; rewrite Hpath; simpl.
    + eexists; split; [exact Htr2|done].
    + eexists (EvDo req :: _). split; [by rewrite Htr2|].
      intros e [->|He]%elem_of_cons; [by left|by apply Hin].
Qed.

End Client.

Lemma DoAuthenticatedRequest_passes_other_answers_witness :
  (DoAuthenticatedRequest get_blocked session_valid).2
  = Returned (Some resp_200, None)
  ∧ trace (DoAuthenticatedRequest get_blocked session_valid).1
    = [EvDo get_blocked]
  ∧ httpClient (DoAuthenticatedRequest get_blocked session_valid).1 = Some []
  ∧ net (DoAuthenticatedRequest get_blocked session_valid).1 = []
  ∧ credentials (DoAuthenticatedRequest get_blocked session_valid).1
    = credentials session_valid.
Proof.
  apply (@DoAuthenticatedRequest_passes_other_answers scripted get_blocked
           session_valid [] (ok resp_200) [] []).
  - reflexivity.
  - reflexivity.
  - intros resp [= <-]. reflexivity.
Defined.

Lemma no_cookie_jar_no_request_witness :
  @InitHTTPClient no_jar (@init no_jar env_set [])
  = (@init no_jar env_set [], Returned (Some "cookiejar: out of memory"))
  ∧ (∀ b u p, @Authenticate no_jar b u p (@init no_jar env_set [])
              = (add_event (EvAuthenticate b u p) (@init no_jar env_set []),
                 Returned (Some "cookiejar: out of memory")))
  ∧ (∀ req, @DoAuthenticatedRequest no_jar req (@init no_jar env_set [])
            = (@init no_jar env_set [],
               Returned (None, Some "cookiejar: out of memory")))
  ∧ ∀ c, count_Do (trace (@call no_jar c (@init no_jar env_set [])))
         = count_Do (trace (@init no_jar env_set []))
         ∧ ∃ msg, @GetHTTPClient no_jar (call c (@init no_jar env_set []))
                  = (call c (@init no_jar env_set []),
                     Returned (None, Some msg)).
Proof.
  apply (@no_cookie_jar_no_request no_jar "cookiejar: out of memory"
           (@init no_jar env_set [])); reflexivity.
Defined.

Lemma GetHTTPClient_once_initialized_witness :
  ∃ jar, httpClient
           (calls [CallInitHTTPClient; CallAuthenticate "" "" ""]
              (call (CallDoAuthenticatedRequest get_blocked) session_valid))
         = Some jar
         ∧ GetHTTPClient
             (calls [CallInitHTTPClient; CallAuthenticate "" "" ""]
                (call (CallDoAuthenticatedRequest get_blocked) session_valid))
           = (calls [CallInitHTTPClient; CallAuthenticate "" "" ""]
                (call (CallDoAuthenticatedRequest get_blocked) session_valid),
              Returned (Some jar, None)).
Proof.
  apply (@GetHTTPClient_once_initialized scripted
           (CallDoAuthenticatedRequest get_blocked)
           [CallInitHTTPClient; CallAuthenticate "" "" ""] session_valid).
  right. exists resp_200. reflexivity.
Defined.

Lemma Authenticate_stores_what_reauthentication_uses_witness :
  ∃ tr, trace (DoAuthenticatedRequest get_blocked
                 (Authenticate "http://other.lan" "root" "hunter2"
                    login_then_expired).1).1
        = tr ++ EvAuthenticate "http://other.lan" "root" "hunter2"
             :: EvDo get_blocked
             :: trace (Authenticate "http://other.lan" "root" "hunter2"
                         login_then_expired).1
        ∧ count_Authenticate tr = 0%nat.
Proof.
  apply (@Authenticate_stores_what_reauthentication_uses scripted
           "http://other.lan" "root" "hunter2" login_then_expired
           get_blocked [session] resp_401 [session]
           [(ok resp_200, [session]); (ok resp_200, [])]);
    reflexivity.
Defined.

End ClientExtra.

(** * Properties of the blocked-services calls *)

Module ServicesExtra.
Import adguardapi adguardapi_client go_strings model blocked_services.
Import ClientSpec ClientExtra.

(** *** Strings as lists of bytes *)

Lemma list_of_append a b :
  String.list_ascii_of_string (a +:+ b)
  = String.list_ascii_of_string a ++ String.list_ascii_of_string b.
Proof. induction a as [|c a IH]; simpl; [done|]. by rewrite IH. Qed.

Lemma asciiSpace_ascii c : asciiSpace c = true → beyond_ascii c = false.
Proof.
  unfold asciiSpace, beyond_ascii. intros H.
  apply Nat.leb_gt. apply orb_true_iff in H as [H|H].
  - apply andb_true_iff in H as [_ H]. apply Nat.leb_le in H. lia.
  - apply Nat.eqb_eq in H. lia.
Qed.

Lemma asciiSpace_not_comma c : asciiSpace c = true → c ≠ ","%char.
Proof. intros H ->. vm_compute in H. done. Qed.

(** *** [Split] *)

Lemma Split_not_nil s sep : Split s sep ≠ [].
Proof.
  induction s as [|c s IH]; simpl; [done|].
  destruct (Ascii.eqb c sep); [done|]. by destruct (Split s sep).
Qed.

Lemma Split_piece x sep rest :
  Forall (λ c, c ≠ sep) (String.list_ascii_of_string x) →
  Split (x +:+ String sep rest) sep = x :: Split rest sep.
Proof.
  induction x as [|c x IH]; simpl; intros Hx.
  - by rewrite Ascii.eqb_refl.
  - apply Forall_cons in Hx as [Hc Hx].
    apply Ascii.eqb_neq in Hc. rewrite Hc. by rewrite IH.
Qed.

Lemma Split_last x sep :
  Forall (λ c, c ≠ sep) (String.list_ascii_of_string x) →
  Split x sep = [x].
Proof.
  induction x as [|c x IH]; simpl; intros Hx; [done|].
  apply Forall_cons in Hx as [Hc Hx].
  apply Ascii.eqb_neq in Hc. rewrite Hc. by rewrite IH.
Qed.

Lemma Split_concat sep pieces :
  pieces ≠ [] →
  Forall (λ x, Forall (λ c, c ≠ sep) (String.list_ascii_of_string x)) pieces →
  Split (String.concat (String sep EmptyString) pieces) sep = pieces.
Proof.
  induction pieces as [|x [|y pieces] IH]; intros Hne Hall; [done|..].
  - simpl. apply Split_last. by apply Forall_cons in Hall as [? _].
  - apply Forall_cons in Hall as [Hx Hall].
    change (String.concat (String sep "") (x :: y :: pieces))
      with (x +:+ String sep (String.concat (String sep "") (y :: pieces))).
    rewrite Split_piece by done. f_equal. by apply IH.
Qed.

(** *** [TrimSpace] *)

Section Trim.
Context `{U : Unicode}.

Lemma trim_end_blank r l :
  Forall (λ c, asciiSpace c = true) r → trim_end (r ++ l) = trim_end l.
Proof.
  induction r as [|c r IH]; simpl; intros Hr; [done|].
  apply Forall_cons in Hr as [Hc Hr].
  by rewrite (asciiSpace_ascii _ Hc), Hc, IH.
Qed.

Lemma TrimSpace_blank r : blank r → TrimSpace r = "".
Proof.
  unfold blank. induction r as [|c r IH]; simpl; intros Hr; [done|].
  apply Forall_cons in Hr as [Hc Hr].
  by rewrite (asciiSpace_ascii _ Hc), Hc, IH.
Qed.

Lemma trim_end_cons c before :
  trim_end (c :: before)
  = if beyond_ascii c then
      TrimRightFunc_IsSpace (String.string_of_list_ascii (rev (c :: before)))
    else if asciiSpace c then trim_end before
    else String.string_of_list_ascii (rev (c :: before)).
Proof. done. Qed.

Lemma trim_end_plain l :
  Forall (λ c, beyond_ascii c = false ∧ asciiSpace c = false) l →
  trim_end (rev l) = String.string_of_list_ascii l.
Proof.
  destruct l as [|d l _] using rev_ind; [done|]. intros Hl.
  apply Forall_app in Hl as [_ Hd]. apply Forall_cons in Hd as [[Ha Hs] _].
  rewrite rev_app_distr. change (rev [d] ++ rev l) with (d :: rev l).
  rewrite trim_end_cons, Ha, Hs.
  change (rev (d :: rev l)) with (rev (rev l) ++ [d]).
  by rewrite rev_involutive.
Qed.

Lemma TrimSpace_padded l x r :
  blank l → plain x → blank r → TrimSpace (l +:+ x +:+ r) = x.
Proof.
  unfold blank. intros Hl Hx Hr.
  induction l as [|c l IH]; simpl.
  - destruct x as [|c x]; simpl; [by apply TrimSpace_blank|].
    pose proof Hx as Hx'. unfold plain in Hx'. simpl in Hx'.
    apply Forall_cons in Hx' as [(Ha & Hs & _) _]. rewrite Ha, Hs.
    rewrite list_of_append, rev_app_distr, <- app_assoc.
    rewrite trim_end_blank by by apply Forall_rev.
    change (rev (String.list_ascii_of_string x) ++ [c])
      with (rev (String.list_ascii_of_string (String c x))).
    rewrite trim_end_plain.
    + apply String.string_of_list_ascii_of_string.
    + eapply Forall_impl; [exact Hx|]. by intros ? (? & ? & _).
  - simpl in Hl. apply Forall_cons in Hl as [Hc Hl].
    by rewrite (asciiSpace_ascii _ Hc), Hc, IH.
Qed.

End Trim.

Section Services.
Context `{W : World} `{C : Codec} `{U : Unicode}.

(** X21.  The ids read from the environment.  When the variable
    [defaultBlockedServices] is not empty and is a list of ids separated
    by commas, each id in ASCII without white space or comma and with any
    ASCII white space around it, [ResetBlockedServices] takes exactly these
    ids, in their order, for the configuration it sends: the built-in list
    is not used, and an empty piece is an empty id. *)
Theorem defaultIDs_of_environment (getenv : string → string)
    (items : list (string * string * string)) :
  getenv "defaultBlockedServices" = String.concat "," (padded <$> items) →
  getenv "defaultBlockedServices" ≠ "" →
  Forall (λ x, blank x.1.1 ∧ plain x.1.2 ∧ blank x.2) items →
  defaultIDs getenv = (λ x, x.1.2) <$> items
  ∧ IDs (defaultConfig getenv) = Some ((λ x, x.1.2) <$> items).
Proof.
  intros Hv Hne Hitems.
  assert (defaultIDs getenv = (λ x, x.1.2) <$> items) as Hids;
    [|split; [done|]; simpl; by rewrite Hids].
  unfold defaultIDs. apply String.eqb_neq in Hne. rewrite Hne. simpl.
  rewrite Hv. rewrite Split_concat.
  - rewrite <- list_fmap_compose. apply (map_ext_Forall _ _).
    eapply Forall_impl; [exact Hitems|]. intros [[l x] r] (Hl & Hx & Hr).
    simpl. unfold padded. simpl. by apply TrimSpace_padded.
  - destruct items; [|done]. simpl in Hv. apply String.eqb_neq in Hne.
    congruence.
  - apply Forall_fmap. eapply Forall_impl; [exact Hitems|].
    intros [[l x] r] (Hl & Hx & Hr). simpl. unfold padded. simpl.
    rewrite !list_of_append. rewrite !Forall_app. repeat split.
    + eapply Forall_impl; [exact Hl|]. intros c. apply asciiSpace_not_comma.
    + eapply Forall_impl; [exact Hx|]. by intros c (_ & _ & ?).
    + eapply Forall_impl; [exact Hr|]. intros c. apply asciiSpace_not_comma.
Qed.

Ltac unfold_services :=
  unfold GetBlockedServices, UpdateBlockedServices, ResetBlockedServices,
    get_request, update_request, bind, get, ret, panic;
  simpl.

(** X22.  [ResetBlockedServices] is [UpdateBlockedServices] applied to the
    default configuration: the time zone "America/Chicago" with the ids of
    the environment, or with the 85 built-in ids, all different, when the
    variable is empty or unset. *)
Theorem ResetBlockedServices_is_update_with_defaults getenv s :
  ResetBlockedServices getenv s
  = UpdateBlockedServices (Some (defaultConfig getenv)) s
  ∧ TimeZone (Schedule_ (defaultConfig getenv)) = "America/Chicago"
  ∧ (getenv "defaultBlockedServices" = "" →
     IDs (defaultConfig getenv) = Some builtinIDs)
  ∧ length builtinIDs = 85%nat ∧ NoDup builtinIDs.
Proof.
  split; [done|]. split; [done|]. split.
  - intros Hv. simpl. unfold defaultIDs. by rewrite Hv.
  - split; [done|]. apply (bool_decide_unpack _). vm_compute. exact I.
Qed.

Ltac get_failed :=
  split; [done|]; split; [by eauto|];
  split; [first [by intros ? ? [= <- _] | by intros ? ? [=]]
         |by intros ? [=]].

(** X23.  What [GetBlockedServices] returns.  An error always comes with
    the zero configuration.  A configuration without error is what
    [json.Unmarshal] makes of the body of a response with status 200 that
    [DoAuthenticatedRequest] returned for the GET request to
    "/control/blocked_services/get" under the stored base URL.  When the
    URL does not parse nothing is sent, and the stored credentials are
    never changed. *)
Theorem GetBlockedServices_outcome s :
  let out := GetBlockedServices s in
  credentials out.1 = credentials s
  ∧ (get_request s = None → out.1 = s ∧ ∃ e, out.2 = Returned (zero, Some e))
  ∧ (∀ cfg e, out.2 = Returned (cfg, Some e) → cfg = zero)
  ∧ (∀ cfg, out.2 = Returned (cfg, None) →
       ∃ req resp body,
         get_request s = Some req
         ∧ Method req = "GET" ∧ ReqBody req = None
         ∧ DoAuthenticatedRequest req s = (out.1, Returned (Some resp, None))
         ∧ StatusCode resp = 200%Z ∧ Body resp = ok body
         ∧ json_Unmarshal_config body = ok cfg).
Proof.
  unfold_services. unfold http_NewRequest.
  destruct (url_Parse _) as [u|e0]; simpl.
  2: { get_failed. }
  match goal with |- context [DoAuthenticatedRequest ?r s] =>
    set (req := r) end.
  pose proof (DoAuthenticatedRequest_summary req s) as (Hcr & _).
  destruct (DoAuthenticatedRequest req s) as [s1 [[[resp|] [e|]]|v]] eqn:HD;
    simpl in *.
  - get_failed.
  - destruct (StatusCode resp =? 200)%Z eqn:Hst; simpl; [|get_failed].
    destruct (Body resp) as [body|e2] eqn:Hbody; simpl; [|get_failed].
    destruct (json_Unmarshal_config body) as [cfg|e3] eqn:Hjson; simpl;
      [|get_failed].
    split; [done|]. split; [done|].
    split; [by intros ? ? [=]|]. intros cfg' [= <-].
    exists req, resp, body. apply Z.eqb_eq in Hst. by repeat split.
  - get_failed.
  - get_failed.
  - get_failed.
Qed.

Ltac upd_start req HD :=
  split; [done|]; split; [done|];
  let req0 := fresh "req0" in
  intros req0 [= <-]; fold req; rewrite HD; simpl;
  split; [done|]; split; [by eauto|]; split; [done|].

(** X24.  What [UpdateBlockedServices] returns.  It returns nil exactly
    when [DoAuthenticatedRequest] returned, for the PUT request to
    "/control/blocked_services/update" that carries the marshalled
    configuration, a response with status 200 whose body could be read.
    When the configuration does not marshal or the URL does not parse, it
    returns an error and sends nothing.  The stored credentials are never
    changed. *)
Theorem UpdateBlockedServices_outcome cfg s :
  let out := UpdateBlockedServices cfg s in
  credentials out.1 = credentials s
  ∧ (update_request cfg s = None →
     out.1 = s ∧ ∃ e, out.2 = Returned (Some e))
  ∧ (∀ req, update_request cfg s = Some req →
       Method req = "PUT"
       ∧ (∃ jsonData, json_Marshal_config cfg = ok jsonData
                      ∧ ReqBody req = Some jsonData)
       ∧ out.1 = (DoAuthenticatedRequest req s).1
       ∧ (out.2 = Returned None ↔
          ∃ resp body,
            (DoAuthenticatedRequest req s).2 = Returned (Some resp, None)
            ∧ StatusCode resp = 200%Z ∧ Body resp = ok body)).
Proof.
  unfold_services. unfold http_NewRequest.
  destruct (json_Marshal_config cfg) as [jsonData|e0]; simpl.
  2: { split; [done|]. split; [by eauto|]. by intros ? [=]. }
  destruct (url_Parse _) as [u|e0]; simpl.
  2: { split; [done|]. split; [by eauto|]. by intros ? [=]. }
  match goal with |- context [DoAuthenticatedRequest ?r s] =>
    set (req := r) end.
  pose proof (DoAuthenticatedRequest_summary req s) as (Hcr & _).
  destruct (DoAuthenticatedRequest req s) as [s1 [[[resp|] [e|]]|v]] eqn:HD;
    simpl in *.
  - upd_start req HD. split; [done|]. by intros (? & ? & [=] & _).
  - destruct (StatusCode resp =? 200)%Z eqn:Hst; simpl.
    + destruct (Body resp) as [body|e2] eqn:Hbody; simpl.
      * upd_start req HD. split; [|done]. intros _.
        exists resp, body. apply Z.eqb_eq in Hst. done.
      * upd_start req HD. split; [done|].
        intros (? & ? & [= <-] & _ & Hb). congruence.
    + upd_start req HD. split; [done|].
      intros (? & ? & [= <-] & Hs & _). apply Z.eqb_neq in Hst. done.
  - upd_start req HD. split; [done|]. by intros (? & ? & [=] & _).
  - upd_start req HD. split; [done|]. by intros (? & ? & [=] & _).
  - upd_start req HD. split; [done|]. by intros (? & ? & [=] & _).
Qed.

End Services.

Lemma defaultIDs_of_environment_witness :
  @defaultIDs ascii_only env_ids = ["tiktok"; "youtube"; "roblox"]
  ∧ IDs (@defaultConfig ascii_only env_ids)
    = Some ["tiktok"; "youtube"; "roblox"].
Proof.
  apply (@defaultIDs_of_environment ascii_only env_ids
           [("", "tiktok", ""); (" ", "youtube", " "); ("", "roblox", "")]).
  - reflexivity.
  - discriminate.
  - unfold blank, plain. simpl.
    repeat (apply Forall_cons; split; [repeat split; try done|]);
      try apply Forall_nil; exact I.
Defined.

End ServicesExtra.

(** * Properties of the logger *)

Module LoggerExtra.
Import logger.

Section Logger.
Context `{F : Files} {Value : Type}.

Lemma range_loglevelstr_miss i names llevel lv :
  llevel ∉ names → range_loglevelstr i names llevel lv = lv.
Proof.
  revert i lv. induction names as [|v names IH]; intros i lv Hn; simpl;
    [done|].
  apply not_elem_of_cons in Hn as [Hne Hn].
  rewrite IH by done.
  destruct (String.eqb_spec v llevel); [congruence|done].
Qed.

Lemma range_loglevelstr_hit i names llevel lv k :
  NoDup names → names !! k = Some llevel →
  range_loglevelstr i names llevel lv = (i + Z.of_nat k)%Z.
Proof.
  revert i lv k. induction names as [|v names IH]; intros i lv k Hnd Hk;
    [done|]. apply NoDup_cons in Hnd as [Hv Hnd].
  destruct k as [|k]; simpl in *.
  - injection Hk as ->. rewrite String.eqb_refl.
    rewrite range_loglevelstr_miss by done. lia.
  - rewrite (IH _ _ k) by done. lia.
Qed.

Lemma NoDup_loglevelstr : NoDup loglevelstr.
Proof. apply (bool_decide_unpack _). vm_compute. exact I. Qed.

Lemma Init_level file llevel (s : @State F Value) :
  level (Init file llevel s).1
  = range_loglevelstr 0 loglevelstr llevel (level s).
Proof.
  unfold Init. by destruct (OpenFile file (fs s)) as [[e|] files].
Qed.

Lemma Init_level_range file llevel (s : @State F Value) :
  (0 ≤ level s ≤ 3)%Z → (0 ≤ level (Init file llevel s).1 ≤ 3)%Z.
Proof.
  intros Hs. rewrite Init_level.
  destruct (decide (llevel ∈ loglevelstr)) as [Hin|Hn].
  - apply list_elem_of_lookup_1 in Hin as [k Hk].
    rewrite (range_loglevelstr_hit 0 _ _ _ k NoDup_loglevelstr Hk).
    apply lookup_lt_Some in Hk. simpl in Hk. lia.
  - by rewrite range_loglevelstr_miss.
Qed.

(** X25.  [Init] sets the level to the position of the name in
    ["Err"; "Warn"; "Inf"; "Deb"], and leaves the level as it was for any
    other name.  It does so before it opens the file: when the file
    cannot be opened, [Init] panics with that error, the logger has the
    output it had, and the level has changed all the same. *)
Theorem Init_sets_level_before_opening file llevel (s : @State F Value) :
  let out := Init file llevel s in
  (∀ k, loglevelstr !! k = Some llevel → level out.1 = Z.of_nat k)
  ∧ (llevel ∉ loglevelstr → level out.1 = level s)
  ∧ lines out.1 = lines s
  ∧ match (OpenFile file (fs s)).1 with
    | Some e => out.2 = Panicked e ∧ has_output out.1 = has_output s
    | None => out.2 = Returned ∧ has_output out.1 = true
    end.
Proof.
  intros out. subst out. rewrite Init_level. split.
  { intros k Hk.
    by rewrite (range_loglevelstr_hit 0 _ _ _ k NoDup_loglevelstr Hk). }
  split; [apply range_loglevelstr_miss|].
  unfold Init. by destruct (OpenFile file (fs s)) as [[e|] files].
Qed.

Lemma call_level_range c (s : @State F Value) :
  (0 ≤ level s ≤ 3)%Z → (0 ≤ level (call c s).1 ≤ 3)%Z.
Proof.
  destruct c; simpl; [apply Init_level_range|..];
    unfold Error, Warning, Info, Debug, Println; intros Hs;
    repeat case_match; simpl; done.
Qed.

Lemma calls_level_range cs (s : @State F Value) :
  (0 ≤ level s ≤ 3)%Z → (0 ≤ level (calls cs s) ≤ 3)%Z.
Proof.
  revert s. induction cs as [|c cs IH]; intros s Hs; simpl; [done|].
  by apply IH, call_level_range.
Qed.

Lemma call_output c (s : @State F Value) :
  has_output s = true → has_output (call c s).1 = true.
Proof.
  intros Hs. destruct c; simpl;
    unfold Init, Error, Warning, Info, Debug, Println;
    repeat case_match; simpl; done.
Qed.

Lemma calls_output cs (s : @State F Value) :
  has_output s = true → has_output (calls cs s) = true.
Proof.
  revert s. induction cs as [|c cs IH]; intros s Hs; simpl; [done|].
  by apply IH, call_output.
Qed.

(** X26.  After an [Init] that returned, and whatever calls of the package
    follow, a logging call writes its line, with its tag, exactly when its
    severity is at most the level, and changes nothing else; the level is
    always one of the four, so that [Error] is never filtered out and
    [Debug] is written at level [Deb] only. *)
Theorem logging_filters_by_level files file llevel (cs : list (@Call Value))
    c tag sev msg :
  (Init file llevel (@initial F Value files)).2 = Returned →
  severity c = Some (tag, sev, msg) →
  let s := calls cs (Init file llevel (initial files)).1 in
  (0 ≤ level s ≤ 3)%Z
  ∧ (call c s).2 = Returned
  ∧ level (call c s).1 = level s
  ∧ lines (call c s).1
    = (if (sev <=? level s)%Z then [(tag, msg)] else []) ++ lines s
  ∧ (sev = Err → lines (call c s).1 = (tag, msg) :: lines s).
Proof.
  intros Hinit Hsev s.
  assert (Hlv : (0 ≤ level s ≤ 3)%Z).
  { apply calls_level_range, Init_level_range. simpl. lia. }
  assert (Hout : has_output s = true).
  { apply calls_output. revert Hinit. unfold Init.
    by destruct (OpenFile file _) as [[e|] files']. }
  split; [done|].
  assert (Hcall : call c s
                  = if (sev <=? level s)%Z then Println tag msg s
                    else (s, Returned)).
  { destruct c; simpl in Hsev; [done|..]; by injection Hsev as <- <- <-. }
  rewrite Hcall. unfold Println. rewrite Hout.
  destruct (Z.leb_spec sev (level s)); simpl.
  - repeat split; done.
  - repeat split; try done. intros ->. unfold Err in *. lia.
Qed.

End Logger.

Lemma logging_filters_by_level_witness :
  let s := @calls files_open string
             [CallDebug ["started"]; CallInit "" "verbose"]
             (@Init files_open string "app.log" "Warn"
                (@initial files_open string tt)).1 in
  (0 ≤ level s ≤ 3)%Z
  ∧ (call (CallInfo ["listening"]) s).2 = Returned
  ∧ level (call (CallInfo ["listening"]) s).1 = level s
  ∧ lines (call (CallInfo ["listening"]) s).1
    = (if (Inf <=? level s)%Z then [("INFO:", ["listening"])] else [])
      ++ lines s
  ∧ (Inf = Err →
     lines (call (CallInfo ["listening"]) s).1
     = ("INFO:", ["listening"]) :: lines s).
Proof.
  apply (@logging_filters_by_level files_open string tt "app.log" "Warn"
           [CallDebug ["started"]; CallInit "" "verbose"]
           (CallInfo ["listening"]) "INFO:" Inf ["listening"]);
    reflexivity.
Defined.

End LoggerExtra.
